(** * Robot arm visualizer: command engine, scene projector and colour shading

    A shallow embedding of [frontend/js/robot-visualizer.js] (class
    [RobotVisualizer]) and of the command ingestion of the application
    controller ([MultimodalRoboticsApp.loadRobotCommands]).

    Conventions of the embedding.
    - In the engine a JavaScript number is an exact rational ([Q], kept in
      lowest terms) or [NaN]; a missing object field is [Undefined].
      Rounding error, overflow and the infinities of IEEE doubles are not
      represented there.  The motion of a [move_to] is modelled twice more:
      over the reals with every operation rounded (module [Rounded], with
      the rounding of binary64 as an instance), and on the kernel's binary64
      values (module [F64]).
    - The engine object is a record; every method is a function from engine
      to engine.  [setTimeout] appends a callback to the host's timer queue,
      which is carried in the record; [requestAnimationFrame] is the host
      delivering [Frame] events.
    - Canvas drawing and DOM updates have no effect on the engine state and
      are left out of the engine; the exception that drawing can raise is
      modelled apart (module [Draw]). *)

From Stdlib Require Import QArith Qround Qabs Qreals Reals Psatz Lia List String Ascii ZArith Bool DecimalString.
From Stdlib Require PrimFloat.
From stdpp Require Import base list.
Import ListNotations.

Set Default Proof Using "Type".

(** ** JavaScript numbers *)

Module JS.

Inductive value : Type :=
| Undefined
| NaN
| Fin (q : Q).

(** Binary arithmetic: both operands are converted with ToNumber, under which
    [undefined] becomes [NaN]; [NaN] is absorbing. *)
Definition sub (a b : value) : value :=
  match a, b with
  | Fin p, Fin q => Fin (Qred (p - q))
  | _, _ => NaN
  end.

Definition add (a b : value) : value :=
  match a, b with
  | Fin p, Fin q => Fin (Qred (p + q))
  | _, _ => NaN
  end.

Definition mul (a b : value) : value :=
  match a, b with
  | Fin p, Fin q => Fin (Qred (p * q))
  | _, _ => NaN
  end.

(** [a / b]; the only divisor in the modelled code is the literal 2500. *)
Definition div (a b : value) : value :=
  match a, b with
  | Fin p, Fin q => if Qeq_bool q 0 then NaN else Fin (Qred (p / q))
  | _, _ => NaN
  end.

(** Unary minus. *)
Definition neg (a : value) : value :=
  match a with
  | Fin p => Fin (Qred (- p))
  | _ => NaN
  end.

(** Truthiness of a number or [undefined]. *)
Definition truthy (a : value) : bool :=
  match a with
  | Fin p => negb (Qeq_bool p 0)
  | _ => false
  end.

(** [a || d] *)
Definition or (a d : value) : value := if truthy a then a else d.

(** [Math.min(a, b)] *)
Definition min (a b : value) : value :=
  match a, b with
  | Fin p, Fin q => if Qlt_le_dec q p then Fin q else Fin p
  | _, _ => NaN
  end.

(** [Math.round(a)]: the nearest integer, ties towards +infinity. *)
Definition round (a : value) : value :=
  match a with
  | Fin p => Fin (inject_Z (Qfloor (p + (1 # 2))))
  | _ => NaN
  end.

(** [Math.sqrt(a) < 2], the arrival test of [animate].  The square root is
    not rational; over the reals [sqrt a < 2] holds exactly when
    [0 <= a < 4] (lemma [sqrt_lt_2_spec] below).  A negative argument gives
    [NaN], and a comparison with [NaN] is false. *)
Definition sqrt_lt_2 (a : value) : bool :=
  match a with
  | Fin p => if Qlt_le_dec p 0 then false else if Qlt_le_dec p 4 then true else false
  | _ => false
  end.

(** The text a number takes inside a template literal, for the integers
    and [NaN] that [Math.round] returns (decimal digits; JavaScript switches
    to exponent notation from 10^21 on). *)
Definition to_string (a : value) : string :=
  match a with
  | Fin p => NilZero.string_of_int (Z.to_int (Qfloor p))
  | NaN => "NaN"
  | Undefined => "undefined"
  end.

End JS.

(** Equality of numbers is decidable. *)
#[global] Instance Q_eq_dec : EqDecision Q.
Proof. solve_decision. Defined.

#[global] Instance value_eq_dec : EqDecision JS.value.
Proof. solve_decision. Defined.

(** ** Data model *)

Module Vec.
(** An object literal [{ x, y, z }]. *)
Record t : Type := mk { x : JS.value; y : JS.value; z : JS.value }.
Definition origin : t := mk (JS.Fin 0) (JS.Fin 0) (JS.Fin 0).

(** All three components are numbers other than [NaN]. *)
Definition finite (p : t) : Prop :=
  match p with
  | mk (JS.Fin _) (JS.Fin _) (JS.Fin _) => True
  | _ => False
  end.

(** The rational a component stands for (0 where it is not a number). *)
Definition coord (v : JS.value) : Q :=
  match v with
  | JS.Fin q => q
  | _ => 0
  end.

(** Squared Euclidean distance between two points. *)
Definition dist2 (a b : t) : Q :=
  (coord (x b) - coord (x a)) * (coord (x b) - coord (x a)) +
  (coord (y b) - coord (y a)) * (coord (y b) - coord (y a)) +
  (coord (z b) - coord (z a)) * (coord (z b) - coord (z a)).

(** Euclidean distance, a real number. *)
Definition distance (a b : t) : R := sqrt (Q2R (dist2 a b)).
End Vec.

Module Command.
(** A command as the caller hands it over:
    [{action, x?, y?, z?, speed?, description?}]. *)
Record raw : Type := mkRaw {
  raw_action : string;
  raw_x : JS.value;
  raw_y : JS.value;
  raw_z : JS.value;
  raw_speed : JS.value;
  raw_description : option string
}.

(** A queue entry: the caller's fields plus [index] and [completed]. *)
Record t : Type := mk {
  action : string;
  x : JS.value;
  y : JS.value;
  z : JS.value;
  speed : JS.value;
  description : option string;
  index : nat;
  completed : bool
}.

Definition of_raw (c : raw) (i : nat) : t :=
  mk (raw_action c) (raw_x c) (raw_y c) (raw_z c) (raw_speed c)
     (raw_description c) i false.

Definition set_completed (c : t) : t :=
  mk (action c) (x c) (y c) (z c) (speed c) (description c) (index c) true.
End Command.

(** Callbacks the engine hands to [setTimeout]. *)
Inductive callback : Type :=
| CompleteCurrentCommand
| ExecuteNextCommand.

(** The fields of [RobotVisualizer] that the command engine reads or writes,
    and [timers], the host's queue of pending [setTimeout] callbacks with the
    milliseconds each still has to wait, in registration order. *)
Record engine : Type := mkEngine {
  position : Vec.t;
  targetPosition : Vec.t;
  currentPosition : Vec.t;
  gripperOpen : bool;
  isAnimating : bool;
  animationSpeed : JS.value;
  commandQueue : list Command.t;
  currentCommandIndex : nat;
  isPaused : bool;
  timers : list (nat * callback)
}.

(** State set up by the constructor. *)
Definition initial : engine :=
  {| position := Vec.origin;
     targetPosition := Vec.origin;
     currentPosition := Vec.origin;
     gripperOpen := true;
     isAnimating := false;
     animationSpeed := JS.Fin (2 # 100);
     commandQueue := [];
     currentCommandIndex := 0;
     isPaused := false;
     timers := [] |}.

Definition set_position (v : Vec.t) (e : engine) : engine :=
  mkEngine v (targetPosition e) (currentPosition e) (gripperOpen e)
    (isAnimating e) (animationSpeed e) (commandQueue e)
    (currentCommandIndex e) (isPaused e) (timers e).

Definition set_targetPosition (v : Vec.t) (e : engine) : engine :=
  mkEngine (position e) v (currentPosition e) (gripperOpen e)
    (isAnimating e) (animationSpeed e) (commandQueue e)
    (currentCommandIndex e) (isPaused e) (timers e).

Definition set_currentPosition (v : Vec.t) (e : engine) : engine :=
  mkEngine (position e) (targetPosition e) v (gripperOpen e)
    (isAnimating e) (animationSpeed e) (commandQueue e)
    (currentCommandIndex e) (isPaused e) (timers e).

Definition set_gripperOpen (b : bool) (e : engine) : engine :=
  mkEngine (position e) (targetPosition e) (currentPosition e) b
    (isAnimating e) (animationSpeed e) (commandQueue e)
    (currentCommandIndex e) (isPaused e) (timers e).

Definition set_isAnimating (b : bool) (e : engine) : engine :=
  mkEngine (position e) (targetPosition e) (currentPosition e) (gripperOpen e)
    b (animationSpeed e) (commandQueue e)
    (currentCommandIndex e) (isPaused e) (timers e).

Definition set_animationSpeed (v : JS.value) (e : engine) : engine :=
  mkEngine (position e) (targetPosition e) (currentPosition e) (gripperOpen e)
    (isAnimating e) v (commandQueue e)
    (currentCommandIndex e) (isPaused e) (timers e).

Definition set_commandQueue (q : list Command.t) (e : engine) : engine :=
  mkEngine (position e) (targetPosition e) (currentPosition e) (gripperOpen e)
    (isAnimating e) (animationSpeed e) q
    (currentCommandIndex e) (isPaused e) (timers e).

Definition set_currentCommandIndex (i : nat) (e : engine) : engine :=
  mkEngine (position e) (targetPosition e) (currentPosition e) (gripperOpen e)
    (isAnimating e) (animationSpeed e) (commandQueue e)
    i (isPaused e) (timers e).

Definition set_isPaused (b : bool) (e : engine) : engine :=
  mkEngine (position e) (targetPosition e) (currentPosition e) (gripperOpen e)
    (isAnimating e) (animationSpeed e) (commandQueue e)
    (currentCommandIndex e) b (timers e).

Definition set_timers (ts : list (nat * callback)) (e : engine) : engine :=
  mkEngine (position e) (targetPosition e) (currentPosition e) (gripperOpen e)
    (isAnimating e) (animationSpeed e) (commandQueue e)
    (currentCommandIndex e) (isPaused e) ts.

(** [setTimeout(cb, delay)] *)
Definition setTimeout (cb : callback) (delay : nat) (e : engine) : engine :=
  set_timers (timers e ++ [(delay, cb)]) e.

(** ** The command engine *)

(** [markCommandCompleted(index)]: sets [completed] on the entry when there is
    one at [index]. *)
Definition markCommandCompleted (i : nat) (e : engine) : engine :=
  set_commandQueue (alter Command.set_completed i (commandQueue e)) e.

(** [completeExecution()] *)
Definition completeExecution (e : engine) : engine :=
  set_isAnimating false e.

(** [completeCurrentCommand()] *)
Definition completeCurrentCommand (e : engine) : engine :=
  let e1 :=
    if (currentCommandIndex e <? length (commandQueue e))%nat then
      let e' := markCommandCompleted (currentCommandIndex e) e in
      set_currentCommandIndex (S (currentCommandIndex e')) e'
    else e in
  setTimeout ExecuteNextCommand 200 e1.

(** [executeNextCommand()] *)
Definition executeNextCommand (e : engine) : engine :=
  if isPaused e || (length (commandQueue e) <=? currentCommandIndex e)%nat then
    if (length (commandQueue e) <=? currentCommandIndex e)%nat
    then completeExecution e
    else e
  else
    match commandQueue e !! currentCommandIndex e with
    | None => e
    | Some command =>
      if String.eqb (Command.action command) "move_to" then
        let e1 :=
          set_targetPosition
            (Vec.mk (Command.x command) (Command.y command) (Command.z command)) e in
        set_animationSpeed
          (JS.div (JS.or (Command.speed command) (JS.Fin 50)) (JS.Fin 2500)) e1
      else if String.eqb (Command.action command) "close_gripper" then
        setTimeout CompleteCurrentCommand 1000 (set_gripperOpen false e)
      else if String.eqb (Command.action command) "open_gripper" then
        setTimeout CompleteCurrentCommand 1000 (set_gripperOpen true e)
      else
        setTimeout CompleteCurrentCommand 500 e
    end.

(** The squared length [dx*dx + dy*dy + dz*dz] handed to [Math.sqrt]. *)
Definition sumsq (dx dy dz : JS.value) : JS.value :=
  JS.add (JS.add (JS.mul dx dx) (JS.mul dy dy)) (JS.mul dz dz).

(** [animate()]: one tick of the animation loop. *)
Definition animate (e : engine) : engine :=
  let e1 :=
    if isAnimating e then
      let dx := JS.sub (Vec.x (targetPosition e)) (Vec.x (currentPosition e)) in
      let dy := JS.sub (Vec.y (targetPosition e)) (Vec.y (currentPosition e)) in
      let dz := JS.sub (Vec.z (targetPosition e)) (Vec.z (currentPosition e)) in
      let moved :=
        Vec.mk (JS.add (Vec.x (currentPosition e)) (JS.mul dx (animationSpeed e)))
               (JS.add (Vec.y (currentPosition e)) (JS.mul dy (animationSpeed e)))
               (JS.add (Vec.z (currentPosition e)) (JS.mul dz (animationSpeed e))) in
      let e' := set_currentPosition moved e in
      if JS.sqrt_lt_2 (sumsq dx dy dz) then
        completeCurrentCommand (set_currentPosition (targetPosition e') e')
      else e'
    else e in
  set_position (currentPosition e1) e1.

(** [loadCommands(commands)] *)
Definition loadCommands (commands : list Command.raw) (e : engine) : engine :=
  set_currentCommandIndex 0
    (set_commandQueue (imap (fun i c => Command.of_raw c i) commands) e).

(** [startExecution()] *)
Definition startExecution (e : engine) : engine :=
  if (length (commandQueue e) =? 0)%nat then e
  else
    executeNextCommand
      (set_currentCommandIndex 0 (set_isPaused false (set_isAnimating true e))).

(** [pauseExecution()] *)
Definition pauseExecution (e : engine) : engine := set_isPaused true e.

(** [resumeExecution()] *)
Definition resumeExecution (e : engine) : engine :=
  executeNextCommand (set_isPaused false e).

(** [stopExecution()] *)
Definition stopExecution (e : engine) : engine :=
  set_gripperOpen true
    (set_targetPosition Vec.origin
      (set_currentPosition Vec.origin
        (set_isPaused false (set_isAnimating false e)))).

(** The object [getState()] returns. *)
Record snapshot : Type := mkSnapshot {
  snap_position : Vec.t;
  snap_gripperOpen : bool;
  snap_isAnimating : bool;
  snap_isPaused : bool;
  snap_currentCommandIndex : nat;
  snap_totalCommands : nat
}.

Definition getState (e : engine) : snapshot :=
  {| snap_position := position e;
     snap_gripperOpen := gripperOpen e;
     snap_isAnimating := isAnimating e;
     snap_isPaused := isPaused e;
     snap_currentCommandIndex := currentCommandIndex e;
     snap_totalCommands := length (commandQueue e) |}.

(** ** The host: events and schedules *)

Definition run_callback (cb : callback) (e : engine) : engine :=
  match cb with
  | CompleteCurrentCommand => completeCurrentCommand e
  | ExecuteNextCommand => executeNextCommand e
  end.

(** What can happen to an engine: the host delivers an animation frame or
    fires the [k]-th pending timer, or a caller invokes a public method. *)
Inductive event : Type :=
| Frame
| Timeout (k : nat)
| LoadCommands (commands : list Command.raw)
| StartExecution
| PauseExecution
| ResumeExecution
| StopExecution.

Definition step (ev : event) (e : engine) : engine :=
  match ev with
  | Frame => animate e
  | Timeout k =>
    match timers e !! k with
    | Some (_, cb) => run_callback cb (set_timers (delete k (timers e)) e)
    | None => e
    end
  | LoadCommands commands => loadCommands commands e
  | StartExecution => startExecution e
  | PauseExecution => pauseExecution e
  | ResumeExecution => resumeExecution e
  | StopExecution => stopExecution e
  end.

(** The engine after a sequence of events, oldest first. *)
Definition run (evs : list event) (e : engine) : engine :=
  fold_left (fun e ev => step ev e) evs e.

(** One millisecond of host time: the timers that become due fire in
    registration order; callbacks they register wait at least 200 ms. *)
Definition millisecond (e : engine) : engine :=
  let due := List.filter (fun t => (fst t <=? 1)%nat) (timers e) in
  let waiting := List.filter (fun t => negb (fst t <=? 1)%nat) (timers e) in
  fold_left (fun e t => run_callback (snd t) e) due
    (set_timers (map (fun t => (Nat.pred (fst t), snd t)) waiting) e).

(** A display refreshing every [period] milliseconds: the time passes, then
    the frame callback runs. *)
Definition frame (period : nat) (e : engine) : engine :=
  animate (Nat.iter period millisecond e).

Definition frames (period n : nat) (e : engine) : engine :=
  Nat.iter n (frame period) e.

(** ** Command ingestion by the application controller *)

(** The object [MultimodalRoboticsApp.loadRobotCommands] builds from one
    backend command: falsy coordinates become 0, a falsy speed becomes 50,
    a falsy description becomes ["<action> command"]. *)
Definition robotCommand (cmd : Command.raw) : Command.raw :=
  Command.mkRaw
    (Command.raw_action cmd)
    (JS.or (Command.raw_x cmd) (JS.Fin 0))
    (JS.or (Command.raw_y cmd) (JS.Fin 0))
    (JS.or (Command.raw_z cmd) (JS.Fin 0))
    (JS.or (Command.raw_speed cmd) (JS.Fin 50))
    (Some
       match Command.raw_description cmd with
       | Some (String a d) => String a d
       | Some EmptyString | None => (Command.raw_action cmd ++ " command")%string
       end).

(** [loadRobotCommands()], as far as the visualizer is concerned: the
    converted commands are handed to [loadCommands]. *)
Definition loadRobotCommands (commands : list Command.raw) (e : engine) : engine :=
  loadCommands (map robotCommand commands) e.

(** ** Scene projector *)

Module Projector.

(** The camera fields [project3D] reads from the visualizer. *)
Record camera : Type := mkCamera {
  scale : R;
  centerX : R;
  centerY : R
}.

(** The point [{ x: screenX, y: screenY }] returned by [project3D]. *)
Record point : Type := mkPoint {
  screenX : R;
  screenY : R
}.

(** [setupCanvas()], for a canvas whose bounding rectangle is
    [width] by [height]. *)
Definition setupCanvas (width height : R) (cam : camera) : camera :=
  mkCamera (scale cam) (width / 2) (height - 80).

(** [project3D(x, y, z)] *)
Definition project3D (cam : camera) (x y z : R) : point :=
  mkPoint
    (centerX cam + (x - y) * cos (PI / 6) * scale cam)
    (centerY cam - (x + y) * sin (PI / 6) * scale cam - z * scale cam).

(** An angle given in degrees, in radians. *)
Definition degrees (d : R) : R := d * PI / 180.

End Projector.

(** ** Colour shading *)

Module Color.

(** Value of a hexadecimal digit, read off the character code: [0]-[9]
    are 48-57, [a]-[f] are 97-102, [A]-[F] are 65-70. *)
Definition hex_digit (c : ascii) : option Z :=
  let code := Z.of_N (N_of_ascii c) in
  if (48 <=? code)%Z && (code <=? 57)%Z then Some (code - 48)%Z
  else if (97 <=? code)%Z && (code <=? 102)%Z then Some (code - 87)%Z
  else if (65 <=? code)%Z && (code <=? 70)%Z then Some (code - 55)%Z
  else None.

(** The white space [parseInt] skips, among the characters of code below
    256: tab, line feed, vertical tab, form feed, carriage return, space
    and the no-break space. *)
Definition is_space (c : ascii) : bool :=
  match c with
  | "009" | "010" | "011" | "012" | "013" | " " | "160" => true
  | _ => false
  end%char.

Fixpoint skip_spaces (s : string) : string :=
  match s with
  | String c s' => if is_space c then skip_spaces s' else s
  | EmptyString => s
  end.

(** The longest prefix of hexadecimal digits, as a number; [acc] is the
    value read so far, [None] before the first digit. *)
Fixpoint hex_prefix (acc : option Z) (s : string) : option Z :=
  match s with
  | String c s' =>
    match hex_digit c with
    | Some d =>
      hex_prefix (Some (16 * match acc with Some a => a | None => 0 end + d)%Z) s'
    | None => acc
    end
  | EmptyString => acc
  end.

(** [parseInt(s, 16)]: leading white space, an optional sign, an optional
    [0x], then hexadecimal digits up to the first other character; [NaN]
    when there is no digit. *)
Definition parseInt16 (s : string) : JS.value :=
  let s1 := skip_spaces s in
  let '(sign, s2) :=
    match s1 with
    | String "-" r => ((-1)%Z, r)
    | String "+" r => (1%Z, r)
    | _ => (1%Z, s1)
    end in
  let s3 :=
    match s2 with
    | String "0" (String "x" r) => r
    | String "0" (String "X" r) => r
    | _ => s2
    end in
  match hex_prefix None s3 with
  | Some n => JS.Fin (inject_Z (sign * n))
  | None => JS.NaN
  end.

(** [color.replace('#', '')]: the first [#] is dropped. *)
Fixpoint remove_hash (color : string) : string :=
  match color with
  | String c s' => if Ascii.eqb c "#" then s' else String c (remove_hash s')
  | EmptyString => EmptyString
  end.

(** [lightenColor(color, amount)] *)
Definition lightenColor (color : string) (amount : JS.value) : string :=
  let hex := remove_hash color in
  let r := JS.min (JS.Fin 255)
             (JS.add (parseInt16 (substring 0 2 hex)) (JS.mul amount (JS.Fin 255))) in
  let g := JS.min (JS.Fin 255)
             (JS.add (parseInt16 (substring 2 2 hex)) (JS.mul amount (JS.Fin 255))) in
  let b := JS.min (JS.Fin 255)
             (JS.add (parseInt16 (substring 4 2 hex)) (JS.mul amount (JS.Fin 255))) in
  ("rgb(" ++ JS.to_string (JS.round r) ++ ", " ++ JS.to_string (JS.round g) ++ ", "
   ++ JS.to_string (JS.round b) ++ ")")%string.

(** [darkenColor(color, amount)] *)
Definition darkenColor (color : string) (amount : JS.value) : string :=
  lightenColor color (JS.neg amount).

(** What [lightenColor] does to one channel value before printing it. *)
Definition shade (channel amount : JS.value) : JS.value :=
  JS.round (JS.min (JS.Fin 255) (JS.add channel (JS.mul amount (JS.Fin 255)))).

(** All 256 characters. *)
Definition all_ascii : list ascii := List.map ascii_of_nat (seq 0 256).

(** [parseInt16] reads every pair of hexadecimal digits as the byte they
    spell. *)
Definition reads_pair (c1 c2 : ascii) : bool :=
  match hex_digit c1, hex_digit c2 with
  | Some v1, Some v2 =>
    bool_decide (parseInt16 (String c1 (String c2 EmptyString)) =
                 JS.Fin (inject_Z (16 * v1 + v2)))
  | _, _ => true
  end.


End Color.

(** ** Properties of engine states *)

(** The cursor never passes the end of the queue. *)
Definition cursor_in_bounds (e : engine) : Prop :=
  (currentCommandIndex e <= length (commandQueue e))%nat.

(** ** Command literals *)

(** [{action: "move_to", x, y, z, speed}] *)
Definition moveTo (x y z : Q) (speed : JS.value) : Command.raw :=
  Command.mkRaw "move_to" (JS.Fin x) (JS.Fin y) (JS.Fin z) speed None.

(** [{action: "close_gripper"}] *)
Definition closeGripper : Command.raw :=
  Command.mkRaw "close_gripper" JS.Undefined JS.Undefined JS.Undefined JS.Undefined None.

(** [{action: "open_gripper"}] *)
Definition openGripper : Command.raw :=
  Command.mkRaw "open_gripper" JS.Undefined JS.Undefined JS.Undefined JS.Undefined None.

(** An engine in the middle of a move: animating, at a numeric position,
    heading for a numeric target at interpolation rate [rate]. *)
Record moving (rate : Q) (e : engine) : Prop := mkMoving {
  moving_isAnimating : isAnimating e = true;
  moving_current : Vec.finite (currentPosition e);
  moving_target : Vec.finite (targetPosition e);
  moving_rate : animationSpeed e = JS.Fin rate
}.

(** Where a tick moves the arm: every coordinate closes the fraction
    [animationSpeed] of its gap to the target. *)
Definition interpolated (e : engine) : Vec.t :=
  Vec.mk
    (JS.add (Vec.x (currentPosition e))
       (JS.mul (JS.sub (Vec.x (targetPosition e)) (Vec.x (currentPosition e)))
          (animationSpeed e)))
    (JS.add (Vec.y (currentPosition e))
       (JS.mul (JS.sub (Vec.y (targetPosition e)) (Vec.y (currentPosition e)))
          (animationSpeed e)))
    (JS.add (Vec.z (currentPosition e))
       (JS.mul (JS.sub (Vec.z (targetPosition e)) (Vec.z (currentPosition e)))
          (animationSpeed e))).

(** Squared distance and distance still to go. *)
Definition remaining2 (e : engine) : Q :=
  Vec.dist2 (currentPosition e) (targetPosition e).

Definition remaining (e : engine) : R :=
  Vec.distance (currentPosition e) (targetPosition e).

(** Equality of engines is decidable. *)
#[global] Instance vec_eq_dec : EqDecision Vec.t.
Proof. solve_decision. Defined.

#[global] Instance string_eq_dec : EqDecision string := String.string_dec.

#[global] Instance command_eq_dec : EqDecision Command.t.
Proof. solve_decision. Defined.

#[global] Instance callback_eq_dec : EqDecision callback.
Proof. solve_decision. Defined.

#[global] Instance engine_eq_dec : EqDecision engine.
Proof. solve_decision. Defined.

(** ** The three-command demonstration run *)

(** [[MoveTo{x:10,y:0,z:0,speed:50}, CloseGripper, OpenGripper]] *)
Definition demoSequence : list Command.raw :=
  [moveTo 10 0 0 (JS.Fin 50); closeGripper; openGripper].

(** The engine right after [loadCommands(demoSequence)] and
    [startExecution()] on a fresh instance. *)
Definition demoStart : engine :=
  startExecution (loadCommands demoSequence initial).

(** The engine at the tick that snaps the arm to [{10,0,0}]: the move is
    marked completed and the first inter-command timer is pending. *)
Definition demoArrived : engine :=
  {| position := Vec.mk (JS.Fin 10) (JS.Fin 0) (JS.Fin 0);
     targetPosition := Vec.mk (JS.Fin 10) (JS.Fin 0) (JS.Fin 0);
     currentPosition := Vec.mk (JS.Fin 10) (JS.Fin 0) (JS.Fin 0);
     gripperOpen := true;
     isAnimating := true;
     animationSpeed := JS.Fin (1 # 50);
     commandQueue :=
       alter Command.set_completed 0%nat
         (imap (fun i c => Command.of_raw c i) demoSequence);
     currentCommandIndex := 1;
     isPaused := false;
     timers := [(200%nat, ExecuteNextCommand)] |}.

(** The engine once the run is over. *)
Definition demoFinished : engine :=
  {| position := Vec.mk (JS.Fin 10) (JS.Fin 0) (JS.Fin 0);
     targetPosition := Vec.mk (JS.Fin 10) (JS.Fin 0) (JS.Fin 0);
     currentPosition := Vec.mk (JS.Fin 10) (JS.Fin 0) (JS.Fin 0);
     gripperOpen := true;
     isAnimating := false;
     animationSpeed := JS.Fin (1 # 50);
     commandQueue :=
       map Command.set_completed
         (imap (fun i c => Command.of_raw c i) demoSequence);
     currentCommandIndex := 3;
     isPaused := false;
     timers := [] |}.

(** [n] ticks in a row during which no timer is pending, if that is how the
    first [n] frames go. *)
Fixpoint quiet_ticks (n : nat) (e : engine) : option engine :=
  match n with
  | O => Some e
  | S n' =>
    match quiet_ticks n' e with
    | Some e' =>
      match timers e' with
      | [] => Some (animate e')
      | _ :: _ => None
      end
    | None => None
    end
  end.

(** [q] to the power [n]. *)
Fixpoint Qpow (q : Q) (n : nat) : Q :=
  match n with
  | O => 1
  | S n' => q * Qpow q n'
  end.

(** *** Passing time without stepping through every millisecond *)

(** The shortest wait among the pending timers. *)
Definition next_deadline (ts : list (nat * callback)) : option nat :=
  match ts with
  | [] => None
  | t :: ts' => Some (fold_left Nat.min (map fst ts') (fst t))
  end.

(** [k] milliseconds during which no timer comes due. *)
Definition wait (k : nat) (e : engine) : engine :=
  set_timers (map (fun t => (fst t - k, snd t)) (timers e)) e.

(** [dt] milliseconds, jumping from one deadline to the next; it is plain
    stepping when [fuel] runs out. *)
Fixpoint elapse (fuel dt : nat) (e : engine) : engine :=
  match fuel with
  | O => Nat.iter dt millisecond e
  | S fuel' =>
    match next_deadline (timers e) with
    | None => e
    | Some d =>
      if (dt <? Nat.max d 1)%nat then wait dt e
      else elapse fuel' (dt - Nat.max d 1) (millisecond (wait (d - 1) e))
    end
  end.

Definition fast_frame (period : nat) (e : engine) : engine :=
  animate (elapse period period e).

Definition fast_frames (period n : nat) (e : engine) : engine :=
  Nat.iter n (fast_frame period) e.

(** Frames allowed for the rest of the run after the arrival: two seconds
    and three frames. *)
Definition demoTail (period : nat) : nat := 2000 / period + 3.

(** The run from the arrival on ends in [demoFinished]. *)
Definition demoSettles (period : nat) : bool :=
  bool_decide (fast_frames period (demoTail period) demoArrived = demoFinished).

(** ** Further properties of engine states and events *)

(** Every queue entry carries its own position as [index]. *)
Definition queue_indexed (e : engine) : Prop :=
  forall (i : nat) (c : Command.t),
    commandQueue e !! i = Some c -> Command.index c = i.

(** Every entry before the cursor is marked completed. *)
Definition completed_below_cursor (e : engine) : Prop :=
  forall (i : nat) (c : Command.t),
    commandQueue e !! i = Some c -> (i < currentCommandIndex e)%nat ->
    Command.completed c = true.

(** The event hands no command with the given action to [loadCommands]. *)
Definition loads_without (action : string) (ev : event) : Prop :=
  match ev with
  | LoadCommands commands =>
      forall c : Command.raw, In c commands -> Command.raw_action c <> action
  | _ => True
  end.

(** No entry of the queue has the given action. *)
Definition queue_without (action : string) (e : engine) : Prop :=
  forall (i : nat) (c : Command.t),
    commandQueue e !! i = Some c -> Command.action c <> action.

(** The arm rests at the origin with the constructor's interpolation rate. *)
Definition at_home (e : engine) : Prop :=
  position e = Vec.origin /\ currentPosition e = Vec.origin /\
  targetPosition e = Vec.origin /\ animationSpeed e = JS.Fin (2 # 100).


(** Two engines that differ at most in [position] and [currentPosition]. *)
Definition same_but_pose (e e' : engine) : Prop :=
  targetPosition e' = targetPosition e /\
  gripperOpen e' = gripperOpen e /\
  isAnimating e' = isAnimating e /\
  animationSpeed e' = animationSpeed e /\
  commandQueue e' = commandQueue e /\
  currentCommandIndex e' = currentCommandIndex e /\
  isPaused e' = isPaused e /\
  timers e' = timers e.

(** [MultimodalRoboticsApp.togglePause()], on the visualizer it drives. *)
Definition togglePause (e : engine) : engine :=
  if snap_isPaused (getState e) then resumeExecution e else pauseExecution e.

(** The sum of squares a tick hands to [Math.sqrt]. *)
Definition gap2 (e : engine) : JS.value :=
  sumsq (JS.sub (Vec.x (targetPosition e)) (Vec.x (currentPosition e)))
        (JS.sub (Vec.y (targetPosition e)) (Vec.y (currentPosition e)))
        (JS.sub (Vec.z (targetPosition e)) (Vec.z (currentPosition e))).

(** ** Colour shading: auxiliary definitions *)

(** Decimal text of an integer, as a template literal prints it. *)
Definition decimal (z : Z) : string := NilZero.string_of_int (Z.to_int z).

(** [parseInt16] reads a lone hexadecimal digit as its value. *)
Definition reads_digit (c : ascii) : bool :=
  match Color.hex_digit c with
  | Some v => bool_decide (Color.parseInt16 (String c EmptyString) = JS.Fin (inject_Z v))
  | None => true
  end.

(** The string contains no [#]. *)
Fixpoint hash_free (s : string) : Prop :=
  match s with
  | EmptyString => True
  | String c s' => c <> "#"%char /\ hash_free s'
  end.


(** ** Toast notifications ([NotificationManager]) *)

Module Notify.

(** A notification object, without its DOM element. *)
Record notification : Type := mkNotification {
  id : string;
  type : string;
  title : string;
  message : string;
  duration : Z
}.

(** [this.maxNotifications] and [this.defaultDuration], as the constructor
    sets them. *)
Definition maxNotifications : nat := 5.
Definition defaultDuration : Z := 5000.

(** The loop of [addNotification]: while the list is full, [shift()] drops
    the oldest entry. *)
Fixpoint shift_while_full (l : list notification) : list notification :=
  match l with
  | [] => []
  | _ :: rest => if (maxNotifications <=? length l)%nat then shift_while_full rest else l
  end.

(** [addNotification(notification)], on [this.notifications]. *)
Definition addNotification (n : notification) (l : list notification)
  : list notification :=
  shift_while_full l ++ [n].

(** [this.notifications.findIndex(n => n.id === id)] *)
Fixpoint findIndex (i : string) (l : list notification) : option nat :=
  match l with
  | [] => None
  | n :: rest => if String.eqb (id n) i then Some 0%nat
                 else option_map S (findIndex i rest)
  end.

(** [removeNotification(id)] *)
Definition removeNotification (i : string) (l : list notification)
  : list notification :=
  match findIndex i l with
  | None => l
  | Some k => delete k l
  end.

(** [clear()] *)
Definition clear (l : list notification) : list notification := [].

(** [createNotification(type, title, message, duration)]; the id, which the
    source builds from the clock and a random number, is an argument. *)
Definition createNotification (i type title message : string) (duration : Z)
  : notification :=
  mkNotification i type title message duration.

(** The result of [show]: the id it returns, the new list, and the dismissal
    timer (delay and id) it registers. *)
Record shown : Type := mkShown {
  shown_id : string;
  shown_list : list notification;
  shown_timer : option (Z * string)
}.

(** [show(type, title, message, duration = this.defaultDuration)] *)
Definition show (i type title message : string) (duration : option Z)
    (l : list notification) : shown :=
  let d := match duration with Some d => d | None => defaultDuration end in
  let n := createNotification i type title message d in
  mkShown (id n) (addNotification n l)
          (if (0 <? d)%Z then Some (d, id n) else None).

(** Calls on a notification manager. *)
Inductive op : Type :=
| Show (i type title message : string) (duration : option Z)
| Remove (i : string)
| Clear.

Definition apply (o : op) (l : list notification) : list notification :=
  match o with
  | Show i type title message duration =>
      shown_list (show i type title message duration l)
  | Remove i => removeNotification i l
  | Clear => clear l
  end.

Definition run (ops : list op) (l : list notification) : list notification :=
  fold_left (fun l o => apply o l) ops l.

(** No entry of the list has the given id. *)
Definition fresh (i : string) (l : list notification) : Prop :=
  forall n : notification, In n l -> id n <> i.

End Notify.

(** ** Backend requests ([APIClient]) *)

Module API.

Local Open Scope string_scope.

(** The fields of the client that [request] reads. *)
Record client : Type := mkClient {
  timeout : Z;
  retryAttempts : nat;
  retryDelay : Z
}.

(** The values the constructor assigns. *)
Definition APIClient : client := mkClient 30000 3 1000.

(** A JavaScript error object: its [name] and [message]. *)
Record error : Type := mkError {
  name : string;
  message : string
}.

(** [new Error(message)] *)
Definition Error (m : string) : error := mkError "Error" m.

(** [s.includes(sub)] *)
Fixpoint includes (sub s : string) : bool :=
  String.prefix sub s ||
  match s with
  | EmptyString => false
  | String _ rest => includes sub rest
  end.

(** [shouldRetry(error)] *)
Definition shouldRetry (e : error) : bool :=
  includes "fetch" (message e) ||
  includes "timeout" (message e) ||
  includes "500" (message e) ||
  includes "502" (message e) ||
  includes "503" (message e) ||
  includes "504" (message e).

(** What one [fetch] of the loop meets: a response with [ok] set and its
    parsed body; a response without [ok], with the [error] field of its body
    when it has one, its status and status text; or an exception thrown by
    [fetch] or by the parsing of the body. *)
Inductive outcome (A : Type) : Type :=
| Ok (data : A)
| NotOk (body_error : option string) (status : Z) (statusText : string)
| Rejected (e : error).
Arguments Ok {A} data.
Arguments NotOk {A} body_error status statusText.
Arguments Rejected {A} e.

(** [errorData.error || `HTTP ${response.status}: ${response.statusText}`]:
    an absent or empty [error] field is falsy. *)
Definition http_message (body_error : option string) (status : Z)
    (statusText : string) : string :=
  match body_error with
  | Some m => if String.eqb m "" then "HTTP " ++ decimal status ++ ": " ++ statusText else m
  | None => "HTTP " ++ decimal status ++ ": " ++ statusText
  end.

(** The body of the [try] block: the data it returns or the error it
    throws. *)
Definition attempt_once {A : Type} (o : outcome A) : A + error :=
  match o with
  | Ok data => inl data
  | NotOk body_error status statusText =>
      inr (Error (http_message body_error status statusText))
  | Rejected e => inr e
  end.

(** How a call of [request] ends; [ThrowUndefined] is [throw lastError]
    with no error recorded. *)
Inductive result (A : Type) : Type :=
| Return (data : A)
| Throw (e : error)
| ThrowUndefined.
Arguments Return {A} data.
Arguments Throw {A} e.
Arguments ThrowUndefined {A}.

(** A call of [request] as seen from outside: the number of [fetch] calls,
    the delays waited between them, and the result. *)
Record trace (A : Type) : Type := mkTrace {
  fetches : nat;
  delays : list Z;
  outcome_of : result A
}.
Arguments mkTrace {A} fetches delays outcome_of.
Arguments fetches {A} t.
Arguments delays {A} t.
Arguments outcome_of {A} t.

Definition after_retry {A : Type} (delay : Z) (t : trace A) : trace A :=
  mkTrace (S (fetches t)) (delay :: delays t) (outcome_of t).

(** The [for] loop of [request]: [remaining] counts the values of [attempt]
    still to run, from [attempt] to [retryAttempts]; [host k] is what the
    [k]-th fetch meets. *)
Fixpoint request_loop {A : Type} (c : client) (host : nat -> outcome A)
    (remaining attempt : nat) (lastError : option error) : trace A :=
  match remaining with
  | O => mkTrace 0 [] (match lastError with Some e => Throw e | None => ThrowUndefined end)
  | S remaining' =>
      match attempt_once (host attempt) with
      | inl data => mkTrace 1 [] (Return data)
      | inr e =>
          if String.eqb (name e) "AbortError" then
            mkTrace 1 [] (Throw (Error "Request timeout"))
          else if (attempt <? retryAttempts c)%nat && shouldRetry e then
            after_retry (retryDelay c * Z.of_nat attempt)
              (request_loop c host remaining' (S attempt) (Some e))
          else mkTrace 1 [] (Throw e)
      end
  end.

(** [request(endpoint, options)] *)
Definition request {A : Type} (c : client) (host : nat -> outcome A) : trace A :=
  request_loop c host (retryAttempts c) 1 None.

(** The delays waited after attempts [a .. a+k-1]. *)
Definition waits (c : client) (a k : nat) : list Z :=
  map (fun j => (retryDelay c * Z.of_nat j)%Z) (seq a k).

(** An attempt that fails and is followed by another one. *)
Definition retried {A : Type} (o : outcome A) : Prop :=
  match attempt_once o with
  | inl _ => False
  | inr e => name e <> "AbortError" /\ shouldRetry e = true
  end.

(** The file object [validateImage] receives. *)
Record file : Type := mkFile {
  file_type : string;
  file_size : Z;
  file_name : string
}.

(** What reading and decoding the file gives. *)
Inductive decoding : Type :=
| ReadFailed
| DecodeFailed
| Decoded (dataUrl : string) (width height : Z).

(** The object [validateImage] resolves with. *)
Record image : Type := mkImage {
  dataUrl : string;
  width : Z;
  height : Z;
  size : Z;
  type : string;
  image_name : string
}.

(** [validateImage(file)]: the value the promise resolves with, or the
    message of the error it rejects with. *)
Definition validateImage (f : option file) (d : decoding) : image + string :=
  match f with
  | None => inr "No file provided"
  | Some f =>
      if negb (String.prefix "image/" (file_type f)) then inr "File must be an image"
      else if (10 * 1024 * 1024 <? file_size f)%Z then inr "Image file too large (max 10MB)"
      else
        match d with
        | ReadFailed => inr "Failed to read image file"
        | DecodeFailed => inr "Invalid or corrupted image file"
        | Decoded url w h =>
            if (w <? 100)%Z || (h <? 100)%Z then
              inr "Image too small (minimum 100x100 pixels)"
            else if (4096 <? w)%Z || (4096 <? h)%Z then
              inr "Image too large (maximum 4096x4096 pixels)"
            else inl (mkImage url w h (file_size f) (file_type f) (file_name f))
        end
  end%string.

End API.

(** ** Scene objects and the drawn arm *)

Module Scene.

Import Projector.
Local Open Scope R_scope.

(** A JavaScript number over the reals: [NaN] or a real. *)
Inductive num : Type :=
| NaN
| Re (r : R).

Definition lift2 (f : R -> R -> R) (a b : num) : num :=
  match a, b with
  | Re x, Re y => Re (f x y)
  | _, _ => NaN
  end.

Definition add : num -> num -> num := lift2 Rplus.
Definition sub : num -> num -> num := lift2 Rminus.
Definition mul : num -> num -> num := lift2 Rmult.

(** The number read from a property that may be absent: [undefined]
    converts to [NaN]. *)
Definition to_number (v : option num) : num :=
  match v with
  | Some n => n
  | None => NaN
  end.

(** What [project3D] returns: an object with [x] and [y] only. *)
Record point2 : Type := mkPoint2 {
  px : num;
  py : num
}.

(** An object whose [x], [y] and [z] are read as a position; [z] may be
    absent. *)
Record position : Type := mkPosition {
  pos_x : num;
  pos_y : num;
  pos_z : option num
}.

(** [{ x, y, z }] with three numbers. *)
Definition at_coords (x y z : R) : position :=
  mkPosition (Re x) (Re y) (Some (Re z)).

(** A projected point passed where a position is read: it has no [z]. *)
Definition as_position (p : point2) : position :=
  mkPosition (px p) (py p) None.

(** [project3D(x, y, z)] on JavaScript numbers. *)
Definition project3D (cam : camera) (x y z : num) : point2 :=
  mkPoint2
    (add (Re (centerX cam))
         (mul (mul (sub x y) (Re (cos (PI / 6)))) (Re (scale cam))))
    (sub (sub (Re (centerY cam))
              (mul (mul (add x y) (Re (sin (PI / 6)))) (Re (scale cam))))
         (mul z (Re (scale cam)))).

(** The [vertices] array of [drawCube(pos, size, color)]. *)
Definition drawCube_vertices (cam : camera) (pos : position) (size : R)
  : list point2 :=
  let half := Re (size / 2) in
  let x := pos_x pos in
  let y := pos_y pos in
  let z := to_number (pos_z pos) in
  [ project3D cam (sub x half) (sub y half) (sub z half);
    project3D cam (add x half) (sub y half) (sub z half);
    project3D cam (add x half) (add y half) (sub z half);
    project3D cam (sub x half) (add y half) (sub z half);
    project3D cam (sub x half) (sub y half) (add z half);
    project3D cam (add x half) (sub y half) (add z half);
    project3D cam (add x half) (add y half) (add z half);
    project3D cam (sub x half) (add y half) (add z half) ].

(** [topPos] of [drawCylinder(pos, radius, height, color)]. *)
Definition drawCylinder_top (cam : camera) (pos : position) (height : R)
  : point2 :=
  project3D cam (pos_x pos) (pos_y pos) (add (to_number (pos_z pos)) (Re height)).

(** The position [drawObjects] hands to [drawCube], [drawSphere] and
    [drawCylinder] for the object at [(x, y, z)]. *)
Definition drawObjects_pos (cam : camera) (x y z : R) : position :=
  as_position (project3D cam (Re x) (Re y) (Re z)).

End Scene.

Module Arm.

Local Open Scope R_scope.

(** A point of the workspace. *)
Record point3 : Type := mkPoint3 {
  x3 : R;
  y3 : R;
  z3 : R
}.

(** [Math.atan2(y, x)] on reals. *)
Definition atan2 (y x : R) : R :=
  if Rlt_dec 0 x then atan (y / x)
  else if Rlt_dec x 0 then
    if Rle_dec 0 y then atan (y / x) + PI else atan (y / x) - PI
  else if Rlt_dec 0 y then PI / 2
  else if Rlt_dec y 0 then - (PI / 2)
  else 0.

Definition armLength1 : R := 80.
Definition armLength2 : R := 60.
Definition armLength3 : R := 40.

(** The angles and joint positions [drawRobotArm] computes. *)
Record pose : Type := mkPose {
  angle1 : R;
  angle2 : R;
  angle3 : R;
  joint1_3d : point3;
  joint2_3d : point3;
  endEffector_3d : point3
}.

(** The computation of [drawRobotArm] from [this.currentPosition]. *)
Definition drawRobotArm (currentPosition : point3) : pose :=
  let distance := sqrt (x3 currentPosition ^ 2 + y3 currentPosition ^ 2) in
  let angle1 := atan2 (y3 currentPosition) (x3 currentPosition) in
  let angle2 := atan2 (z3 currentPosition) distance * (5 / 10) in
  let angle3 := angle2 * (3 / 10) in
  let joint1_3d :=
    mkPoint3 (armLength1 * cos angle1) (armLength1 * sin angle1) 20 in
  let joint2_3d :=
    mkPoint3 (x3 joint1_3d + armLength2 * cos (angle1 + angle2))
             (y3 joint1_3d + armLength2 * sin (angle1 + angle2))
             (z3 joint1_3d + armLength2 * sin angle2) in
  let endEffector_3d :=
    mkPoint3 (x3 joint2_3d + armLength3 * cos (angle1 + angle2 + angle3))
             (y3 joint2_3d + armLength3 * sin (angle1 + angle2 + angle3))
             (z3 joint2_3d + armLength3 * sin angle3) in
  mkPose angle1 angle2 angle3 joint1_3d joint2_3d endEffector_3d.

(** The position stretched by a factor. *)
Definition stretch (k : R) (p : point3) : point3 :=
  mkPoint3 (k * x3 p) (k * y3 p) (k * z3 p).

End Arm.

(** ** Exceptions raised while drawing *)

Module Draw.

Import Scene.
Local Open Scope R_scope.

(** An engine value as the renderer's arithmetic reads it: [undefined]
    converts to [NaN]. *)
Definition of_value (v : JS.value) : num :=
  match v with
  | JS.Fin q => Re (Q2R q)
  | _ => NaN
  end.

Definition lift1 (f : R -> R) (a : num) : num :=
  match a with
  | Re x => Re (f x)
  | NaN => NaN
  end.

(** [Math.sqrt], [Math.cos], [Math.sin], [Math.atan2] and [a ** 2]. *)
Definition msqrt : num -> num := lift1 sqrt.
Definition mcos : num -> num := lift1 cos.
Definition msin : num -> num := lift1 sin.
Definition matan2 : num -> num -> num := lift2 Arm.atan2.
Definition square : num -> num := lift1 (fun x => x ^ 2).

(** [drawRobotArm()]: the projected end effector, computed from
    [this.currentPosition]. *)
Definition endEffector (cam : Projector.camera) (x y z : num) : point2 :=
  let distance := msqrt (add (square x) (square y)) in
  let angle1 := matan2 y x in
  let angle2 := mul (matan2 z distance) (Re (5 / 10)) in
  let angle3 := mul angle2 (Re (3 / 10)) in
  let joint1_x := mul (Re Arm.armLength1) (mcos angle1) in
  let joint1_y := mul (Re Arm.armLength1) (msin angle1) in
  let joint1_z := Re 20 in
  let joint2_x := add joint1_x (mul (Re Arm.armLength2) (mcos (add angle1 angle2))) in
  let joint2_y := add joint1_y (mul (Re Arm.armLength2) (msin (add angle1 angle2))) in
  let joint2_z := add joint1_z (mul (Re Arm.armLength2) (msin angle2)) in
  let end_x :=
    add joint2_x (mul (Re Arm.armLength3) (mcos (add (add angle1 angle2) angle3))) in
  let end_y :=
    add joint2_y (mul (Re Arm.armLength3) (msin (add (add angle1 angle2) angle3))) in
  let end_z := add joint2_z (mul (Re Arm.armLength3) (msin angle3)) in
  project3D cam end_x end_y end_z.

(** The arguments [drawSphere(pos, radius, color)] hands to
    [ctx.createRadialGradient]. *)
Definition drawSphere_gradient (pos : point2) (radius : R) : list num :=
  [ sub (px pos) (Re (radius / 3)); sub (py pos) (Re (radius / 3)); Re 0;
    px pos; py pos; Re radius ].

Definition is_nan (a : num) : bool :=
  match a with
  | NaN => true
  | Re _ => false
  end.

(** [createRadialGradient] takes its six arguments as WebIDL [double]s: the
    call raises a [TypeError] when one of them is not a finite number.  The
    other canvas calls of the renderer ([moveTo], [lineTo], [arc],
    [ellipse], [fillRect], [fillText]) take unrestricted doubles and do
    nothing on such an argument. *)
Definition createRadialGradient_throws (args : list num) : bool :=
  existsb is_nan args.

(** The objects of the scene. *)
Inductive shape : Type := Cube | Sphere | Cylinder.

Record object : Type := mkObject {
  obj_x : R;
  obj_y : R;
  obj_z : R;
  obj_type : shape
}.

(** [this.objects], as the constructor sets it. *)
Definition objects : list object :=
  [ mkObject (-80) 60 15 Cube; mkObject 100 (-40) 20 Sphere;
    mkObject (-60) (-80) 10 Cylinder; mkObject 120 80 25 Cube ].

(** Whether [drawObjects()] raises: a sphere is drawn by [drawSphere] at
    the projected position of the object with radius 15. *)
Definition drawObjects_throws (cam : Projector.camera) (objs : list object) : bool :=
  existsb
    (fun o =>
       match obj_type o with
       | Sphere =>
           createRadialGradient_throws
             (drawSphere_gradient
                (project3D cam (Re (obj_x o)) (Re (obj_y o)) (Re (obj_z o))) 15)
       | _ => false
       end) objs.

(** Whether [drawRobotArm()] raises: the end effector is drawn by
    [drawSphere] with radius 8. *)
Definition drawRobotArm_throws (cam : Projector.camera) (p : Vec.t) : bool :=
  createRadialGradient_throws
    (drawSphere_gradient
       (endEffector cam (of_value (Vec.x p)) (of_value (Vec.y p)) (of_value (Vec.z p)))
       8).

(** Whether [draw()] raises in the engine state [e]. *)
Definition draw_throws (cam : Projector.camera) (e : engine) : bool :=
  drawObjects_throws cam objects || drawRobotArm_throws cam (currentPosition e).

(** Whether a call of [animate()] on [e] raises: it updates the pose and
    then calls [draw()]; when that raises, the update stays and
    [requestAnimationFrame] is not called again. *)
Definition animate_throws (cam : Projector.camera) (e : engine) : bool :=
  draw_throws cam (animate e).

End Draw.

(** ** The motion of [animate] in double precision *)

(** JavaScript numbers are IEEE 754 binary64 values; the kernel's primitive
    floats are the same values with the same correctly rounded operations.
    This module has the numeric part of the engine on them: the pose, the
    target and the rate while the engine is animating. *)
Module F64.

Import PrimFloat.
Local Open Scope float_scope.

(** An object literal [{ x, y, z }] of numbers. *)
Record vec : Type := mkVec { x : float; y : float; z : float }.

Definition origin : vec := mkVec 0 0 0.

(** [currentPosition], [targetPosition] and [animationSpeed]. *)
Record motion : Type := mkMotion {
  currentPosition : vec;
  targetPosition : vec;
  animationSpeed : float
}.

(** The constructor's values; the rate is the double nearest to 0.02. *)
Definition initial : motion := mkMotion origin origin (2 / 100).

(** [command.speed || 50] for a number: 0 and [NaN] are falsy. *)
Definition or_50 (speed : float) : float :=
  if (speed =? 0) || is_nan speed then 50 else speed.

(** [executeNextCommand()], case [move_to]. *)
Definition move_to (tx ty tz speed : float) (m : motion) : motion :=
  mkMotion (currentPosition m) (mkVec tx ty tz) (or_50 speed / 2500).

(** [distance] in [animate()]. *)
Definition distance (m : motion) : float :=
  let dx := x (targetPosition m) - x (currentPosition m) in
  let dy := y (targetPosition m) - y (currentPosition m) in
  let dz := z (targetPosition m) - z (currentPosition m) in
  sqrt (dx * dx + dy * dy + dz * dz).

(** The test [distance < 2]. *)
Definition arrives (m : motion) : bool := distance m <? 2.

(** [animate()] while [isAnimating] holds: the interpolation, and the snap
    when the test succeeds. *)
Definition animate (m : motion) : motion :=
  let dx := x (targetPosition m) - x (currentPosition m) in
  let dy := y (targetPosition m) - y (currentPosition m) in
  let dz := z (targetPosition m) - z (currentPosition m) in
  let moved :=
    mkVec (x (currentPosition m) + dx * animationSpeed m)
          (y (currentPosition m) + dy * animationSpeed m)
          (z (currentPosition m) + dz * animationSpeed m) in
  if arrives m then mkMotion (targetPosition m) (targetPosition m) (animationSpeed m)
  else mkMotion moved (targetPosition m) (animationSpeed m).

Definition ticks (n : nat) (m : motion) : motion := Nat.iter n animate m.

(** No tick among the first [n] finds the arm arrived. *)
Definition never_arrives_before (n : nat) (m : motion) : bool :=
  forallb (fun k => negb (arrives (ticks k m))) (seq 0 n).

End F64.

(** ** The motion of [animate] in rounded arithmetic *)

(** The same numeric part of the engine over the reals, with every
    operation followed by a rounding [rnd], in order to reason about all
    inputs at once.  What is assumed of [rnd] is the standard model of
    floating-point arithmetic ([standard] below).  Rounding to the nearest
    binary64 value ([binary64] below) satisfies it with [u = 2^-53] and
    [eta = 2^-1075]; exact arithmetic is the case [rnd a = a], [u = 0],
    [eta = 0]. *)
Module Rounded.

Local Open Scope R_scope.

(** An object literal [{ x, y, z }] of numbers. *)
Record vec : Type := mkVec { x : R; y : R; z : R }.

(** [currentPosition], [targetPosition] and [animationSpeed]. *)
Record motion : Type := mkMotion {
  currentPosition : vec;
  targetPosition : vec;
  animationSpeed : R
}.

Section Arithmetic.

Variable rnd : R -> R.

Definition add (a b : R) : R := rnd (a + b).
Definition sub (a b : R) : R := rnd (a - b).
Definition mul (a b : R) : R := rnd (a * b).
Definition div (a b : R) : R := rnd (a / b).
Definition root (a : R) : R := rnd (sqrt a).

(** [command.speed || 50]; [None] is a missing speed. *)
Definition or_50 (speed : option R) : R :=
  match speed with
  | Some s => if Req_dec_T s 0 then 50 else s
  | None => 50
  end.

(** [executeNextCommand()], case [move_to]. *)
Definition move_to (tx ty tz : R) (speed : option R) (m : motion) : motion :=
  mkMotion (currentPosition m) (mkVec tx ty tz) (div (or_50 speed) 2500).

(** One coordinate of the interpolation:
    [current += (target - current) * animationSpeed]. *)
Definition step (rate target current : R) : R :=
  add current (mul (sub target current) rate).

(** [distance] in [animate()]. *)
Definition distance (m : motion) : R :=
  let dx := sub (x (targetPosition m)) (x (currentPosition m)) in
  let dy := sub (y (targetPosition m)) (y (currentPosition m)) in
  let dz := sub (z (targetPosition m)) (z (currentPosition m)) in
  root (add (add (mul dx dx) (mul dy dy)) (mul dz dz)).

(** The test [distance < 2]. *)
Definition arrives (m : motion) : bool :=
  if Rlt_dec (distance m) 2 then true else false.

(** [animate()] while [isAnimating] holds: the interpolation, and the snap
    when the test succeeds. *)
Definition animate (m : motion) : motion :=
  let moved :=
    mkVec (step (animationSpeed m) (x (targetPosition m)) (x (currentPosition m)))
          (step (animationSpeed m) (y (targetPosition m)) (y (currentPosition m)))
          (step (animationSpeed m) (z (targetPosition m)) (z (currentPosition m))) in
  if arrives m then mkMotion (targetPosition m) (targetPosition m) (animationSpeed m)
  else mkMotion moved (targetPosition m) (animationSpeed m).

Definition ticks (n : nat) (m : motion) : motion := Nat.iter n animate m.

End Arithmetic.

(** The length of a vector, and the exact distance from the current
    position to the target. *)
Definition norm (a b c : R) : R := sqrt (a * a + b * b + c * c).

Definition remaining (m : motion) : R :=
  norm (x (targetPosition m) - x (currentPosition m))
       (y (targetPosition m) - y (currentPosition m))
       (z (targetPosition m) - z (currentPosition m)).

(** The standard model of rounded arithmetic: up to the magnitude [omega]
    a rounding changes a value by at most the fraction [u] of it plus
    [eta]; rounding keeps the order and leaves 0 as it is. *)
Record standard (rnd : R -> R) (u eta omega : R) : Prop := mkStandard {
  rounding_error :
    forall a : R, Rabs a <= omega -> Rabs (rnd a - a) <= u * Rabs a + eta;
  rounding_monotone : forall a b : R, a <= b -> rnd a <= rnd b;
  rounding_zero : rnd 0 = 0
}.

(** A move is within the precision of the arithmetic when the coordinates
    of the target and the distance to it are at most [size], and the rounding
    errors at that size are small against the share [1 - |1 - rate|] of the
    distance that a tick removes. *)
Record within_precision (u eta omega size : R) (m : motion) : Prop :=
  mkWithinPrecision {
  precision_u : 0 <= u <= 1 / 64;
  precision_eta : 0 <= eta <= 1 / 64;
  precision_size : 1 <= size;
  precision_omega : 16 * size * size <= omega;
  precision_target :
    Rabs (x (targetPosition m)) <= size /\
    Rabs (y (targetPosition m)) <= size /\
    Rabs (z (targetPosition m)) <= size;
  precision_distance : remaining m <= size;
  precision_rate : Rabs (1 - animationSpeed m) + 27 * (u * size + eta) < 1
}.

(** The states of a move with the given target and rate: the target and
    the rate are the command's, and the arm is no further from the target
    than [size]. *)
Definition on_the_way (size : R) (target : vec) (rate : R) (m : motion) : Prop :=
  targetPosition m = target /\ animationSpeed m = rate /\ remaining m <= size.

(** The factor by which a tick that does not arrive shortens the distance. *)
Definition shrink (u eta size rate : R) : R :=
  Rabs (1 - rate) + 27 * (u * size + eta).

(** *** The rounding of JavaScript numbers *)

(** The integer nearest to [t], the even one of the two when [t] lies half
    way between them. *)
Definition nearest_even (t : R) : Z :=
  let f := Int_part t in
  if Rlt_dec (t - IZR f) (1 / 2) then f
  else if Rlt_dec (1 / 2) (t - IZR f) then (f + 1)%Z
  else if Z.even f then f else (f + 1)%Z.

(** The exponent of the last place of the binary64 values around a positive
    [a]: significands have 53 bits, and below [2^-1022] the spacing stays
    [2^-1074] (subnormal numbers). *)
Definition exponent (a : R) : Z := Z.max (Int_part (ln a / ln 2) - 52) (- 1074).

(** [a] is at least [2^-1022]. *)
Definition normal_range (a : R) : Prop := (- 1074 <= Int_part (ln a / ln 2) - 52)%Z.

Definition round_positive (a : R) : R :=
  IZR (nearest_even (a * powerRZ 2 (- exponent a))) * powerRZ 2 (exponent a).

(** Round to nearest, ties to even, onto the binary64 values: the rounding
    of IEEE 754 for every real whose rounding is finite (the reals have no
    infinity: above the largest double [binary64] keeps rounding to 53
    bits). *)
Definition binary64 (a : R) : R :=
  if Rlt_dec 0 a then round_positive a
  else if Rlt_dec a 0 then - round_positive (- a)
  else 0.

(** The constants of the standard model for [binary64]. *)
Definition binary64_u : R := / 9007199254740992.
Definition binary64_eta : R := powerRZ 2 (- 1075).
Definition binary64_omega : R := powerRZ 2 1023.

End Rounded.

(** The pose, the target and the rate of an engine, as reals. *)
Definition real_vec (p : Vec.t) : Rounded.vec :=
  Rounded.mkVec (Q2R (Vec.coord (Vec.x p))) (Q2R (Vec.coord (Vec.y p)))
                (Q2R (Vec.coord (Vec.z p))).

Definition real_motion (e : engine) : Rounded.motion :=
  Rounded.mkMotion (real_vec (currentPosition e)) (real_vec (targetPosition e))
                   (Q2R (Vec.coord (animationSpeed e))).

(** The speed of a command, when it is a number. *)
Definition real_speed (v : JS.value) : option R :=
  match v with
  | JS.Fin q => Some (Q2R q)
  | _ => None
  end.

(** ** Cursor and queue: what each method does to them *)

Section Cursor.

Implicit Type e : engine.

Lemma executeNextCommand_cursor e :
  currentCommandIndex (executeNextCommand e) = currentCommandIndex e.
Proof.
  unfold executeNextCommand, completeExecution.
  repeat case_match; reflexivity.
Qed.

Lemma executeNextCommand_queue e :
  commandQueue (executeNextCommand e) = commandQueue e.
Proof.
  unfold executeNextCommand, completeExecution.
  repeat case_match; reflexivity.
Qed.

Lemma completeCurrentCommand_cursor e :
  currentCommandIndex (completeCurrentCommand e) =
  if (currentCommandIndex e <? length (commandQueue e))%nat
  then S (currentCommandIndex e) else currentCommandIndex e.
Proof.
  unfold completeCurrentCommand. case_match; reflexivity.
Qed.

Lemma completeCurrentCommand_queue_length e :
  length (commandQueue (completeCurrentCommand e)) = length (commandQueue e).
Proof.
  unfold completeCurrentCommand. case_match; simpl; [apply length_alter | reflexivity].
Qed.

(** A tick either leaves the cursor alone or completes the active command. *)
Lemma animate_cursor e :
  currentCommandIndex (animate e) = currentCommandIndex e \/
  currentCommandIndex (animate e) =
    currentCommandIndex
      (completeCurrentCommand
         (set_currentPosition (targetPosition e) e)).
Proof.
  unfold animate. destruct (isAnimating e); [|left; reflexivity].
  case_match; [right | left]; [|reflexivity].
  change (currentCommandIndex (set_position ?v ?x)) with (currentCommandIndex x).
  rewrite !completeCurrentCommand_cursor. reflexivity.
Qed.

Lemma animate_queue_length e :
  length (commandQueue (animate e)) = length (commandQueue e).
Proof.
  unfold animate. destruct (isAnimating e); [|reflexivity].
  case_match; [|reflexivity].
  change (commandQueue (set_position ?v ?x)) with (commandQueue x).
  rewrite completeCurrentCommand_queue_length. reflexivity.
Qed.

Lemma animate_cursor_le e :
  (currentCommandIndex e <= currentCommandIndex (animate e))%nat.
Proof.
  destruct (animate_cursor e) as [-> | ->]; [lia|].
  rewrite completeCurrentCommand_cursor. simpl. case_match; lia.
Qed.

Lemma run_callback_cursor_le cb e :
  (currentCommandIndex e <= currentCommandIndex (run_callback cb e))%nat.
Proof.
  destruct cb; cbn [run_callback].
  - rewrite completeCurrentCommand_cursor. case_match; lia.
  - rewrite executeNextCommand_cursor. lia.
Qed.

Lemma completeCurrentCommand_in_bounds e :
  cursor_in_bounds e -> cursor_in_bounds (completeCurrentCommand e).
Proof.
  unfold cursor_in_bounds.
  rewrite completeCurrentCommand_cursor, completeCurrentCommand_queue_length.
  intros H. case_match eqn:E; [apply Nat.ltb_lt in E; lia | exact H].
Qed.

Lemma executeNextCommand_in_bounds e :
  cursor_in_bounds e -> cursor_in_bounds (executeNextCommand e).
Proof.
  unfold cursor_in_bounds.
  rewrite executeNextCommand_cursor, executeNextCommand_queue. tauto.
Qed.

Lemma animate_in_bounds e :
  cursor_in_bounds e -> cursor_in_bounds (animate e).
Proof.
  intros H. unfold cursor_in_bounds. rewrite animate_queue_length.
  destruct (animate_cursor e) as [-> | ->]; [exact H|].
  apply (completeCurrentCommand_in_bounds (set_currentPosition (targetPosition e) e)) in H.
  unfold cursor_in_bounds in H.
  rewrite completeCurrentCommand_queue_length in H. exact H.
Qed.

Lemma step_in_bounds ev e :
  cursor_in_bounds e -> cursor_in_bounds (step ev e).
Proof.
  intros H. destruct ev; cbn [step].
  - apply animate_in_bounds, H.
  - destruct (timers e !! k) as [[d cb]|]; [|exact H].
    destruct cb; cbn [run_callback].
    + apply completeCurrentCommand_in_bounds, H.
    + apply executeNextCommand_in_bounds, H.
  - unfold cursor_in_bounds, loadCommands. simpl. lia.
  - unfold startExecution. case_match; [exact H|].
    apply executeNextCommand_in_bounds. unfold cursor_in_bounds. simpl. lia.
  - exact H.
  - apply executeNextCommand_in_bounds, H.
  - exact H.
Qed.

Lemma run_in_bounds evs e :
  cursor_in_bounds e -> cursor_in_bounds (run evs e).
Proof.
  revert e. induction evs as [|ev evs IH]; intros e H; simpl; [exact H|].
  apply IH, step_in_bounds, H.
Qed.

End Cursor.

(** ** Pause flag *)

Section PauseFlag.

Implicit Type e : engine.






End PauseFlag.

(** ** Claims about the cursor, the pause flag and stop *)

(** C10: in every state reachable from the constructor's state by frames,
    timer callbacks and public methods, [getState] reports a
    [currentCommandIndex] no larger than [totalCommands];
    [completeCurrentCommand] advances the cursor by one when it is strictly
    below the queue length and leaves it alone otherwise. *)
Theorem cursor_never_exceeds_queue :
  (forall evs : list event,
     (snap_currentCommandIndex (getState (run evs initial)) <=
      snap_totalCommands (getState (run evs initial)))%nat) /\
  (forall e : engine,
     currentCommandIndex (completeCurrentCommand e) =
     if (currentCommandIndex e <? length (commandQueue e))%nat
     then S (currentCommandIndex e) else currentCommandIndex e).
Proof.
  split.
  - intros evs. apply (run_in_bounds evs initial). unfold cursor_in_bounds. simpl. lia.
  - apply completeCurrentCommand_cursor.
Qed.

(** C5, as the code has it: frames and timer callbacks never decrease
    [currentCommandIndex]; [pauseExecution], [resumeExecution] and
    [stopExecution] leave it as it is; [loadCommands] sets it to 0, and so
    does [startExecution] unless the queue is empty. *)
Theorem cursor_monotone_reset_by_load_and_start (ev : event) (e : engine) :
  match ev with
  | Frame | Timeout _ =>
      (currentCommandIndex e <= currentCommandIndex (step ev e))%nat
  | PauseExecution | ResumeExecution | StopExecution =>
      currentCommandIndex (step ev e) = currentCommandIndex e
  | LoadCommands _ => currentCommandIndex (step ev e) = 0%nat
  | StartExecution =>
      currentCommandIndex (step ev e) =
      if (length (commandQueue e) =? 0)%nat then currentCommandIndex e else 0%nat
  end.
Proof.
  destruct ev; cbn [step].
  - apply animate_cursor_le.
  - destruct (timers e !! k) as [[d cb]|]; [|lia].
    apply (run_callback_cursor_le cb (set_timers (delete k (timers e)) e)).
  - reflexivity.
  - unfold startExecution. case_match; [reflexivity|].
    rewrite executeNextCommand_cursor. reflexivity.
  - reflexivity.
  - unfold resumeExecution. rewrite executeNextCommand_cursor. reflexivity.
  - reflexivity.
Qed.

(** C5 fails as stated: after one gripper command has completed the cursor is
    1; [stopExecution] leaves it at 1, while [startExecution] puts it back
    to 0. *)
Lemma stop_keeps_cursor_start_resets :
  let e := run [LoadCommands [openGripper; closeGripper]; StartExecution; Timeout 0] initial in
  currentCommandIndex e = 1%nat /\
  currentCommandIndex (stopExecution e) = 1%nat /\
  currentCommandIndex (startExecution e) = 0%nat.
Proof. vm_compute. repeat split. Qed.




(** C3, as the code has it: [stopExecution] resets [currentPosition] and
    [targetPosition] to the origin, opens the gripper and clears both flags;
    [getState] still reports the [position] copied at the last frame, which
    becomes the origin at the next frame. *)
Theorem stopExecution_resets_pose_at_next_frame (e : engine) :
  currentPosition (stopExecution e) = Vec.origin /\
  targetPosition (stopExecution e) = Vec.origin /\
  snap_gripperOpen (getState (stopExecution e)) = true /\
  snap_isAnimating (getState (stopExecution e)) = false /\
  snap_isPaused (getState (stopExecution e)) = false /\
  snap_position (getState (stopExecution e)) = position e /\
  snap_position (getState (animate (stopExecution e))) = Vec.origin.
Proof. repeat split. Qed.

(** C3 fails as stated: stopping after the first frame of a move leaves the
    position of that frame in [getState]. *)
Lemma stop_reports_stale_position :
  let e := run [LoadCommands [moveTo 10 0 0 (JS.Fin 50)]; StartExecution; Frame;
                StopExecution] initial in
  snap_position (getState e) = Vec.mk (JS.Fin (1 # 5)) (JS.Fin 0) (JS.Fin 0) /\
  snap_position (getState e) <> Vec.origin.
Proof. vm_compute. split; [reflexivity | discriminate]. Qed.

(** ** Motion: one tick of interpolation *)

Section Motion.

Implicit Type e : engine.
Local Open Scope Q_scope.

Lemma Q2R_4 : Q2R 4 = 4%R.
Proof. unfold Q2R; simpl; lra. Qed.

Lemma Q2R_0 : Q2R 0 = 0%R.
Proof. unfold Q2R; simpl; lra. Qed.

Lemma sqrt_4 : sqrt 4 = 2%R.
Proof. replace 4%R with (2 * 2)%R by lra. apply sqrt_square. lra. Qed.

(** The comparison [Math.sqrt(s) < 2] of the source against its rational
    model. *)
Lemma sqrt_lt_2_spec (s : Q) :
  JS.sqrt_lt_2 (JS.Fin s) = true <-> (0 <= Q2R s /\ sqrt (Q2R s) < 2)%R.
Proof.
  unfold JS.sqrt_lt_2.
  destruct (Qlt_le_dec s 0) as [Hn | Hp].
  - split; [discriminate|]. intros [H _]. apply Qlt_Rlt in Hn. rewrite Q2R_0 in Hn. lra.
  - apply Qle_Rle in Hp. rewrite Q2R_0 in Hp.
    destruct (Qlt_le_dec s 4) as [Hl | Hg].
    + split; [|reflexivity]. intros _. split; [exact Hp|].
      apply Qlt_Rlt in Hl. rewrite Q2R_4 in Hl.
      rewrite <- sqrt_4. apply sqrt_lt_1_alt. lra.
    + split; [discriminate|]. intros [_ H]. exfalso.
      apply Qle_Rle in Hg. rewrite Q2R_4 in Hg.
      assert (sqrt 4 <= sqrt (Q2R s))%R by (apply sqrt_le_1_alt; exact Hg).
      rewrite sqrt_4 in *. lra.
Qed.

Lemma Qsquare_nonneg (q : Q) : 0 <= q * q.
Proof. nra. Qed.

Lemma dist2_nonneg (a b : Vec.t) : 0 <= Vec.dist2 a b.
Proof.
  unfold Vec.dist2.
  pose proof (Qsquare_nonneg (Vec.coord (Vec.x b) - Vec.coord (Vec.x a))).
  pose proof (Qsquare_nonneg (Vec.coord (Vec.y b) - Vec.coord (Vec.y a))).
  pose proof (Qsquare_nonneg (Vec.coord (Vec.z b) - Vec.coord (Vec.z a))).
  lra.
Qed.

Lemma remaining2_nonneg e : 0 <= remaining2 e.
Proof. apply dist2_nonneg. Qed.

Lemma completeCurrentCommand_pose e :
  currentPosition (completeCurrentCommand e) = currentPosition e /\
  targetPosition (completeCurrentCommand e) = targetPosition e /\
  isAnimating (completeCurrentCommand e) = isAnimating e /\
  animationSpeed (completeCurrentCommand e) = animationSpeed e.
Proof. unfold completeCurrentCommand. case_match; repeat split. Qed.

Lemma animate_targetPosition e : targetPosition (animate e) = targetPosition e.
Proof.
  destruct e. unfold animate, completeCurrentCommand. simpl.
  repeat case_match; reflexivity.
Qed.

Lemma animate_animationSpeed e : animationSpeed (animate e) = animationSpeed e.
Proof.
  destruct e. unfold animate, completeCurrentCommand. simpl.
  repeat case_match; reflexivity.
Qed.

Lemma animate_isAnimating e : isAnimating (animate e) = isAnimating e.
Proof.
  destruct e. unfold animate, completeCurrentCommand. simpl.
  repeat case_match; reflexivity.
Qed.

(** The squared distance the tick compares with the threshold is the one
    between the poses before the tick. *)
Lemma sumsq_dist2 (cx cy cz tx ty tz : Q) :
  exists s : Q,
    sumsq (JS.sub (JS.Fin tx) (JS.Fin cx)) (JS.sub (JS.Fin ty) (JS.Fin cy))
          (JS.sub (JS.Fin tz) (JS.Fin cz)) = JS.Fin s /\
    s == Vec.dist2 (Vec.mk (JS.Fin cx) (JS.Fin cy) (JS.Fin cz))
                   (Vec.mk (JS.Fin tx) (JS.Fin ty) (JS.Fin tz)).
Proof.
  eexists. split; [reflexivity|].
  unfold Vec.dist2, Vec.coord, Vec.x, Vec.y, Vec.z.
  rewrite !Qred_correct. ring.
Qed.

(** The threshold test of a tick, read on the distance still to go. *)
Lemma threshold_test (rate : Q) e :
  moving rate e ->
  JS.sqrt_lt_2
    (sumsq (JS.sub (Vec.x (targetPosition e)) (Vec.x (currentPosition e)))
           (JS.sub (Vec.y (targetPosition e)) (Vec.y (currentPosition e)))
           (JS.sub (Vec.z (targetPosition e)) (Vec.z (currentPosition e)))) =
  if Qlt_le_dec (remaining2 e) 4 then true else false.
Proof.
  intros [_ Hc Ht _]. unfold remaining2.
  destruct (targetPosition e) as [[| |tx] [| |ty] [| |tz]]; try contradiction.
  destruct (currentPosition e) as [[| |cx] [| |cy] [| |cz]]; try contradiction.
  pose proof (dist2_nonneg (Vec.mk (JS.Fin cx) (JS.Fin cy) (JS.Fin cz))
                           (Vec.mk (JS.Fin tx) (JS.Fin ty) (JS.Fin tz))) as Hnn.
  destruct (sumsq_dist2 cx cy cz tx ty tz) as (d & Hd & Hdq).
  unfold Vec.x, Vec.y, Vec.z. rewrite Hd.
  rewrite <- Hdq in Hnn. unfold JS.sqrt_lt_2.
  destruct (Qlt_le_dec d 0) as [Hneg | _]; [lra|].
  destruct (Qlt_le_dec d 4) as [Hlt | Hge];
    destruct (Qlt_le_dec _ 4) as [Hlt' | Hge']; try reflexivity;
    rewrite <- Hdq in *; lra.
Qed.

(** The two ways a tick of a moving engine can go. *)
Lemma animate_cases (rate : Q) e :
  moving rate e ->
  (remaining2 e < 4 /\
   animate e =
   set_position (targetPosition e)
     (completeCurrentCommand
        (set_currentPosition (targetPosition e)
           (set_currentPosition (interpolated e) e)))) \/
  (4 <= remaining2 e /\
   animate e =
   set_position (interpolated e) (set_currentPosition (interpolated e) e)).
Proof.
  intros Hm. pose proof (threshold_test rate e Hm) as Ht.
  destruct Hm as [Ha _ _ _].
  unfold animate. rewrite Ha, Ht.
  destruct (Qlt_le_dec (remaining2 e) 4) as [Hlt | Hge]; [left | right];
    (split; [assumption|]).
  - f_equal. unfold completeCurrentCommand. case_match; reflexivity.
  - reflexivity.
Qed.

(** Interpolation scales every gap by [1 - rate]. *)
Lemma interpolated_dist2 (rate : Q) e :
  moving rate e ->
  Vec.dist2 (interpolated e) (targetPosition e) ==
  (1 - rate) * (1 - rate) * remaining2 e.
Proof.
  intros [_ Hc Ht Hr]. unfold remaining2, interpolated. rewrite Hr.
  destruct (targetPosition e) as [[| |tx] [| |ty] [| |tz]]; try contradiction.
  destruct (currentPosition e) as [[| |cx] [| |cy] [| |cz]]; try contradiction.
  unfold JS.add, JS.mul, JS.sub, Vec.dist2, Vec.coord, Vec.x, Vec.y, Vec.z.
  rewrite !Qred_correct. ring.
Qed.

Lemma interpolated_finite (rate : Q) e :
  moving rate e -> Vec.finite (interpolated e).
Proof.
  intros [_ Hc Ht Hr]. unfold interpolated. rewrite Hr.
  destruct (targetPosition e) as [[| |tx] [| |ty] [| |tz]]; try contradiction.
  destruct (currentPosition e) as [[| |cx] [| |cy] [| |cz]]; try contradiction.
  exact I.
Qed.

(** What one tick does to a moving engine: below the threshold it snaps to
    the target, otherwise every coordinate closes the fraction [rate] of
    its gap. *)
Lemma animate_moving (rate : Q) e :
  moving rate e ->
  moving rate (animate e) /\
  (remaining2 e < 4 -> currentPosition (animate e) = targetPosition e) /\
  (4 <= remaining2 e ->
   remaining2 (animate e) == (1 - rate) * (1 - rate) * remaining2 e).
Proof.
  intros Hm.
  pose proof (interpolated_dist2 rate e Hm) as Hd.
  pose proof (interpolated_finite rate e Hm) as Hf.
  destruct (animate_cases rate e Hm) as [[Hlt ->] | [Hge ->]];
    destruct Hm as [Ha Hc Ht Hr].
  - split; [|split].
    + destruct (completeCurrentCommand_pose
                  (set_currentPosition (targetPosition e)
                     (set_currentPosition (interpolated e) e)))
        as (H1 & H2 & H3 & H4).
      constructor.
      * change (isAnimating (set_position ?v ?x)) with (isAnimating x).
        rewrite H3. exact Ha.
      * change (currentPosition (set_position ?v ?x)) with (currentPosition x).
        rewrite H1. exact Ht.
      * change (targetPosition (set_position ?v ?x)) with (targetPosition x).
        rewrite H2. exact Ht.
      * change (animationSpeed (set_position ?v ?x)) with (animationSpeed x).
        rewrite H4. exact Hr.
    + intros _.
      change (currentPosition (set_position ?v ?x)) with (currentPosition x).
      destruct (completeCurrentCommand_pose
                  (set_currentPosition (targetPosition e)
                     (set_currentPosition (interpolated e) e)))
        as (-> & _). reflexivity.
    + intros H. lra.
  - split; [|split].
    + constructor; assumption.
    + intros H. lra.
    + intros _. exact Hd.
Qed.

Lemma dist2_self (a : Vec.t) : Vec.dist2 a a == 0.
Proof. unfold Vec.dist2. ring. Qed.

Lemma contraction_range (rate : Q) :
  0 < rate < 2 -> 0 <= (1 - rate) * (1 - rate) < 1.
Proof. intros [H0 H2]. split; [apply Qsquare_nonneg | nra]. Qed.

(** Each tick shrinks the squared distance at least by the factor
    [(1 - rate)^2]. *)
Lemma animate_contracts (rate : Q) e :
  moving rate e ->
  remaining2 (animate e) <= (1 - rate) * (1 - rate) * remaining2 e.
Proof.
  intros Hm. destruct (animate_moving rate e Hm) as (_ & Hsnap & Hstep).
  pose proof (remaining2_nonneg e) as Hnn.
  pose proof (Qsquare_nonneg (1 - rate)) as Hsq.
  destruct (Qlt_le_dec (remaining2 e) 4) as [Hlt | Hge].
  - unfold remaining2 at 1. rewrite (Hsnap Hlt), animate_targetPosition, dist2_self.
    apply Qmult_le_0_compat; assumption.
  - rewrite (Hstep Hge). lra.
Qed.

Lemma iter_animate_moving (rate : Q) (n : nat) e :
  moving rate e -> moving rate (Nat.iter n animate e).
Proof.
  intros Hm. induction n as [|n IH]; [exact Hm|].
  rewrite Nat.iter_succ. apply (animate_moving rate _ IH).
Qed.

Lemma iter_animate_targetPosition (n : nat) e :
  targetPosition (Nat.iter n animate e) = targetPosition e.
Proof.
  induction n as [|n IH]; [reflexivity|].
  rewrite Nat.iter_succ, animate_targetPosition. exact IH.
Qed.

Lemma iter_animate_contracts (rate : Q) (n : nat) e :
  moving rate e ->
  (Q2R (remaining2 (Nat.iter n animate e)) <=
   Q2R ((1 - rate) * (1 - rate)) ^ n * Q2R (remaining2 e))%R.
Proof.
  intros Hm. induction n as [|n IH]; [simpl; lra|].
  rewrite Nat.iter_succ. cbn [pow].
  pose proof (animate_contracts rate _ (iter_animate_moving rate n e Hm)) as H.
  apply Qle_Rle in H. rewrite Q2R_mult in H.
  pose proof (Qsquare_nonneg (1 - rate)) as Hsq.
  apply Qle_Rle in Hsq. rewrite Q2R_0 in Hsq.
  nra.
Qed.

(** The distance as the tick tests it. *)
Lemma remaining_lt_2 e : (remaining e < 2)%R <-> remaining2 e < 4.
Proof.
  unfold remaining, Vec.distance. fold (remaining2 e).
  pose proof (remaining2_nonneg e) as Hnn.
  pose proof (sqrt_lt_2_spec (remaining2 e)) as Hs. unfold JS.sqrt_lt_2 in Hs.
  destruct (Qlt_le_dec (remaining2 e) 0) as [Hneg | _]; [lra|].
  destruct (Qlt_le_dec (remaining2 e) 4) as [Hlt | Hge].
  - split; [intros _; exact Hlt | intros _; apply Hs; reflexivity].
  - split; [|lra]. intros H. exfalso.
    assert (false = true) as Hft; [|discriminate Hft].
    apply Hs. split; [|exact H].
    apply Qle_Rle in Hnn. rewrite Q2R_0 in Hnn. exact Hnn.
Qed.


(** After enough ticks the squared distance is below the threshold. *)
Lemma eventually_below_threshold (rate : Q) e :
  0 < rate < 2 -> moving rate e ->
  exists N : nat, remaining2 (Nat.iter N animate e) < 4.
Proof.
  intros Hr Hm.
  pose proof (contraction_range rate Hr) as [Hc0 Hc1].
  apply Qle_Rle in Hc0. apply Qlt_Rlt in Hc1.
  rewrite Q2R_0 in Hc0. replace (Q2R 1) with 1%R in Hc1 by (unfold Q2R; simpl; lra).
  set (rho := Q2R ((1 - rate) * (1 - rate))) in *.
  pose proof (remaining2_nonneg e) as Hnn.
  apply Qle_Rle in Hnn. rewrite Q2R_0 in Hnn.
  set (D := Q2R (remaining2 e)) in *.
  assert (0 < 4 / (D + 1))%R as Hy.
  { apply Rdiv_lt_0_compat; lra. }
  destruct (pow_lt_1_zero rho) with (y := (4 / (D + 1))%R) as [N HN]; [|exact Hy|].
  { rewrite Rabs_pos_eq; lra. }
  exists N. apply Rlt_Qlt. rewrite Q2R_4.
  pose proof (iter_animate_contracts rate N e Hm) as Hle.
  fold rho in Hle. fold D in Hle.
  specialize (HN N (Nat.le_refl N)).
  assert (0 <= rho ^ N)%R as Hpow by (apply pow_le; exact Hc0).
  rewrite Rabs_pos_eq in HN by exact Hpow.
  assert (rho ^ N * D <= 4 / (D + 1) * D)%R as H1 by nra.
  assert (4 / (D + 1) * D < 4)%R as H2.
  { unfold Rdiv. replace (4 * / (D + 1) * D)%R with (4 * (D * / (D + 1)))%R by ring.
    assert (D * / (D + 1) < 1)%R; [|lra].
    apply (Rmult_lt_reg_r (D + 1)); [lra|].
    rewrite Rmult_assoc, Rinv_l by lra. lra. }
  lra.
Qed.

(** Activation of a [move_to] command. *)
Lemma executeNextCommand_move_to e (c : Command.t) :
  isPaused e = false ->
  commandQueue e !! currentCommandIndex e = Some c ->
  Command.action c = "move_to"%string ->
  executeNextCommand e =
  set_animationSpeed
    (JS.div (JS.or (Command.speed c) (JS.Fin 50)) (JS.Fin 2500))
    (set_targetPosition
       (Vec.mk (Command.x c) (Command.y c) (Command.z c)) e).
Proof.
  intros Hp Hc Ha. unfold executeNextCommand.
  rewrite Hp, Hc, Ha. simpl orb.
  apply lookup_lt_Some in Hc.
  destruct (Nat.leb_spec (length (commandQueue e)) (currentCommandIndex e)); [lia|].
  reflexivity.
Qed.

End Motion.

(** ** Claims about motion *)

(** With [speed: 5000] the rate is 2: every tick mirrors the arm through the
    target, the distance stays 10, and two ticks bring the engine back to
    the very state it started the move in. *)
Lemma moveTo_speed_5000_never_converges :
  let e := startExecution (loadCommands [moveTo 10 0 0 (JS.Fin 5000)] initial) in
  isAnimating e = true /\
  targetPosition e = Vec.mk (JS.Fin 10) (JS.Fin 0) (JS.Fin 0) /\
  (0 < remaining e)%R /\
  ~ (remaining (animate e) < remaining e)%R /\
  currentPosition (animate e) = Vec.mk (JS.Fin 20) (JS.Fin 0) (JS.Fin 0) /\
  animate (animate e) = e.
Proof.
  cbv zeta.
  assert (remaining (startExecution (loadCommands [moveTo 10 0 0 (JS.Fin 5000)] initial))
          = sqrt (Q2R 100)) as H0.
  { unfold remaining, Vec.distance. f_equal. }
  assert (remaining (animate
            (startExecution (loadCommands [moveTo 10 0 0 (JS.Fin 5000)] initial)))
          = sqrt (Q2R 100)) as H1.
  { unfold remaining, Vec.distance. f_equal. }
  rewrite H0, H1.
  split; [reflexivity|]. split; [reflexivity|]. split; [|split; [lra|]].
  - apply sqrt_lt_R0. unfold Q2R. simpl. lra.
  - split; reflexivity.
Qed.




(** ** Motion in double precision *)

Section DoubleFacts.

Import F64.

Lemma ticks_succ (n : nat) (m : motion) : ticks (S n) m = animate (ticks n m).
Proof. reflexivity. Qed.

Lemma ticks_add (n k : nat) (m : motion) : ticks (n + k) m = ticks k (ticks n m).
Proof.
  unfold ticks. rewrite Nat.add_comm. apply Nat.iter_add.
Qed.

(** A state that a tick leaves as it is stays for ever. *)
Lemma ticks_fixed (n : nat) (m : motion) : animate m = m -> ticks n m = m.
Proof.
  intros H. induction n as [|n IH]; [reflexivity|].
  rewrite ticks_succ, IH. exact H.
Qed.

(** A state that two ticks bring back recurs for ever. *)
Lemma ticks_period_2 (n : nat) (m : motion) :
  animate (animate m) = m -> ticks n m = m \/ ticks n m = animate m.
Proof.
  intros H. induction n as [|n IH]; [left; reflexivity|].
  rewrite ticks_succ. destruct IH as [-> | ->]; [right; reflexivity | left; exact H].
Qed.

Lemma never_arrives_before_spec (n k : nat) (m : motion) :
  never_arrives_before n m = true -> (k < n)%nat -> arrives (ticks k m) = false.
Proof.
  unfold never_arrives_before. rewrite forallb_forall. intros H Hk.
  specialize (H k). rewrite negb_true_iff in H. apply H, in_seq. lia.
Qed.

End DoubleFacts.

Section DoubleRuns.

Import PrimFloat.
Local Open Scope float_scope.

(** C1 fails as stated, in the arithmetic of the code.  With [speed: 5000]
    the rate is 2: every tick mirrors the arm through the target, the
    distance stays 10 and two ticks bring the motion back to where it
    started, so the test [distance < 2] never succeeds.  With the target
    [1e16] and [speed: 625] the rate is 1/4: after 124 ticks the arm is at
    9999999999999996, four units short; a quarter of that gap is 1, which
    rounding to the nearest double takes back, so from then on a tick
    changes nothing, the distance stays 4 and the arm never arrives. *)
Lemma moveTo_does_not_always_arrive :
  (let fast := F64.move_to 10 0 0 5000 F64.initial in
   let far := F64.move_to 1e16 0 0 625 F64.initial in
   let stalled :=
     F64.mkMotion (F64.mkVec 9999999999999996 0 0) (F64.mkVec 1e16 0 0) 0.25 in
   (F64.animationSpeed fast = 2 /\
    F64.distance fast = 10 /\
    F64.distance (F64.animate fast) = 10 /\
    F64.animate (F64.animate fast) = fast /\
    forall n : nat, F64.arrives (F64.ticks n fast) = false) /\
   (F64.animationSpeed far = 0.25 /\
    F64.ticks 124 far = stalled /\
    F64.distance stalled = 4 /\
    F64.animate stalled = stalled /\
    forall n : nat, F64.arrives (F64.ticks n far) = false)).
Proof.
  cbv zeta. split.
  - split; [vm_compute; reflexivity|]. split; [vm_compute; reflexivity|].
    split; [vm_compute; reflexivity|].
    assert (F64.animate (F64.animate (F64.move_to 10 0 0 5000 F64.initial)) =
            F64.move_to 10 0 0 5000 F64.initial) as Hback by (vm_compute; reflexivity).
    split; [exact Hback|].
    intros n. destruct (ticks_period_2 n _ Hback) as [-> | ->]; vm_compute; reflexivity.
  - split; [vm_compute; reflexivity|].
    assert (F64.ticks 124 (F64.move_to 1e16 0 0 625 F64.initial) =
            F64.mkMotion (F64.mkVec 9999999999999996 0 0) (F64.mkVec 1e16 0 0) 0.25)
      as Hstall by (vm_compute; reflexivity).
    assert (F64.animate
              (F64.mkMotion (F64.mkVec 9999999999999996 0 0) (F64.mkVec 1e16 0 0) 0.25) =
            F64.mkMotion (F64.mkVec 9999999999999996 0 0) (F64.mkVec 1e16 0 0) 0.25)
      as Hfix by (vm_compute; reflexivity).
    split; [exact Hstall|]. split; [vm_compute; reflexivity|]. split; [exact Hfix|].
    intros n. destruct (Nat.lt_ge_cases n 124) as [Hlt | Hge].
    + apply (never_arrives_before_spec 124); [vm_compute; reflexivity | exact Hlt].
    + replace n with (124 + (n - 124))%nat by lia.
      rewrite ticks_add, Hstall, (ticks_fixed _ _ Hfix). vm_compute. reflexivity.
Qed.

(** In double precision the arm of the demo run arrives on the same tick as
    in exact arithmetic: from the origin towards [{10,0,0}] at [speed: 50]
    the first 80 ticks find the arm two units or more away, the 81st finds
    it closer and sets the position to the target. *)
Lemma demo_arrives_on_tick_81_in_doubles :
  (let m := F64.move_to 10 0 0 50 F64.initial in
   F64.never_arrives_before 80 m = true /\
   F64.arrives (F64.ticks 80 m) = true /\
   F64.currentPosition (F64.ticks 81 m) = F64.mkVec 10 0 0).
Proof. vm_compute. repeat split. Qed.

(** In double precision a move of a million million units at [speed: 50]
    arrives: the test [distance < 2] succeeds for the first time on tick
    1335, which sets the position to the target. *)
Lemma moveTo_1e12_arrives_in_doubles :
  (let m := F64.move_to 1e12 0 0 50 F64.initial in
   F64.never_arrives_before 1334 m = true /\
   F64.arrives (F64.ticks 1334 m) = true /\
   F64.currentPosition (F64.ticks 1335 m) = F64.mkVec 1e12 0 0).
Proof. vm_compute. repeat split. Qed.

End DoubleRuns.

(** ** Motion in rounded arithmetic *)

Section NormFacts.

Import Rounded.
Local Open Scope R_scope.

Lemma sq_nonneg (r : R) : 0 <= r * r.
Proof. apply Rle_0_sqr. Qed.

Lemma Rabs_between (a b : R) : Rabs a <= b -> - b <= a <= b.
Proof. unfold Rabs. destruct (Rcase_abs a); lra. Qed.

Lemma norm_nonneg (a b c : R) : 0 <= norm a b c.
Proof. apply sqrt_pos. Qed.

Lemma norm_sqr (a b c : R) : norm a b c * norm a b c = a * a + b * b + c * c.
Proof.
  apply sqrt_sqrt.
  pose proof (sq_nonneg a). pose proof (sq_nonneg b). pose proof (sq_nonneg c). lra.
Qed.

Lemma norm_zero : norm 0 0 0 = 0.
Proof.
  unfold norm. replace (0 * 0 + 0 * 0 + 0 * 0) with 0 by ring. apply sqrt_0.
Qed.

(** A bound on the square bounds the length. *)
Lemma norm_le (a b c bound : R) :
  0 <= bound -> a * a + b * b + c * c <= bound * bound -> norm a b c <= bound.
Proof.
  intros Hb H. pose proof (norm_nonneg a b c) as Hn. pose proof (norm_sqr a b c) as Hs.
  nra.
Qed.

Lemma norm_component (a b c : R) :
  Rabs a <= norm a b c /\ Rabs b <= norm a b c /\ Rabs c <= norm a b c.
Proof.
  pose proof (norm_nonneg a b c) as Hn. pose proof (norm_sqr a b c) as Hs.
  repeat split; apply Rabs_le; split; nra.
Qed.

Lemma norm_triangle (a b c a' b' c' : R) :
  norm (a + a') (b + b') (c + c') <= norm a b c + norm a' b' c'.
Proof.
  pose proof (norm_nonneg a b c) as Hn. pose proof (norm_sqr a b c) as Hs.
  pose proof (norm_nonneg a' b' c') as Hn'. pose proof (norm_sqr a' b' c') as Hs'.
  apply norm_le; [lra|].
  assert (a * a' + b * b' + c * c' <= norm a b c * norm a' b' c') as Hcs.
  { assert ((a * a' + b * b' + c * c') * (a * a' + b * b' + c * c') <=
            (norm a b c * norm a' b' c') * (norm a b c * norm a' b' c')) as Hsq.
    { replace ((norm a b c * norm a' b' c') * (norm a b c * norm a' b' c'))
        with ((norm a b c * norm a b c) * (norm a' b' c' * norm a' b' c')) by ring.
      rewrite Hs, Hs'.
      pose proof (sq_nonneg (a * b' - b * a')) as H1.
      pose proof (sq_nonneg (a * c' - c * a')) as H2.
      pose proof (sq_nonneg (b * c' - c * b')) as H3.
      replace ((a * a + b * b + c * c) * (a' * a' + b' * b' + c' * c'))
        with ((a * a' + b * b' + c * c') * (a * a' + b * b' + c * c')
              + (a * b' - b * a') * (a * b' - b * a')
              + (a * c' - c * a') * (a * c' - c * a')
              + (b * c' - c * b') * (b * c' - c * b')) by ring.
      lra. }
    assert (0 <= norm a b c * norm a' b' c') as Hp by nra.
    nra. }
  nra.
Qed.

Lemma norm_scale (k a b c : R) :
  norm (k * a) (k * b) (k * c) = Rabs k * norm a b c.
Proof.
  pose proof (norm_nonneg a b c) as Hn. pose proof (norm_sqr a b c) as Hs.
  pose proof (Rabs_pos k) as Hk.
  assert (Rabs k * Rabs k = k * k) as Hkk.
  { unfold Rabs. destruct (Rcase_abs k); ring. }
  unfold norm at 1.
  replace (k * a * (k * a) + k * b * (k * b) + k * c * (k * c))
    with ((Rabs k * norm a b c) * (Rabs k * norm a b c)).
  - apply sqrt_square. nra.
  - replace ((Rabs k * norm a b c) * (Rabs k * norm a b c))
      with ((Rabs k * Rabs k) * (norm a b c * norm a b c)) by ring.
    rewrite Hkk, Hs. ring.
Qed.

Lemma norm_sum (a b c : R) : norm a b c <= Rabs a + Rabs b + Rabs c.
Proof.
  pose proof (Rabs_pos a). pose proof (Rabs_pos b). pose proof (Rabs_pos c).
  apply norm_le; [lra|].
  assert (Rabs a * Rabs a = a * a) by (unfold Rabs; destruct (Rcase_abs a); ring).
  assert (Rabs b * Rabs b = b * b) by (unfold Rabs; destruct (Rcase_abs b); ring).
  assert (Rabs c * Rabs c = c * c) by (unfold Rabs; destruct (Rcase_abs c); ring).
  nra.
Qed.

(** A vector that is a multiple of another up to an error. *)
Lemma norm_contract (k eps a b c a' b' c' : R) :
  Rabs (a' - k * a) <= eps -> Rabs (b' - k * b) <= eps -> Rabs (c' - k * c) <= eps ->
  norm a' b' c' <= Rabs k * norm a b c + 3 * eps.
Proof.
  intros Ha Hb Hc.
  replace a' with (k * a + (a' - k * a)) at 1 by ring.
  replace b' with (k * b + (b' - k * b)) at 1 by ring.
  replace c' with (k * c + (c' - k * c)) at 1 by ring.
  eapply Rle_trans; [apply norm_triangle|].
  rewrite norm_scale.
  pose proof (norm_sum (a' - k * a) (b' - k * b) (c' - k * c)). lra.
Qed.

End NormFacts.

Section RoundedMotion.

Import Rounded.
Local Open Scope R_scope.

Variable rnd : R -> R.
Variables u eta omega : R.
Hypothesis Hrnd : standard rnd u eta omega.
Hypothesis Hu : 0 <= u <= 1 / 64.
Hypothesis Heta : 0 <= eta <= 1 / 64.

Lemma rnd_within (a bound : R) :
  Rabs a <= bound -> bound <= omega -> Rabs (rnd a - a) <= u * bound + eta.
Proof using Hrnd Hu.
  intros Ha Hb.
  pose proof (rounding_error rnd u eta omega Hrnd a) as H.
  assert (Rabs a <= omega) as Hao by lra.
  specialize (H Hao). pose proof (Rabs_pos a). nra.
Qed.

Lemma rnd_nonneg (a : R) : 0 <= a -> 0 <= rnd a.
Proof using Hrnd.
  intros Ha. rewrite <- (rounding_zero rnd u eta omega Hrnd).
  apply (rounding_monotone rnd u eta omega Hrnd). exact Ha.
Qed.

(** Rounding a value of magnitude at most [bound]. *)
Lemma rnd_abs_upper (a bound : R) :
  Rabs a <= bound -> bound <= omega ->
  Rabs (rnd a) <= bound * (65 / 64) + 1 / 64.
Proof using Hrnd Hu Heta.
  intros Ha Hb.
  pose proof (rnd_within a bound Ha Hb) as H.
  apply Rabs_between in H. apply Rabs_between in Ha.
  assert (0 <= bound) as Hb0 by lra.
  apply Rabs_le. split; nra.
Qed.

Lemma rnd_upper (a bound : R) :
  0 <= a <= bound -> bound <= omega ->
  0 <= rnd a <= bound * (65 / 64) + 1 / 64.
Proof using Hrnd Hu Heta.
  intros Ha Hb. split; [apply rnd_nonneg; lra|].
  assert (Rabs a <= bound) as Habs by (apply Rabs_le; lra).
  pose proof (rnd_abs_upper a bound Habs Hb) as H.
  apply Rabs_between in H. lra.
Qed.

Variable size : R.
Hypothesis Hsize : 1 <= size.
Hypothesis Homega : 16 * size * size <= omega.

Lemma size_omega : 16 * size <= omega.
Proof using Hsize Homega. nra. Qed.

(** One coordinate of a tick: the gap to the target is multiplied by
    [1 - rate], up to nine rounding errors at the given size. *)
Lemma step_error (rate target current : R) :
  0 <= rate <= 2 -> Rabs target <= size -> Rabs (target - current) <= size ->
  Rabs ((target - step rnd rate target current) - (1 - rate) * (target - current))
    <= 9 * (u * size + eta).
Proof using Hrnd Hu Heta Hsize Homega.
  intros Hrate Ht Hg.
  pose proof size_omega as Hso.
  set (U := u * size + eta).
  assert (0 <= U <= size / 32) as HU by (unfold U; nra).
  unfold step, add, mul, sub.
  set (g := target - current) in *.
  (* the rounded gap *)
  pose proof (rnd_within g size Hg ltac:(lra)) as H1. fold U in H1.
  set (d := rnd g) in *.
  apply Rabs_between in H1. apply Rabs_between in Hg. apply Rabs_between in Ht.
  (* the rounded product *)
  assert (Rabs (d * rate) <= 2 * (size + U)) as Hdr.
  { apply Rabs_le. split; nra. }
  pose proof (rnd_within (d * rate) (2 * (size + U)) Hdr ltac:(lra)) as H2.
  set (m := rnd (d * rate)) in *.
  apply Rabs_between in H2. apply Rabs_between in Hdr.
  assert (u * (2 * (size + U)) + eta <= 2 * U + U / 32) as HE2 by (unfold U in *; nra).
  (* the rounded sum *)
  assert (current = target - g) as Hc by (unfold g; ring).
  assert (Rabs (current + m) <= 4 * size + 5 * U) as Hcm.
  { apply Rabs_le. rewrite Hc. split; lra. }
  pose proof (rnd_within (current + m) (4 * size + 5 * U) Hcm ltac:(lra)) as H3.
  set (c' := rnd (current + m)) in *.
  apply Rabs_between in H3.
  assert (u * (4 * size + 5 * U) + eta <= 4 * U + U / 8) as HE3 by (unfold U in *; nra).
  (* together *)
  replace (target - c' - (1 - rate) * g)
    with (- (rate * (d - g)) - (m - d * rate) - (c' - (current + m)))
    by (rewrite Hc; ring).
  assert (- (2 * U) <= rate * (d - g) <= 2 * U) as Hre by nra.
  apply Rabs_le. split; lra.
Qed.

(** The radicand of the arrival test is not negative. *)
Lemma radicand_nonneg (a b c : R) :
  0 <= add rnd (add rnd (mul rnd a a) (mul rnd b b)) (mul rnd c c).
Proof using Hrnd.
  unfold add, mul.
  pose proof (rnd_nonneg (a * a) (sq_nonneg a)).
  pose proof (rnd_nonneg (b * b) (sq_nonneg b)).
  pose proof (rnd_nonneg (c * c) (sq_nonneg c)).
  apply rnd_nonneg.
  assert (0 <= rnd (rnd (a * a) + rnd (b * b))) by (apply rnd_nonneg; lra).
  lra.
Qed.

(** The square of a rounded gap of at most one unit. *)
Lemma squared_gap (g : R) :
  Rabs g <= 1 -> 0 <= mul rnd (sub rnd g 0) (sub rnd g 0) <= 111 / 100.
Proof using Hrnd Hu Heta Hsize Homega.
  intros Hg. pose proof size_omega as Hso.
  unfold mul, sub. replace (g - 0) with g by ring.
  pose proof (rnd_abs_upper g 1 Hg ltac:(lra)) as Hd.
  set (d := rnd g) in *. apply Rabs_between in Hd.
  assert (0 <= d * d <= 107 / 100) as Hdd by (pose proof (sq_nonneg d); nra).
  pose proof (rnd_upper (d * d) (107 / 100) Hdd ltac:(lra)) as H. lra.
Qed.

(** Within one unit of the target the test [distance < 2] succeeds. *)
Lemma arrives_when_close (m : motion) :
  remaining m <= 1 -> arrives rnd m = true.
Proof using Hrnd Hu Heta Hsize Homega.
  intros Hclose. pose proof size_omega as Hso.
  unfold arrives. destruct (Rlt_dec (distance rnd m) 2) as [_ | Hfar]; [reflexivity|].
  exfalso. apply Hfar. clear Hfar.
  unfold remaining in Hclose.
  destruct (norm_component (x (targetPosition m) - x (currentPosition m))
              (y (targetPosition m) - y (currentPosition m))
              (z (targetPosition m) - z (currentPosition m))) as (Hx & Hy & Hz).
  unfold distance, root.
  set (gx := x (targetPosition m) - x (currentPosition m)) in *.
  set (gy := y (targetPosition m) - y (currentPosition m)) in *.
  set (gz := z (targetPosition m) - z (currentPosition m)) in *.
  assert (Rabs gx <= 1) as Hgx by lra.
  assert (Rabs gy <= 1) as Hgy by lra.
  assert (Rabs gz <= 1) as Hgz by lra.
  pose proof (squared_gap gx Hgx) as Hpx.
  pose proof (squared_gap gy Hgy) as Hpy.
  pose proof (squared_gap gz Hgz) as Hpz.
  unfold sub in Hpx, Hpy, Hpz.
  replace (gx - 0) with gx in Hpx by ring.
  replace (gy - 0) with gy in Hpy by ring.
  replace (gz - 0) with gz in Hpz by ring.
  unfold sub. fold gx gy gz.
  set (px := mul rnd (rnd gx) (rnd gx)) in *.
  set (py := mul rnd (rnd gy) (rnd gy)) in *.
  set (pz := mul rnd (rnd gz) (rnd gz)) in *.
  unfold add.
  pose proof (rnd_upper (px + py) (222 / 100) ltac:(lra) ltac:(lra)) as Hs1.
  set (s1 := rnd (px + py)) in *.
  pose proof (rnd_upper (s1 + pz) (340 / 100) ltac:(lra) ltac:(lra)) as Hs2.
  set (s2 := rnd (s1 + pz)) in *.
  assert (0 <= sqrt s2 <= 19 / 10) as Hroot.
  { split; [apply sqrt_pos|].
    replace (19 / 10) with (sqrt (19 / 10 * (19 / 10))) by (apply sqrt_square; lra).
    apply sqrt_le_1_alt. lra. }
  pose proof (rnd_upper (sqrt s2) (19 / 10) Hroot ltac:(lra)) as H. lra.
Qed.

Variable target : vec.
Variable rate : R.
Hypothesis Htarget :
  Rabs (x target) <= size /\ Rabs (y target) <= size /\ Rabs (z target) <= size.
Hypothesis Hrate : Rabs (1 - rate) + 27 * (u * size + eta) < 1.

Lemma shrink_range : 0 <= shrink u eta size rate < 1.
Proof using Hu Heta Hsize Hrate.
  unfold shrink. pose proof (Rabs_pos (1 - rate)). split; [nra | exact Hrate].
Qed.

Lemma rate_range : 0 <= rate <= 2.
Proof using Hu Heta Hsize Hrate.
  assert (Rabs (1 - rate) < 1) as H by nra.
  apply Rabs_def2 in H. lra.
Qed.

Lemma rounded_animate_arrived (m : motion) :
  arrives rnd m = true ->
  animate rnd m = mkMotion (targetPosition m) (targetPosition m) (animationSpeed m).
Proof. intros H. unfold animate. rewrite H. reflexivity. Qed.

Lemma remaining_arrived (t : vec) (r : R) : remaining (mkMotion t t r) = 0.
Proof.
  unfold remaining. cbn [targetPosition currentPosition].
  replace (x t - x t) with 0 by ring. replace (y t - y t) with 0 by ring.
  replace (z t - z t) with 0 by ring. apply norm_zero.
Qed.

(** A tick that does not arrive was taken more than one unit away and
    shortens the distance by the factor [shrink] at least. *)
Lemma rounded_animate_on_the_way (m : motion) :
  on_the_way size target rate m -> arrives rnd m = false ->
  1 < remaining m /\
  remaining (animate rnd m) <= shrink u eta size rate * remaining m /\
  on_the_way size target rate (animate rnd m).
Proof using Hrnd Hu Heta Hsize Homega Htarget Hrate.
  intros (Ht & Hr & Hd) Hfar.
  assert (1 < remaining m) as Hone.
  { destruct (Rlt_le_dec 1 (remaining m)) as [H | H]; [exact H|].
    rewrite (arrives_when_close m H) in Hfar. discriminate Hfar. }
  pose proof rate_range as Hrr. pose proof shrink_range as Hsr.
  destruct Htarget as (Htx & Hty & Htz).
  assert (remaining (animate rnd m) <= shrink u eta size rate * remaining m) as Hshrink.
  { unfold animate. rewrite Hfar. unfold remaining at 1.
    cbn [targetPosition currentPosition x y z]. rewrite Ht, Hr.
    unfold remaining in Hd, Hone |- *. rewrite Ht in Hd, Hone |- *.
    destruct (norm_component (x target - x (currentPosition m))
                (y target - y (currentPosition m))
                (z target - z (currentPosition m))) as (Hgx & Hgy & Hgz).
    pose proof (step_error rate (x target) (x (currentPosition m)) Hrr Htx ltac:(lra)) as Hex.
    pose proof (step_error rate (y target) (y (currentPosition m)) Hrr Hty ltac:(lra)) as Hey.
    pose proof (step_error rate (z target) (z (currentPosition m)) Hrr Htz ltac:(lra)) as Hez.
    pose proof (norm_contract (1 - rate) (9 * (u * size + eta)) _ _ _ _ _ _ Hex Hey Hez) as H.
    unfold shrink.
    set (G := norm (x target - x (currentPosition m)) (y target - y (currentPosition m))
                (z target - z (currentPosition m))) in *.
    set (G' := norm _ _ _) in *.
    pose proof (Rabs_pos (1 - rate)).
    assert (0 <= u * size + eta) by nra.
    nra. }
  split; [exact Hone|]. split; [exact Hshrink|].
  unfold on_the_way. unfold animate in *. rewrite Hfar in *.
  cbn [targetPosition animationSpeed].
  split; [exact Ht|]. split; [exact Hr|]. nra.
Qed.

Lemma rounded_animate_keeps (m : motion) :
  on_the_way size target rate m -> on_the_way size target rate (animate rnd m).
Proof using Hrnd Hu Heta Hsize Homega Htarget Hrate.
  intros Hm. destruct (arrives rnd m) eqn:Ha.
  - rewrite (rounded_animate_arrived m Ha). destruct Hm as (Ht & Hr & _).
    unfold on_the_way. cbn [targetPosition animationSpeed].
    rewrite remaining_arrived. split; [exact Ht|]. split; [exact Hr | lra].
  - apply (rounded_animate_on_the_way m Hm Ha).
Qed.

Lemma ticks_on_the_way (n : nat) (m : motion) :
  on_the_way size target rate m -> on_the_way size target rate (ticks rnd n m).
Proof using Hrnd Hu Heta Hsize Homega Htarget Hrate.
  intros Hm. induction n as [|n IH]; [exact Hm|].
  unfold ticks. rewrite Nat.iter_succ. apply rounded_animate_keeps, IH.
Qed.

(** Every tick taken at a positive distance shortens the distance. *)
Lemma rounded_animate_closer (m : motion) :
  on_the_way size target rate m -> 0 < remaining m -> remaining (animate rnd m) < remaining m.
Proof using Hrnd Hu Heta Hsize Homega Htarget Hrate.
  intros Hm Hpos. destruct (arrives rnd m) eqn:Ha.
  - rewrite (rounded_animate_arrived m Ha), remaining_arrived. exact Hpos.
  - destruct (rounded_animate_on_the_way m Hm Ha) as (Hone & Hshrink & _).
    pose proof shrink_range. nra.
Qed.

(** The arm arrives as soon as the distance, shortened [n] times, is at most
    one unit. *)
Lemma arrives_within (n : nat) (m : motion) :
  on_the_way size target rate m -> shrink u eta size rate ^ n * remaining m <= 1 ->
  exists k : nat, (k <= n)%nat /\ arrives rnd (ticks rnd k m) = true.
Proof using Hrnd Hu Heta Hsize Homega Htarget Hrate.
  revert m. induction n as [|n IH]; intros m Hm Hn.
  - exists 0%nat. split; [lia|]. change (ticks rnd 0 m) with m.
    apply arrives_when_close. rewrite pow_O in Hn. lra.
  - destruct (arrives rnd m) eqn:Ha; [exists 0%nat; split; [lia | exact Ha]|].
    destruct (rounded_animate_on_the_way m Hm Ha) as (Hone & Hshrink & Hm').
    destruct (IH (animate rnd m) Hm') as (k & Hk & Hak).
    + pose proof shrink_range as Hsr.
      assert (0 <= shrink u eta size rate ^ n) as Hpow by (apply pow_le; lra).
      rewrite <- tech_pow_Rmult in Hn.
      set (q := shrink u eta size rate) in *. set (qn := q ^ n) in *.
      pose proof (norm_nonneg (x (targetPosition m) - x (currentPosition m))
                    (y (targetPosition m) - y (currentPosition m))
                    (z (targetPosition m) - z (currentPosition m))) as Hnn.
      fold (remaining m) in Hnn.
      apply Rle_trans with (qn * (q * remaining m)); [|lra].
      apply Rmult_le_compat_l; [exact Hpow | exact Hshrink].
    + exists (S k). split; [lia|].
      unfold ticks in *. rewrite Nat.iter_succ_r. exact Hak.
Qed.

Lemma arrives_eventually (m : motion) :
  on_the_way size target rate m -> exists k : nat, arrives rnd (ticks rnd k m) = true.
Proof using Hrnd Hu Heta Hsize Homega Htarget Hrate.
  intros Hm. pose proof shrink_range as Hsr.
  destruct (pow_lt_1_zero (shrink u eta size rate)) with (y := / size) as [N HN].
  - rewrite Rabs_pos_eq; lra.
  - apply Rinv_0_lt_compat. lra.
  - specialize (HN N (Nat.le_refl N)).
    assert (0 <= shrink u eta size rate ^ N) as Hpow by (apply pow_le; lra).
    rewrite Rabs_pos_eq in HN by exact Hpow.
    destruct (arrives_within N m Hm) as (k & _ & Hk); [|exists k; exact Hk].
    destruct Hm as (_ & _ & Hd).
    assert (shrink u eta size rate ^ N * size <= 1) as H1.
    { assert (/ size * size = 1) as Hinv by (apply Rinv_l; lra). nra. }
    pose proof (norm_nonneg (x (targetPosition m) - x (currentPosition m))
                  (y (targetPosition m) - y (currentPosition m))
                  (z (targetPosition m) - z (currentPosition m))) as Hnn.
    fold (remaining m) in Hnn. nra.
Qed.

End RoundedMotion.
(** ** The rounding of JavaScript numbers satisfies the standard model *)

Section Binary64Facts.

Import Rounded.
Local Open Scope R_scope.

Lemma floor_spec (t : R) : IZR (Int_part t) <= t < IZR (Int_part t) + 1.
Proof. destruct (base_Int_part t). lra. Qed.

Lemma floor_le (s t : R) : s <= t -> (Int_part s <= Int_part t)%Z.
Proof.
  intros H. pose proof (floor_spec s). pose proof (floor_spec t).
  assert (IZR (Int_part s) < IZR (Int_part t + 1)) by (rewrite plus_IZR; lra).
  apply lt_IZR in H2. lia.
Qed.

Lemma floor_IZR (n : Z) : Int_part (IZR n) = n.
Proof. symmetry. apply Int_part_spec. lra. Qed.

Lemma nearest_even_cases (t : R) :
  nearest_even t = Int_part t \/ nearest_even t = (Int_part t + 1)%Z.
Proof.
  unfold nearest_even. cbv zeta.
  destruct (Rlt_dec _ _); [now left|].
  destruct (Rlt_dec _ _); [now right|].
  destruct (Z.even _); [now left | now right].
Qed.

Lemma nearest_even_error (t : R) : Rabs (IZR (nearest_even t) - t) <= 1 / 2.
Proof.
  pose proof (floor_spec t) as H. unfold nearest_even. cbv zeta.
  destruct (Rlt_dec _ _) as [H1|H1].
  - apply Rabs_le. lra.
  - destruct (Rlt_dec _ _) as [H2|H2].
    + rewrite plus_IZR. apply Rabs_le. lra.
    + destruct (Z.even _); [|rewrite plus_IZR]; apply Rabs_le; lra.
Qed.

Lemma nearest_even_IZR (n : Z) : nearest_even (IZR n) = n.
Proof.
  unfold nearest_even. cbv zeta. rewrite floor_IZR.
  destruct (Rlt_dec _ _) as [H|H]; [reflexivity | exfalso; lra].
Qed.

Lemma nearest_even_le (s t : R) : s <= t -> (nearest_even s <= nearest_even t)%Z.
Proof.
  intros H. pose proof (floor_le s t H) as Hf.
  destruct (Z.eq_dec (Int_part s) (Int_part t)) as [E|E].
  - unfold nearest_even. cbv zeta. rewrite E.
    destruct (Rlt_dec (s - _) _) as [H1|H1]; destruct (Rlt_dec (t - _) _) as [H2|H2];
      try lia.
    + destruct (Rlt_dec _ (t - _)); [lia|]. destruct (Z.even _); lia.
    + exfalso. lra.
    + destruct (Rlt_dec _ (s - _)) as [H3|H3]; destruct (Rlt_dec _ (t - _)) as [H4|H4];
        try lia.
      * exfalso. lra.
      * destruct (Z.even _); lia.
  - destruct (nearest_even_cases s) as [-> | ->], (nearest_even_cases t) as [-> | ->]; lia.
Qed.

Lemma two_pos : 0 < 2. Proof. lra. Qed.
Lemma two_neq : 2 <> 0. Proof. lra. Qed.

Lemma ln_2_pos : 0 < ln 2.
Proof. pose proof ln_lt_2. lra. Qed.

Lemma powerRZ_2_le (m n : Z) : (m <= n)%Z -> powerRZ 2 m <= powerRZ 2 n.
Proof.
  intros H. rewrite !(powerRZ_Rpower 2 _ two_pos).
  destruct (Z.eq_dec m n) as [->|E]; [lra|].
  left. apply Rpower_lt; [lra|]. apply IZR_lt. lia.
Qed.


Lemma normal_range_dec (a : R) : normal_range a \/ exponent a = (- 1074)%Z.
Proof. unfold normal_range, exponent. lia. Qed.

Lemma powerRZ_2_split (e k : Z) : powerRZ 2 (e + k) = powerRZ 2 k * powerRZ 2 e.
Proof. rewrite (powerRZ_add 2 e k two_neq). ring. Qed.

Lemma powerRZ_2_cancel (e : Z) : powerRZ 2 (- e) * powerRZ 2 e = 1.
Proof. rewrite <- (powerRZ_add 2 _ _ two_neq). now replace (- e + e)%Z with 0%Z by lia. Qed.

Lemma powerRZ_2_52 : powerRZ 2 52 = 4503599627370496.
Proof. unfold powerRZ. rewrite pow_IZR. apply f_equal. vm_compute. reflexivity. Qed.

Lemma powerRZ_2_53 : powerRZ 2 53 = 9007199254740992.
Proof. unfold powerRZ. rewrite pow_IZR. apply f_equal. vm_compute. reflexivity. Qed.

(** The binade of a positive number. *)
Lemma binade (a : R) :
  0 < a ->
  a < powerRZ 2 (exponent a + 53) /\
  (normal_range a -> powerRZ 2 (exponent a + 52) <= a).
Proof.
  intros Ha.
  pose proof (floor_spec (ln a / ln 2)) as [H1 H2].
  pose proof ln_2_pos as L. split.
  - apply Rlt_le_trans with (powerRZ 2 (Int_part (ln a / ln 2) + 1)).
    + rewrite (powerRZ_Rpower 2 _ two_pos). unfold Rpower.
      rewrite <- (exp_ln a Ha) at 1. apply exp_increasing. rewrite plus_IZR.
      apply (Rmult_lt_compat_r (ln 2)) in H2; [|lra].
      unfold Rdiv in H2. rewrite Rmult_assoc, Rinv_l, Rmult_1_r in H2 by lra. lra.
    + apply powerRZ_2_le. unfold exponent. lia.
  - intros Hn. unfold normal_range in Hn.
    replace (exponent a + 52)%Z with (Int_part (ln a / ln 2)) by (unfold exponent; lia).
    rewrite (powerRZ_Rpower 2 _ two_pos). unfold Rpower.
    rewrite <- (exp_ln a Ha) at 2.
    destruct (Req_dec (IZR (Int_part (ln a / ln 2)) * ln 2) (ln a)) as [->|E]; [lra|].
    left. apply exp_increasing.
    apply (Rmult_le_compat_r (ln 2)) in H1; [|lra].
    unfold Rdiv in H1. rewrite Rmult_assoc, Rinv_l, Rmult_1_r in H1 by lra. lra.
Qed.

Lemma exponent_le (a b : R) : 0 < a -> a <= b -> (exponent a <= exponent b)%Z.
Proof.
  intros Ha H. unfold exponent.
  assert (Int_part (ln a / ln 2) <= Int_part (ln b / ln 2))%Z; [|lia].
  apply floor_le. pose proof ln_2_pos.
  apply Rmult_le_compat_r; [left; now apply Rinv_0_lt_compat|].
  destruct (Req_dec a b) as [->|E]; [lra|]. left. apply ln_increasing; lra.
Qed.

Lemma scaled (a : R) :
  0 < a ->
  0 < a * powerRZ 2 (- exponent a) < powerRZ 2 53 /\
  (normal_range a -> powerRZ 2 52 <= a * powerRZ 2 (- exponent a)).
Proof.
  intros Ha. pose proof (binade a Ha) as [H2 H1].
  rewrite powerRZ_2_split in H1, H2.
  pose proof (powerRZ_lt 2 (- exponent a) two_pos) as P.
  pose proof (powerRZ_2_cancel (exponent a)) as C.
  split; [split|].
  - now apply Rmult_lt_0_compat.
  - apply (Rmult_lt_compat_r _ _ _ P) in H2.
    rewrite Rmult_assoc, (Rmult_comm (powerRZ 2 (exponent a))), C in H2. lra.
  - intros Hn. specialize (H1 Hn).
    apply (Rmult_le_compat_r _ _ _ (Rlt_le _ _ P)) in H1.
    rewrite Rmult_assoc, (Rmult_comm (powerRZ 2 (exponent a))), C in H1. lra.
Qed.

Lemma round_positive_range (a : R) :
  0 < a ->
  0 <= round_positive a <= powerRZ 2 (exponent a + 53) /\
  (normal_range a -> powerRZ 2 (exponent a + 52) <= round_positive a).
Proof.
  intros Ha. pose proof (scaled a Ha) as [[H0 H2] H1].
  rewrite powerRZ_2_52 in H1. rewrite powerRZ_2_53 in H2.
  unfold round_positive. rewrite !powerRZ_2_split, powerRZ_2_52, powerRZ_2_53.
  pose proof (powerRZ_lt 2 (exponent a) two_pos) as P.
  split; [split|].
  - apply Rmult_le_pos; [|lra]. apply IZR_le.
    rewrite <- (nearest_even_IZR 0). apply nearest_even_le. lra.
  - apply Rmult_le_compat_r; [lra|]. apply IZR_le.
    rewrite <- (nearest_even_IZR 9007199254740992). apply nearest_even_le. lra.
  - intros Hn. apply Rmult_le_compat_r; [lra|]. apply IZR_le.
    rewrite <- (nearest_even_IZR 4503599627370496). apply nearest_even_le. now apply H1.
Qed.

Lemma round_positive_error (a : R) :
  0 < a ->
  Rabs (round_positive a - a) <= / 9007199254740992 * a + powerRZ 2 (- 1075).
Proof.
  intros Ha. pose proof (binade a Ha) as [_ H1].
  rewrite powerRZ_2_split, powerRZ_2_52 in H1.
  pose proof (powerRZ_lt 2 (exponent a) two_pos) as P.
  pose proof (powerRZ_lt 2 (- 1075) two_pos) as P'.
  pose proof (powerRZ_2_cancel (exponent a)) as C.
  pose proof (nearest_even_error (a * powerRZ 2 (- exponent a))) as E.
  assert (Rabs (round_positive a - a) <= 1 / 2 * powerRZ 2 (exponent a)) as B.
  { unfold round_positive.
    set (n := IZR (nearest_even (a * powerRZ 2 (- exponent a)))) in *.
    set (p := powerRZ 2 (exponent a)) in *. set (q := powerRZ 2 (- exponent a)) in *.
    replace (n * p - a) with ((n - a * q) * p)
      by (rewrite <- (Rmult_1_r a) at 2; rewrite <- C; ring).
    rewrite Rabs_mult, (Rabs_pos_eq p) by lra.
    apply Rmult_le_compat_r; lra. }
  destruct (normal_range_dec a) as [Hn | He].
  - specialize (H1 Hn). lra.
  - rewrite He in B.
    replace (- 1074)%Z with (- 1075 + 1)%Z in B by lia.
    rewrite (powerRZ_add 2 _ _ two_neq) in B.
    change (powerRZ 2 1) with (2 * 1) in B. lra.
Qed.

Lemma round_positive_le (a b : R) :
  0 < a -> a <= b -> round_positive a <= round_positive b.
Proof.
  intros Ha H. pose proof (exponent_le a b Ha H) as He.
  destruct (Z.eq_dec (exponent a) (exponent b)) as [E|E].
  - unfold round_positive. rewrite E.
    pose proof (powerRZ_lt 2 (exponent b) two_pos).
    pose proof (powerRZ_lt 2 (- exponent b) two_pos).
    apply Rmult_le_compat_r; [lra|]. apply IZR_le, nearest_even_le.
    apply Rmult_le_compat_r; lra.
  - pose proof (round_positive_range a Ha) as [[_ H1] _].
    assert (0 < b) as Hb by lra.
    pose proof (round_positive_range b Hb) as [_ H2].
    assert (normal_range b) as Hn by (unfold normal_range; unfold exponent in *; lia).
    specialize (H2 Hn).
    assert (exponent a + 53 <= exponent b + 52)%Z as L by lia.
    pose proof (powerRZ_2_le _ _ L). lra.
Qed.

Lemma binary64_le (a b : R) : a <= b -> binary64 a <= binary64 b.
Proof.
  intros H. unfold binary64.
  destruct (Rlt_dec 0 a) as [A|A], (Rlt_dec 0 b) as [B|B]; try (exfalso; lra).
  - now apply round_positive_le.
  - pose proof (round_positive_range b B) as [[Hb _] _].
    destruct (Rlt_dec a 0) as [A'|A'].
    + assert (0 < - a) as Ha by lra.
      pose proof (round_positive_range (- a) Ha) as [[Ha' _] _]. lra.
    + lra.
  - destruct (Rlt_dec a 0) as [A'|A'], (Rlt_dec b 0) as [B'|B']; try (exfalso; lra).
    + pose proof (round_positive_le (- b) (- a)). lra.
    + assert (0 < - a) as Ha by lra.
      pose proof (round_positive_range (- a) Ha) as [[Ha' _] _]. lra.
    + lra.
Qed.

Lemma binary64_error (a : R) :
  Rabs (binary64 a - a) <= / 9007199254740992 * Rabs a + powerRZ 2 (- 1075).
Proof.
  unfold binary64.
  destruct (Rlt_dec 0 a) as [A|A].
  - rewrite (Rabs_pos_eq a) by lra. now apply round_positive_error.
  - destruct (Rlt_dec a 0) as [A'|A'].
    + rewrite (Rabs_left a) by lra.
      replace (- round_positive (- a) - a) with (- (round_positive (- a) - - a)) by ring.
      rewrite Rabs_Ropp. apply round_positive_error. lra.
    + replace a with 0 by lra. rewrite Rminus_0_r, Rabs_R0.
      pose proof (powerRZ_lt 2 (- 1075) two_pos). lra.
Qed.

Lemma binary64_0 : binary64 0 = 0.
Proof.
  unfold binary64. destruct (Rlt_dec 0 0); [exfalso; lra|].
  destruct (Rlt_dec 0 0); [exfalso; lra|]. reflexivity.
Qed.

Lemma powerRZ_2_IZR (k : Z) : (0 <= k)%Z -> powerRZ 2 k = IZR (2 ^ k).
Proof.
  intros H. rewrite <- (Z2Nat.id k H) at 1 2.
  rewrite <- pow_powerRZ, pow_IZR. reflexivity.
Qed.

Lemma powerRZ_2_lt_inv (m n : Z) : powerRZ 2 m < powerRZ 2 n -> (m < n)%Z.
Proof.
  intros H. destruct (Z_lt_le_dec m n) as [L|L]; [exact L|].
  pose proof (powerRZ_2_le n m L). lra.
Qed.

(** The exponent of a number of a known binade. *)
Lemma exponent_binade (a : R) (e : Z) :
  (- 1074 <= e)%Z -> powerRZ 2 (e + 52) <= a < powerRZ 2 (e + 53) ->
  exponent a = e.
Proof.
  intros He [H1 H2].
  assert (0 < a) as Ha by (pose proof (powerRZ_lt 2 (e + 52) two_pos); lra).
  pose proof (binade a Ha) as [B2 B1].
  assert (e <= exponent a)%Z.
  { assert (e + 52 < exponent a + 53)%Z; [|lia]. apply powerRZ_2_lt_inv. lra. }
  destruct (normal_range_dec a) as [Hn | Hx]; [|lia].
  specialize (B1 Hn).
  assert (exponent a + 52 < e + 53)%Z; [|lia]. apply powerRZ_2_lt_inv. lra.
Qed.

(** The exponent of [n * 2^k] with [n] of at most 53 bits is at most [k]. *)
Lemma exponent_representable (n k : Z) :
  (0 < n < 2 ^ 53)%Z -> (- 1074 <= k)%Z ->
  (exponent (IZR n * powerRZ 2 k) <= k)%Z.
Proof.
  intros [Hn0 Hn] Hk.
  pose proof (powerRZ_lt 2 k two_pos) as P.
  assert (0 < IZR n * powerRZ 2 k) as Ha
    by (apply Rmult_lt_0_compat; [now apply IZR_lt | exact P]).
  destruct (normal_range_dec (IZR n * powerRZ 2 k)) as [Hnorm | Hx]; [|lia].
  pose proof (binade _ Ha) as [_ B]. specialize (B Hnorm).
  assert (exponent (IZR n * powerRZ 2 k) + 52 < k + 53)%Z; [|lia].
  apply powerRZ_2_lt_inv. apply Rle_lt_trans with (1 := B).
  rewrite (powerRZ_2_split k 53), powerRZ_2_53.
  apply Rmult_lt_compat_r; [exact P|]. apply IZR_lt. exact Hn.
Qed.

Lemma round_positive_representable (n k : Z) :
  (0 < n < 2 ^ 53)%Z -> (- 1074 <= k)%Z ->
  round_positive (IZR n * powerRZ 2 k) = IZR n * powerRZ 2 k.
Proof.
  intros Hn Hk. pose proof (exponent_representable n k Hn Hk) as He.
  unfold round_positive. set (e := exponent (IZR n * powerRZ 2 k)) in *.
  assert (powerRZ 2 k = IZR (2 ^ (k - e)) * powerRZ 2 e) as Hsplit.
  { rewrite <- powerRZ_2_IZR by lia. rewrite <- powerRZ_2_split. f_equal. lia. }
  rewrite Hsplit at 1.
  replace (IZR n * (IZR (2 ^ (k - e)) * powerRZ 2 e) * powerRZ 2 (- e))
    with (IZR n * IZR (2 ^ (k - e)) * (powerRZ 2 (- e) * powerRZ 2 e)) by ring.
  rewrite powerRZ_2_cancel, Rmult_1_r, <- mult_IZR, nearest_even_IZR, mult_IZR, Hsplit.
  ring.
Qed.

(** Numbers [n * 2^k] with [|n| < 2^53] and [k >= -1074] are binary64
    values: rounding leaves them as they are. *)
Lemma binary64_representable (n k : Z) :
  (Z.abs n < 2 ^ 53)%Z -> (- 1074 <= k)%Z ->
  binary64 (IZR n * powerRZ 2 k) = IZR n * powerRZ 2 k.
Proof.
  intros Hn Hk. pose proof (powerRZ_lt 2 k two_pos) as P. unfold binary64.
  destruct (Z.lt_trichotomy n 0) as [Hneg | [-> | Hpos]].
  - assert (IZR n < 0) as H by now apply IZR_lt.
    assert (IZR n * powerRZ 2 k < 0) as H' by nra.
    destruct (Rlt_dec 0 _) as [A|A]; [exfalso; lra|].
    destruct (Rlt_dec _ 0) as [B|B]; [|exfalso; lra].
    replace (- (IZR n * powerRZ 2 k)) with (IZR (- n) * powerRZ 2 k)
      by (rewrite opp_IZR; ring).
    rewrite round_positive_representable by lia. rewrite opp_IZR. ring.
  - rewrite Rmult_0_l.
    destruct (Rlt_dec 0 0); [exfalso; lra|]. destruct (Rlt_dec 0 0); [exfalso; lra|].
    reflexivity.
  - assert (0 < IZR n) as H by now apply IZR_lt.
    assert (0 < IZR n * powerRZ 2 k) as H' by nra.
    destruct (Rlt_dec 0 _) as [A|A]; [|exfalso; lra].
    apply round_positive_representable; lia.
Qed.

Lemma binary64_integer (n : Z) :
  (Z.abs n < 2 ^ 53)%Z -> binary64 (IZR n) = IZR n.
Proof.
  intros H. pose proof (binary64_representable n 0 H) as E.
  change (powerRZ 2 0) with 1 in E. rewrite Rmult_1_r in E. apply E. lia.
Qed.

(** A tie: 9999999999999997 lies half way between two binary64 values and
    rounds to the one with the even significand. *)
Lemma binary64_tie : binary64 9999999999999997 = 9999999999999996.
Proof.
  unfold binary64. destruct (Rlt_dec 0 9999999999999997) as [_|A]; [|exfalso; lra].
  assert (exponent 9999999999999997 = 1%Z) as E.
  { apply exponent_binade; [lia|].
    change (1 + 52)%Z with 53%Z. change (1 + 53)%Z with (53 + 1)%Z.
    rewrite (powerRZ_2_split 53 1), powerRZ_2_53.
    change (powerRZ 2 1) with (2 * 1). lra. }
  unfold round_positive. rewrite E.
  change (powerRZ 2 (- (1))) with (/ (2 * 1)). change (powerRZ 2 1) with (2 * 1).
  assert (nearest_even (9999999999999997 * / (2 * 1)) = 4999999999999998%Z) as N.
  { assert (Int_part (9999999999999997 * / (2 * 1)) = 4999999999999998%Z) as F
      by (symmetry; apply Int_part_spec; lra).
    unfold nearest_even. cbv zeta. rewrite F.
    destruct (Rlt_dec _ _) as [H|H]; [exfalso; lra|].
    destruct (Rlt_dec _ _) as [H'|H']; [exfalso; lra|]. reflexivity. }
  rewrite N. lra.
Qed.

Lemma binary64_eta_range : 0 < binary64_eta <= / 1048576.
Proof.
  unfold binary64_eta. split; [apply powerRZ_lt, two_pos|].
  apply Rle_trans with (powerRZ 2 (- 20)); [apply powerRZ_2_le; lia|].
  unfold powerRZ. rewrite pow_IZR.
  change (2 ^ Z.of_nat (Pos.to_nat 20))%Z with 1048576%Z. lra.
Qed.

Lemma binary64_omega_range : 4096 <= binary64_omega.
Proof.
  unfold binary64_omega.
  apply Rle_trans with (powerRZ 2 12); [|apply powerRZ_2_le; lia].
  unfold powerRZ. rewrite pow_IZR.
  change (2 ^ Z.of_nat (Pos.to_nat 12))%Z with 4096%Z. lra.
Qed.

(** [binary64] satisfies the standard model with [u = 2^-53] and
    [eta = 2^-1075]. *)
Lemma binary64_standard (omega : R) :
  standard binary64 binary64_u binary64_eta omega.
Proof.
  constructor.
  - intros a _. apply binary64_error.
  - apply binary64_le.
  - apply binary64_0.
Qed.

End Binary64Facts.

(** In an arithmetic that rounds every operation
    within the standard error bounds, when a [move_to] command is activated
    and the move is within the precision of the arithmetic (the coordinates
    of the target and the distance to it are at most [size], and
    [|1 - rate| + 27 * (u * size + eta) < 1] for the rate
    [(speed || 50) / 2500], which puts the rate strictly between 0 and 2),
    then the target is the command's [{x, y, z}] and stays so under ticks,
    every tick at a positive distance strictly decreases the distance from
    [currentPosition] to [targetPosition], and after finitely many ticks the
    test [distance < 2] succeeds, upon which the tick makes
    [currentPosition] equal to [targetPosition]. *)
Lemma rounded_moveTo_converges (rnd : R -> R) (u eta omega size : R)
    (m0 : Rounded.motion) (tx ty tz : R) (speed : option R)
    (Hrnd : Rounded.standard rnd u eta omega)
    (Hprecision :
       Rounded.within_precision u eta omega size
         (Rounded.move_to rnd tx ty tz speed m0)) :
  let m := Rounded.move_to rnd tx ty tz speed m0 in
  Rounded.targetPosition m = Rounded.mkVec tx ty tz /\
  Rounded.animationSpeed m = rnd (Rounded.or_50 speed / 2500)%R /\
  (forall n : nat,
     Rounded.targetPosition (Rounded.ticks rnd n m) = Rounded.mkVec tx ty tz /\
     ((0 < Rounded.remaining (Rounded.ticks rnd n m))%R ->
      (Rounded.remaining (Rounded.ticks rnd (S n) m) <
       Rounded.remaining (Rounded.ticks rnd n m))%R)) /\
  (exists N : nat,
     Rounded.arrives rnd (Rounded.ticks rnd N m) = true /\
     Rounded.currentPosition (Rounded.ticks rnd (S N) m) = Rounded.mkVec tx ty tz).
Proof.
  cbv zeta. set (m := Rounded.move_to rnd tx ty tz speed m0) in *.
  destruct Hprecision as [Hu Heta Hsize Homega Htarget Hdistance Hrate].
  assert (Rounded.on_the_way size (Rounded.targetPosition m) (Rounded.animationSpeed m) m)
    as Hm by (split; [reflexivity | split; [reflexivity | exact Hdistance]]).
  pose proof (ticks_on_the_way rnd u eta omega Hrnd Hu Heta size Hsize Homega
                (Rounded.targetPosition m) (Rounded.animationSpeed m) Htarget Hrate)
    as Hticks.
  split; [reflexivity|]. split; [reflexivity|]. split.
  - intros n. destruct (Hticks n m Hm) as (Ht & _). split; [exact Ht|].
    intros Hpos. change (Rounded.ticks rnd (S n) m)
      with (Rounded.animate rnd (Rounded.ticks rnd n m)).
    apply (rounded_animate_closer rnd u eta omega Hrnd Hu Heta size Hsize Homega
             (Rounded.targetPosition m) (Rounded.animationSpeed m) Htarget Hrate);
      [apply Hticks, Hm | exact Hpos].
  - destruct (arrives_eventually rnd u eta omega Hrnd Hu Heta size Hsize Homega
                (Rounded.targetPosition m) (Rounded.animationSpeed m) Htarget Hrate m Hm)
      as [N HN].
    exists N. split; [exact HN|].
    change (Rounded.ticks rnd (S N) m)
      with (Rounded.animate rnd (Rounded.ticks rnd N m)).
    rewrite (rounded_animate_arrived rnd _ HN).
    destruct (Hticks N m Hm) as (Ht & _). exact Ht.
Qed.

(** C1, as the code has it.  In the arithmetic of JavaScript numbers
    (every operation rounded to the nearest binary64 value, [u = 2^-53],
    [eta = 2^-1075]), when a [move_to] command is activated and the move is
    within the precision of the arithmetic (the coordinates of the target
    and the distance to it are at most [size], and
    [|1 - rate| + 27 * (u * size + eta) < 1] for the computed rate
    [(speed || 50) / 2500], which puts the rate strictly between 0 and 2),
    then the target is the command's [{x, y, z}] and stays so under ticks,
    every tick at a positive distance strictly decreases the distance from
    [currentPosition] to [targetPosition], and after finitely many ticks the
    test [distance < 2] succeeds, upon which the tick makes
    [currentPosition] equal to [targetPosition]. *)
Theorem moveTo_converges (size : R) (m0 : Rounded.motion) (tx ty tz : R)
    (speed : option R)
    (Hsize : (1 <= size)%R)
    (Htarget : (Rabs tx <= size /\ Rabs ty <= size /\ Rabs tz <= size)%R)
    (Hdistance :
       (Rounded.remaining (Rounded.move_to Rounded.binary64 tx ty tz speed m0)
        <= size)%R)
    (Hrate :
       (Rabs (1 - Rounded.binary64 (Rounded.or_50 speed / 2500)) +
        27 * (Rounded.binary64_u * size + Rounded.binary64_eta) < 1)%R) :
  let m := Rounded.move_to Rounded.binary64 tx ty tz speed m0 in
  Rounded.targetPosition m = Rounded.mkVec tx ty tz /\
  Rounded.animationSpeed m = Rounded.binary64 (Rounded.or_50 speed / 2500)%R /\
  (forall n : nat,
     Rounded.targetPosition (Rounded.ticks Rounded.binary64 n m) = Rounded.mkVec tx ty tz /\
     ((0 < Rounded.remaining (Rounded.ticks Rounded.binary64 n m))%R ->
      (Rounded.remaining (Rounded.ticks Rounded.binary64 (S n) m) <
       Rounded.remaining (Rounded.ticks Rounded.binary64 n m))%R)) /\
  (exists N : nat,
     Rounded.arrives Rounded.binary64 (Rounded.ticks Rounded.binary64 N m) = true /\
     Rounded.currentPosition (Rounded.ticks Rounded.binary64 (S N) m) =
     Rounded.mkVec tx ty tz).
Proof.
  apply (rounded_moveTo_converges Rounded.binary64 Rounded.binary64_u
           Rounded.binary64_eta Rounded.binary64_omega size m0 tx ty tz speed
           (binary64_standard Rounded.binary64_omega)).
  pose proof binary64_eta_range as Heta.
  pose proof (Rabs_pos (1 - Rounded.binary64 (Rounded.or_50 speed / 2500))) as Habs.
  unfold Rounded.binary64_u in *.
  constructor; try lra; try assumption.
  assert (size <= 562949953421312)%R as Hbound by lra.
  assert (size * size <= 562949953421312 * 562949953421312)%R as Hsquare by nra.
  apply Rle_trans with (powerRZ 2 102).
  - rewrite powerRZ_2_IZR by lia.
    change (2 ^ 102)%Z with 5070602400912917605986812821504%Z. lra.
  - unfold Rounded.binary64_omega. apply powerRZ_2_le. lia.
Qed.

Lemma moveTo_converges_witness :
  let m :=
    Rounded.move_to Rounded.binary64 10 0 0 (Some 50%R)
      (Rounded.mkMotion (Rounded.mkVec 0 0 0) (Rounded.mkVec 0 0 0) (2 / 100)) in
  Rounded.targetPosition m = Rounded.mkVec 10 0 0 /\
  Rounded.animationSpeed m = Rounded.binary64 (Rounded.or_50 (Some 50%R) / 2500)%R /\
  (forall n : nat,
     Rounded.targetPosition (Rounded.ticks Rounded.binary64 n m) = Rounded.mkVec 10 0 0 /\
     ((0 < Rounded.remaining (Rounded.ticks Rounded.binary64 n m))%R ->
      (Rounded.remaining (Rounded.ticks Rounded.binary64 (S n) m) <
       Rounded.remaining (Rounded.ticks Rounded.binary64 n m))%R)) /\
  (exists N : nat,
     Rounded.arrives Rounded.binary64 (Rounded.ticks Rounded.binary64 N m) = true /\
     Rounded.currentPosition (Rounded.ticks Rounded.binary64 (S N) m) =
     Rounded.mkVec 10 0 0).
Proof.
  assert (Rounded.or_50 (Some 50%R) = 50%R) as Hspeed.
  { unfold Rounded.or_50. destruct (Req_dec_T 50 0); reflexivity. }
  apply (moveTo_converges 16
           (Rounded.mkMotion (Rounded.mkVec 0 0 0) (Rounded.mkVec 0 0 0) (2 / 100))
           10 0 0 (Some 50%R)).
  - lra.
  - rewrite Rabs_R0, (Rabs_pos_eq 10) by lra. lra.
  - unfold Rounded.remaining. cbn. apply norm_le; lra.
  - rewrite Hspeed.
    pose proof binary64_eta_range as Heta.
    pose proof (binary64_error (50 / 2500)) as E.
    rewrite (Rabs_pos_eq (50 / 2500)) in E by lra.
    fold Rounded.binary64_eta in E. unfold Rounded.binary64_u.
    apply Rabs_between in E.
    rewrite Rabs_pos_eq by lra. lra.
Defined.

(** The engine's motion in exact arithmetic is another case of the rounded
    motion: the move of the demonstration arrives there as well. *)
Lemma moveTo_converges_in_exact_arithmetic :
  let exact := fun a : R => a in
  let m :=
    Rounded.move_to exact 10 0 0 (Some 50%R)
      (Rounded.mkMotion (Rounded.mkVec 0 0 0) (Rounded.mkVec 0 0 0) (2 / 100)) in
  exists N : nat,
    Rounded.arrives exact (Rounded.ticks exact N m) = true /\
    Rounded.currentPosition (Rounded.ticks exact (S N) m) = Rounded.mkVec 10 0 0.
Proof.
  apply (rounded_moveTo_converges (fun a : R => a) 0 0 4096 16
           (Rounded.mkMotion (Rounded.mkVec 0 0 0) (Rounded.mkVec 0 0 0) (2 / 100))
           10 0 0 (Some 50%R)).
  - constructor.
    + intros a _. replace (a - a)%R with 0%R by ring. rewrite Rabs_R0.
      pose proof (Rabs_pos a). lra.
    + intros a b H. exact H.
    + reflexivity.
  - assert (Rounded.or_50 (Some 50%R) = 50%R) as Hspeed.
    { unfold Rounded.or_50. destruct (Req_dec_T 50 0); reflexivity. }
    constructor; try lra.
    + cbn. rewrite Rabs_R0, (Rabs_pos_eq 10) by lra. lra.
    + unfold Rounded.remaining. cbn. apply norm_le; lra.
    + cbn [Rounded.move_to Rounded.animationSpeed]. unfold Rounded.div.
      rewrite Hspeed. replace (1 - 50 / 2500)%R with (49 / 50)%R by field.
      rewrite Rabs_pos_eq by lra. lra.
Qed.

(** The rounded model on [binary64] shows the stall of the double
    arithmetic: a move to [x = 1e16] at speed 625 has the rate [1/4]; at
    [x = 9999999999999996] the gap is 4, the step [4 * 1/4] is rounded away
    (a tie, to the even significand), so that the tick changes nothing and
    the test [distance < 2] never succeeds.  No [size] puts this move within
    the precision of [binary64]. *)
Lemma binary64_stalls_before_1e16 :
  let start := Rounded.mkMotion (Rounded.mkVec 0 0 0) (Rounded.mkVec 0 0 0) (2 / 100) in
  let stalled :=
    Rounded.mkMotion (Rounded.mkVec 9999999999999996 0 0)
                     (Rounded.mkVec 10000000000000000 0 0) (1 / 4) in
  Rounded.animationSpeed
    (Rounded.move_to Rounded.binary64 10000000000000000 0 0 (Some 625%R) start) =
  (1 / 4)%R /\
  Rounded.distance Rounded.binary64 stalled = 4%R /\
  Rounded.arrives Rounded.binary64 stalled = false /\
  Rounded.animate Rounded.binary64 stalled = stalled /\
  (forall n : nat, Rounded.ticks Rounded.binary64 n stalled = stalled) /\
  (forall omega size : R,
     ~ Rounded.within_precision Rounded.binary64_u Rounded.binary64_eta omega size
         (Rounded.move_to Rounded.binary64 10000000000000000 0 0 (Some 625%R) start)).
Proof.
  cbv zeta.
  assert (Rounded.binary64 (1 / 4) = (1 / 4)%R) as Hquarter.
  { pose proof (binary64_representable 1 (- 2)) as E.
    change (powerRZ 2 (- 2)) with (/ (2 * (2 * 1)))%R in E.
    replace (1 * / (2 * (2 * 1)))%R with (1 / 4)%R in E by field.
    apply E; [reflexivity | lia]. }
  assert (Rounded.binary64 0 = 0%R) as H0 by apply binary64_0.
  assert (Rounded.binary64 1 = 1%R) as H1 by (apply (binary64_integer 1); reflexivity).
  assert (Rounded.binary64 4 = 4%R) as H4 by (apply (binary64_integer 4); reflexivity).
  assert (Rounded.binary64 16 = 16%R) as H16 by (apply (binary64_integer 16); reflexivity).
  assert (Rounded.distance Rounded.binary64
            (Rounded.mkMotion (Rounded.mkVec 9999999999999996 0 0)
               (Rounded.mkVec 10000000000000000 0 0) (1 / 4)) = 4%R) as Hdistance.
  { unfold Rounded.distance, Rounded.root, Rounded.add, Rounded.mul, Rounded.sub.
    cbn [Rounded.targetPosition Rounded.currentPosition Rounded.x Rounded.y Rounded.z].
    replace (10000000000000000 - 9999999999999996)%R with 4%R by lra.
    replace (0 - 0)%R with 0%R by lra. rewrite H4, H0.
    replace (4 * 4)%R with 16%R by lra. replace (0 * 0)%R with 0%R by lra.
    rewrite H16, H0. replace (16 + 0)%R with 16%R by lra. rewrite H16.
    replace (16 + 0)%R with 16%R by lra. rewrite H16.
    replace 16%R with (4 * 4)%R by lra. rewrite sqrt_square by lra. exact H4. }
  assert (Rounded.arrives Rounded.binary64
            (Rounded.mkMotion (Rounded.mkVec 9999999999999996 0 0)
               (Rounded.mkVec 10000000000000000 0 0) (1 / 4)) = false) as Harrives.
  { unfold Rounded.arrives. rewrite Hdistance.
    destruct (Rlt_dec 4 2) as [H|H]; [exfalso; lra | reflexivity]. }
  assert (Rounded.animate Rounded.binary64
            (Rounded.mkMotion (Rounded.mkVec 9999999999999996 0 0)
               (Rounded.mkVec 10000000000000000 0 0) (1 / 4)) =
          Rounded.mkMotion (Rounded.mkVec 9999999999999996 0 0)
            (Rounded.mkVec 10000000000000000 0 0) (1 / 4)) as Hanimate.
  { unfold Rounded.animate. rewrite Harrives.
    cbn [Rounded.targetPosition Rounded.currentPosition Rounded.animationSpeed
         Rounded.x Rounded.y Rounded.z].
    unfold Rounded.step, Rounded.add, Rounded.mul, Rounded.sub.
    replace (10000000000000000 - 9999999999999996)%R with 4%R by lra.
    replace (0 - 0)%R with 0%R by lra. rewrite H4, H0.
    replace (4 * (1 / 4))%R with 1%R by lra. replace (0 * (1 / 4))%R with 0%R by lra.
    rewrite H1, H0. replace (0 + 0)%R with 0%R by lra. rewrite H0.
    replace (9999999999999996 + 1)%R with 9999999999999997%R by lra.
    rewrite binary64_tie. reflexivity. }
  split; [|split; [exact Hdistance | split; [exact Harrives | split; [exact Hanimate | split]]]].
  - cbn [Rounded.move_to Rounded.animationSpeed]. unfold Rounded.div, Rounded.or_50.
    destruct (Req_dec_T 625 0) as [H|_]; [exfalso; lra|].
    replace (625 / 2500)%R with (1 / 4)%R by lra. exact Hquarter.
  - intros n. induction n as [|n IH]; [reflexivity|].
    change (Rounded.ticks Rounded.binary64 (S n) ?m)
      with (Rounded.animate Rounded.binary64 (Rounded.ticks Rounded.binary64 n m)).
    rewrite IH. exact Hanimate.
  - intros omega size [_ Heta _ _ [Hx _] _ Hrate].
    cbn [Rounded.move_to Rounded.targetPosition Rounded.animationSpeed Rounded.x] in Hx, Hrate.
    unfold Rounded.div, Rounded.or_50 in Hrate.
    destruct (Req_dec_T 625 0) as [H|_]; [lra|].
    replace (625 / 2500)%R with (1 / 4)%R in Hrate by lra. rewrite Hquarter in Hrate.
    rewrite Rabs_pos_eq in Hx by lra. rewrite Rabs_pos_eq in Hrate by lra.
    unfold Rounded.binary64_u in Hrate. lra.
Qed.

(** The engine of this development computes in exact arithmetic: on an
    engine in the middle of a move its tick is the rounded tick with the
    rounding that changes nothing. *)
Lemma animate_is_the_exact_tick (rate : Q) (e : engine) :
  moving rate e ->
  real_motion (animate e) = Rounded.animate (fun a : R => a) (real_motion e).
Proof.
  intros Hm.
  assert (Rounded.distance (fun a : R => a) (real_motion e) = remaining e) as Hdist.
  { destruct Hm as [_ Hc Ht _].
    unfold Rounded.distance, Rounded.root, Rounded.add, Rounded.mul, Rounded.sub,
      remaining, Vec.distance, Vec.dist2, real_motion, real_vec.
    cbn [Rounded.targetPosition Rounded.currentPosition Rounded.x Rounded.y Rounded.z].
    f_equal. rewrite !Q2R_plus, !Q2R_mult, !Q2R_minus. reflexivity. }
  assert (Rounded.arrives (fun a : R => a) (real_motion e) =
          if Qlt_le_dec (remaining2 e) 4 then true else false) as Harr.
  { unfold Rounded.arrives. rewrite Hdist.
    pose proof (remaining_lt_2 e) as H.
    destruct (Rlt_dec (remaining e) 2) as [Hlt | Hge],
             (Qlt_le_dec (remaining2 e) 4) as [Hlt' | Hge']; try reflexivity.
    - apply H in Hlt. apply Qle_not_lt in Hge'. contradiction.
    - apply H in Hlt'. contradiction. }
  unfold Rounded.animate. rewrite Harr.
  destruct (animate_cases rate e Hm) as [[Hlt ->] | [Hge ->]].
  - destruct (Qlt_le_dec (remaining2 e) 4) as [_ | Hge]; [|apply Qle_not_lt in Hge; contradiction].
    unfold real_motion.
    change (currentPosition (set_position ?v ?a)) with (currentPosition a).
    change (targetPosition (set_position ?v ?a)) with (targetPosition a).
    change (animationSpeed (set_position ?v ?a)) with (animationSpeed a).
    destruct (completeCurrentCommand_pose
                (set_currentPosition (targetPosition e)
                   (set_currentPosition (interpolated e) e))) as (-> & -> & _ & ->).
    reflexivity.
  - destruct (Qlt_le_dec (remaining2 e) 4) as [Hlt | _]; [apply Qle_not_lt in Hge; contradiction|].
    unfold real_motion.
    change (currentPosition (set_position ?v ?a)) with (currentPosition a).
    change (targetPosition (set_position ?v ?a)) with (targetPosition a).
    change (animationSpeed (set_position ?v ?a)) with (animationSpeed a).
    cbn [currentPosition targetPosition animationSpeed set_currentPosition].
    f_equal.
    destruct Hm as [_ Hc Ht Hr]. unfold interpolated. rewrite Hr.
    destruct (targetPosition e) as [[| |tx] [| |ty] [| |tz]]; try contradiction.
    destruct (currentPosition e) as [[| |cx] [| |cy] [| |cz]]; try contradiction.
    unfold real_vec, Rounded.step, Rounded.add, Rounded.mul, Rounded.sub,
      JS.add, JS.mul, JS.sub.
    cbn [Vec.x Vec.y Vec.z Vec.coord Rounded.x Rounded.y Rounded.z
         Rounded.currentPosition Rounded.targetPosition Rounded.animationSpeed].
    f_equal;
      (rewrite <- Q2R_minus, <- Q2R_mult, <- Q2R_plus; apply Qeq_eqR;
       rewrite !Qred_correct; reflexivity).
Qed.

(** The same for the activation of a [move_to] with numeric coordinates. *)
Lemma executeNextCommand_is_the_exact_move_to (e : engine) (c : Command.t)
    (tx ty tz : Q) :
  isPaused e = false ->
  commandQueue e !! currentCommandIndex e = Some c ->
  Command.action c = "move_to"%string ->
  Command.x c = JS.Fin tx -> Command.y c = JS.Fin ty -> Command.z c = JS.Fin tz ->
  real_motion (executeNextCommand e) =
  Rounded.move_to (fun a : R => a) (Q2R tx) (Q2R ty) (Q2R tz)
    (real_speed (Command.speed c)) (real_motion e).
Proof.
  intros Hp Hc Ha Hx Hy Hz.
  rewrite (executeNextCommand_move_to e c Hp Hc Ha), Hx, Hy, Hz.
  unfold real_motion, Rounded.move_to, Rounded.div.
  cbn [currentPosition targetPosition animationSpeed set_animationSpeed
       set_targetPosition Rounded.currentPosition].
  f_equal.
  assert (Q2R (50 / 2500) = (50 / 2500)%R) as H50.
  { rewrite Q2R_div by discriminate. unfold Q2R. simpl. lra. }
  assert (Q2R 2500 = 2500%R) as H2500 by (unfold Q2R; simpl; lra).
  destruct (Command.speed c) as [| |q]; cbn [real_speed Rounded.or_50].
  - unfold JS.or, JS.div. cbn. rewrite <- H50. apply Qeq_eqR. apply Qred_correct.
  - unfold JS.or, JS.div. cbn. rewrite <- H50. apply Qeq_eqR. apply Qred_correct.
  - unfold JS.or, JS.truthy.
    destruct (Qeq_bool q 0) eqn:Eq; cbn [negb].
    + apply Qeq_bool_eq in Eq. apply Qeq_eqR in Eq. rewrite Q2R_0 in Eq.
      destruct (Req_dec_T (Q2R q) 0) as [_ | Hne]; [|contradiction].
      unfold JS.div. cbn. rewrite <- H50. apply Qeq_eqR. apply Qred_correct.
    + apply Qeq_bool_neq in Eq.
      destruct (Req_dec_T (Q2R q) 0) as [H0 | _].
      * exfalso. apply Eq. apply eqR_Qeq. rewrite Q2R_0. exact H0.
      * unfold JS.div. cbn [Qeq_bool Vec.coord].
        change (Qeq_bool 2500 0) with false. cbv iota.
        cbn [Vec.coord]. rewrite <- H2500, <- Q2R_div by discriminate.
        apply Qeq_eqR. apply Qred_correct.
Qed.

(** ** The demonstration run on a periodic display *)

Section Demo.

Implicit Type e : engine.

Lemma millisecond_idle e : timers e = [] -> millisecond e = e.
Proof. intros H. destruct e. simpl in H. subst. reflexivity. Qed.

Lemma frame_idle (period : nat) e : timers e = [] -> frame period e = animate e.
Proof.
  intros H. unfold frame. f_equal.
  induction period as [|p IH]; [reflexivity|].
  rewrite Nat.iter_succ, IH. apply millisecond_idle, H.
Qed.

(** While no timer is pending the frames are plain ticks, whatever the
    period. *)
Lemma quiet_ticks_frames (period n : nat) e e' :
  quiet_ticks n e = Some e' -> frames period n e = e'.
Proof.
  revert e'. induction n as [|n IH]; intros e' H; simpl in H.
  - injection H as <-. reflexivity.
  - destruct (quiet_ticks n e) as [e1|]; [|discriminate H].
    destruct (timers e1) eqn:Ht; [|discriminate H].
    injection H as <-. unfold frames. rewrite Nat.iter_succ.
    fold (frames period n e). rewrite (IH e1 eq_refl).
    apply frame_idle, Ht.
Qed.

Lemma iter_millisecond_idle (k : nat) e :
  timers e = [] -> Nat.iter k millisecond e = e.
Proof.
  intros H. induction k as [|k IH]; [reflexivity|].
  rewrite Nat.iter_succ, IH. apply millisecond_idle, H.
Qed.

Lemma wait_0 e : wait 0 e = e.
Proof.
  destruct e as [p t c g a s q i pa ts]. unfold wait, set_timers. simpl. f_equal.
  induction ts as [|[d cb] ts IH]; simpl; [reflexivity|].
  rewrite Nat.sub_0_r. f_equal. exact IH.
Qed.

Lemma wait_wait (a b : nat) e : wait a (wait b e) = wait (b + a) e.
Proof.
  unfold wait, set_timers. simpl. f_equal.
  rewrite List.map_map. apply List.map_ext. intros [d cb]. simpl.
  f_equal. lia.
Qed.

Lemma filter_none {A : Type} (f : A -> bool) (l : list A) :
  (forall x, In x l -> f x = false) -> List.filter f l = [].
Proof.
  induction l as [|x l IH]; intros H; simpl; [reflexivity|].
  rewrite (H x (or_introl eq_refl)). apply IH. intros y Hy. apply H. right. exact Hy.
Qed.

Lemma filter_all {A : Type} (f : A -> bool) (l : list A) :
  (forall x, In x l -> f x = true) -> List.filter f l = l.
Proof.
  induction l as [|x l IH]; intros H; simpl; [reflexivity|].
  rewrite (H x (or_introl eq_refl)). f_equal. apply IH.
  intros y Hy. apply H. right. exact Hy.
Qed.

(** A millisecond in which nothing is due only shortens the waits. *)
Lemma millisecond_wait e :
  (forall t, In t (timers e) -> (2 <= fst t)%nat) -> millisecond e = wait 1 e.
Proof.
  intros H. unfold millisecond.
  rewrite filter_none, filter_all.
  - simpl. unfold wait. f_equal. apply List.map_ext. intros [d cb]. simpl.
    f_equal. lia.
  - intros t Ht. specialize (H t Ht).
    destruct (Nat.leb_spec (fst t) 1); [lia | reflexivity].
  - intros t Ht. specialize (H t Ht).
    destruct (Nat.leb_spec (fst t) 1); [lia | reflexivity].
Qed.

Lemma iter_millisecond_wait (k : nat) e :
  (forall t, In t (timers e) -> (k < fst t)%nat) ->
  Nat.iter k millisecond e = wait k e.
Proof.
  induction k as [|k IH]; intros H.
  - symmetry. apply wait_0.
  - rewrite Nat.iter_succ, IH by (intros t Ht; specialize (H t Ht); lia).
    rewrite millisecond_wait.
    + rewrite wait_wait. f_equal. lia.
    + intros t Ht. unfold wait in Ht. simpl in Ht.
      apply in_map_iff in Ht as ([d cb] & <- & Hin).
      specialize (H _ Hin). simpl in *. lia.
Qed.

Lemma fold_min_le (l : list nat) (a : nat) :
  (fold_left Nat.min l a <= a)%nat /\
  forall x, In x l -> (fold_left Nat.min l a <= x)%nat.
Proof.
  revert a. induction l as [|y l IH]; intros a; simpl.
  - split; [lia | intros x []].
  - destruct (IH (Nat.min a y)) as [H1 H2]. split; [lia|].
    intros x [<- | Hx]; [lia | apply H2, Hx].
Qed.

Lemma next_deadline_le (ts : list (nat * callback)) (d : nat) :
  next_deadline ts = Some d -> forall t, In t ts -> (d <= fst t)%nat.
Proof.
  destruct ts as [|t0 ts]; simpl; [discriminate|].
  intros [= <-] t [<- | Ht].
  - apply (proj1 (fold_min_le _ _)).
  - apply (proj2 (fold_min_le _ _)). apply in_map, Ht.
Qed.

(** Jumping between deadlines is the same as stepping through every
    millisecond. *)
Lemma elapse_spec (fuel dt : nat) e :
  elapse fuel dt e = Nat.iter dt millisecond e.
Proof.
  revert dt e. induction fuel as [|fuel IH]; intros dt e; [reflexivity|].
  cbn [elapse]. destruct (next_deadline (timers e)) as [d|] eqn:Hd.
  - pose proof (next_deadline_le _ _ Hd) as Hle.
    destruct (Nat.ltb_spec dt (Nat.max d 1)) as [Hlt | Hge].
    + destruct dt as [|dt]; [apply wait_0|].
      symmetry. apply iter_millisecond_wait.
      intros t Ht. specialize (Hle t Ht). lia.
    + rewrite IH.
      assert (wait (d - 1) e = Nat.iter (d - 1) millisecond e) as ->.
      { destruct d as [|d]; [apply wait_0|].
        symmetry. apply iter_millisecond_wait.
        intros t Ht. specialize (Hle t Ht). lia. }
      rewrite <- Nat.iter_succ, <- Nat.iter_add. f_equal. lia.
  - symmetry. apply iter_millisecond_idle.
    destruct (timers e); [reflexivity | discriminate Hd].
Qed.

Lemma fast_frames_spec (period n : nat) e :
  fast_frames period n e = frames period n e.
Proof.
  unfold fast_frames, frames. induction n as [|n IH]; [reflexivity|].
  rewrite !Nat.iter_succ, IH. unfold fast_frame, frame.
  rewrite elapse_spec. reflexivity.
Qed.

Local Open Scope Q_scope.

Lemma Qpow_nonneg (q : Q) (n : nat) : 0 <= q -> 0 <= Qpow q n.
Proof.
  intros Hq. induction n as [|n IH]; simpl; [lra|].
  apply Qmult_le_0_compat; assumption.
Qed.

Lemma Qpow_antitone (q : Q) (k m : nat) :
  0 <= q <= 1 -> (k <= m)%nat -> Qpow q m <= Qpow q k.
Proof.
  intros [H0 H1] Hkm. induction Hkm as [|m Hkm IH]; [lra|].
  simpl. pose proof (Qpow_nonneg q m H0). nra.
Qed.

Lemma quiet_ticks_succ (n : nat) e :
  quiet_ticks (S n) e =
  match quiet_ticks n e with
  | Some e' => match timers e' with
               | [] => Some (animate e')
               | _ :: _ => None
               end
  | None => None
  end.
Proof. reflexivity. Qed.

(** As long as the distance stays at or above the threshold, ticks of a
    moving engine with no timer pending only interpolate, and the squared
    distance after [n] of them is [(1 - rate)^(2n)] times the first. *)
Lemma quiet_ticks_interpolate (rate : Q) (n : nat) e :
  moving rate e -> timers e = [] -> position e = currentPosition e ->
  (forall k : nat, (k < n)%nat ->
     4 <= Qpow ((1 - rate) * (1 - rate)) k * remaining2 e) ->
  exists c : Vec.t,
    quiet_ticks n e = Some (set_position c (set_currentPosition c e)) /\
    Vec.finite c /\
    Vec.dist2 c (targetPosition e) ==
      Qpow ((1 - rate) * (1 - rate)) n * remaining2 e.
Proof.
  intros Hm Ht Hp. induction n as [|n IH]; intros Hfar.
  - exists (currentPosition e). split; [|split].
    + simpl. f_equal. destruct e. simpl in *. subst. reflexivity.
    + apply Hm.
    + simpl. unfold remaining2. lra.
  - destruct IH as (c & Hq & Hc & Hd); [intros k Hk; apply Hfar; lia|].
    set (e' := set_position c (set_currentPosition c e)) in *.
    assert (moving rate e') as Hm'.
    { destruct Hm as [Ha _ Htg Hr]. constructor; assumption. }
    assert (remaining2 e' == Qpow ((1 - rate) * (1 - rate)) n * remaining2 e) as Hrem
      by exact Hd.
    destruct (animate_cases rate e' Hm') as [[Hlt _] | [_ Hstep]].
    { specialize (Hfar n (Nat.lt_succ_diag_r n)). lra. }
    exists (interpolated e'). split; [|split].
    + rewrite quiet_ticks_succ, Hq. change (timers e') with (timers e).
      rewrite Ht. f_equal. exact Hstep.
    + apply (interpolated_finite rate e' Hm').
    + change (targetPosition e) with (targetPosition e').
      rewrite (interpolated_dist2 rate e' Hm'), Hrem. simpl. ring.
Qed.

Lemma demoStart_moving : moving (1 # 50) demoStart.
Proof. constructor; [reflexivity | exact I | exact I | reflexivity]. Qed.

(** The arm of the demonstration run is still two units or more away after
    79 ticks and closer than that after 80. *)
Lemma demo_threshold :
  4 <= Qpow ((1 - (1 # 50)) * (1 - (1 # 50))) 79 * remaining2 demoStart /\
  Qpow ((1 - (1 # 50)) * (1 - (1 # 50))) 80 * remaining2 demoStart < 4.
Proof. split; vm_compute; [discriminate | reflexivity]. Qed.

Lemma demo_arrives : quiet_ticks 81 demoStart = Some demoArrived.
Proof.
  destruct demo_threshold as [Hfar Hnear].
  destruct (quiet_ticks_interpolate (1 # 50) 80 demoStart demoStart_moving
              eq_refl eq_refl) as (c & Hq & Hc & Hd).
  { intros k Hk.
    assert (Qpow ((1 - (1 # 50)) * (1 - (1 # 50))) 79 <=
            Qpow ((1 - (1 # 50)) * (1 - (1 # 50))) k) as Hpow.
    { apply Qpow_antitone; [split; vm_compute; discriminate | lia]. }
    assert (0 <= remaining2 demoStart) as Hnn by apply remaining2_nonneg.
    nra. }
  rewrite (quiet_ticks_succ 80 demoStart), Hq.
  set (e' := set_position c (set_currentPosition c demoStart)) in *.
  change (timers e') with (@nil (nat * callback)). cbv iota beta.
  assert (moving (1 # 50) e') as Hm'.
  { constructor; [reflexivity | exact Hc | exact I | reflexivity]. }
  destruct (animate_cases (1 # 50) e' Hm') as [[_ ->] | [Hge _]].
  - reflexivity.
  - exfalso. unfold remaining2 in Hge.
    change (currentPosition e') with c in Hge.
    change (targetPosition e') with (targetPosition demoStart) in Hge.
    rewrite Hd in Hge. lra.
Qed.

Local Close Scope Q_scope.

Lemma demo_settles_all : forallb demoSettles (seq 1 999) = true.
Proof. vm_compute. reflexivity. Qed.

Lemma frames_add (period n m : nat) e :
  frames period (n + m) e = frames period m (frames period n e).
Proof.
  unfold frames. rewrite Nat.add_comm. apply Nat.iter_add.
Qed.

Lemma demoFinished_stable (period m : nat) :
  frames period m demoFinished = demoFinished.
Proof.
  induction m as [|m IH]; [reflexivity|].
  unfold frames. rewrite Nat.iter_succ. fold (frames period m demoFinished).
  rewrite IH. rewrite frame_idle; reflexivity.
Qed.

(** From start to finish, for every period below one second. *)
Lemma demo_run (period : nat) :
  (1 <= period <= 999)%nat ->
  frames period (81 + demoTail period)
    (startExecution (loadCommands demoSequence initial)) = demoFinished.
Proof.
  intros Hperiod. change (startExecution (loadCommands demoSequence initial)) with demoStart.
  rewrite frames_add.
  rewrite (quiet_ticks_frames period 81 demoStart demoArrived demo_arrives).
  rewrite <- fast_frames_spec.
  apply (bool_decide_unpack _). apply Is_true_eq_left.
  change (demoSettles period = true).
  pose proof demo_settles_all as Hall.
  rewrite forallb_forall in Hall. apply Hall.
  apply in_seq. lia.
Qed.

Lemma frames_1 (period : nat) e : frames period 1 e = frame period e.
Proof. reflexivity. Qed.

(** The demo run ended with the gripper closed stays as it is. *)
Lemma demoFinished_closed_stable (period m : nat) :
  frames period m (set_gripperOpen false demoFinished) = set_gripperOpen false demoFinished.
Proof.
  induction m as [|m IH]; [reflexivity|].
  unfold frames. rewrite Nat.iter_succ.
  fold (frames period m (set_gripperOpen false demoFinished)).
  rewrite IH. rewrite frame_idle; reflexivity.
Qed.

End Demo.

(** On a display that delivers a frame every [period] milliseconds, for any
    period from 1 to 999, the run of
    [[MoveTo{x:10,y:0,z:0,speed:50}, CloseGripper, OpenGripper]] started with
    [startExecution] on a fresh engine reaches a state in which the gripper
    is open, [currentCommandIndex] is 3, the position is exactly
    [{10,0,0}], [isAnimating] is false and no timer is pending, and which no
    further frame changes. *)
Theorem demo_run_final_state (period : nat)
    (Hperiod : (1 <= period <= 999)%nat) :
  exists n : nat,
    let final := frames period n (startExecution (loadCommands demoSequence initial)) in
    snap_gripperOpen (getState final) = true /\
    snap_currentCommandIndex (getState final) = 3%nat /\
    snap_totalCommands (getState final) = 3%nat /\
    snap_position (getState final) = Vec.mk (JS.Fin 10) (JS.Fin 0) (JS.Fin 0) /\
    currentPosition final = Vec.mk (JS.Fin 10) (JS.Fin 0) (JS.Fin 0) /\
    snap_isAnimating (getState final) = false /\
    timers final = [] /\
    (forall m : nat, frames period m final = final).
Proof.
  exists (81 + demoTail period)%nat.
  rewrite (demo_run period Hperiod).
  repeat split. intros m. apply demoFinished_stable.
Qed.

Lemma demo_run_final_state_witness :
  exists n : nat,
    let final := frames 16 n (startExecution (loadCommands demoSequence initial)) in
    snap_gripperOpen (getState final) = true /\
    snap_currentCommandIndex (getState final) = 3%nat /\
    snap_totalCommands (getState final) = 3%nat /\
    snap_position (getState final) = Vec.mk (JS.Fin 10) (JS.Fin 0) (JS.Fin 0) /\
    currentPosition final = Vec.mk (JS.Fin 10) (JS.Fin 0) (JS.Fin 0) /\
    snap_isAnimating (getState final) = false /\
    timers final = [] /\
    (forall m : nat, frames 16 m final = final).
Proof. apply (demo_run_final_state 16). lia. Defined.

(** The bound on the period matters: at one frame per second the timer that
    completes [CloseGripper] fires before the one that would activate
    [OpenGripper], and the run ends with the gripper closed. *)
Lemma demo_run_one_frame_per_second :
  gripperOpen (frames 1000 (81 + demoTail 1000) demoStart) = false /\
  currentCommandIndex (frames 1000 (81 + demoTail 1000) demoStart) = 3%nat /\
  isAnimating (frames 1000 (81 + demoTail 1000) demoStart) = false.
Proof.
  rewrite frames_add.
  rewrite (quiet_ticks_frames 1000 81 demoStart demoArrived demo_arrives).
  rewrite <- fast_frames_spec. vm_compute. repeat split.
Qed.

(** At sixty frames per second the gripper commands are never activated:
    the two ticks that follow the arrival complete them one after the other,
    long before the first inter-command timer fires. *)
Lemma demo_run_60Hz_skips_gripper_commands :
  currentCommandIndex (frames 16 2 demoArrived) = 3%nat /\
  gripperOpen (frames 16 2 demoArrived) = true /\
  timers (frames 16 2 demoArrived) =
    [(168%nat, ExecuteNextCommand); (184%nat, ExecuteNextCommand);
     (200%nat, ExecuteNextCommand)].
Proof. vm_compute. repeat split. Qed.

(** C2 fails on the code when one frame is late.  With a frame every 16 ms
    the arm arrives at [{10,0,0}] on the 81st frame; if the next frame comes
    250 ms later, the inter-command timer has fired in between and
    [CloseGripper] is active with the gripper closed; that frame and the
    following one find the arm at its target and complete [CloseGripper]
    and [OpenGripper] in turn, the second without it ever being activated.
    The run ends with [currentCommandIndex] 3, [isAnimating] false, the
    position [{10,0,0}], no timer pending and the gripper closed, and no
    further frame changes that. *)
Lemma demo_run_with_a_late_frame :
  frames 16 81 demoStart = demoArrived /\
  gripperOpen (frame 250 demoArrived) = false /\
  currentCommandIndex (frame 250 demoArrived) = 2%nat /\
  currentCommandIndex (frame 16 (frame 250 demoArrived)) = 3%nat /\
  gripperOpen (frame 16 (frame 250 demoArrived)) = false /\
  let final := frames 16 80 (frame 250 demoArrived) in
  snap_gripperOpen (getState final) = false /\
  snap_currentCommandIndex (getState final) = 3%nat /\
  snap_totalCommands (getState final) = 3%nat /\
  snap_position (getState final) = Vec.mk (JS.Fin 10) (JS.Fin 0) (JS.Fin 0) /\
  snap_isAnimating (getState final) = false /\
  timers final = [] /\
  (forall period m : nat, frames period m final = final).
Proof.
  split; [apply (quiet_ticks_frames 16 81 demoStart demoArrived demo_arrives)|].
  rewrite <- !frames_1, <- !fast_frames_spec.
  assert (fast_frames 16 80 (fast_frames 250 1 demoArrived) =
          set_gripperOpen false demoFinished) as E by (vm_compute; reflexivity).
  cbv zeta. rewrite E.
  split; [vm_compute; reflexivity|].
  split; [vm_compute; reflexivity|].
  split; [vm_compute; reflexivity|].
  split; [vm_compute; reflexivity|].
  split; [reflexivity|]. split; [reflexivity|]. split; [reflexivity|].
  split; [reflexivity|]. split; [reflexivity|]. split; [reflexivity|].
  intros period m. apply demoFinished_closed_stable.
Qed.

(** ** Defaults for missing command fields *)

Section Defaults.

Lemma or_finite (v : JS.value) (d : Q) : exists q : Q, JS.or v (JS.Fin d) = JS.Fin q.
Proof.
  unfold JS.or. destruct v as [| |q]; simpl; try (eexists; reflexivity).
  destruct (Qeq_bool q 0); eexists; reflexivity.
Qed.

Lemma or_idempotent (v d : JS.value) : JS.or (JS.or v d) d = JS.or v d.
Proof.
  unfold JS.or. destruct (JS.truthy v) eqn:E; [rewrite E; reflexivity|].
  destruct (JS.truthy d); reflexivity.
Qed.

Lemma loadCommands_lookup (commands : list Command.raw) (e : engine)
    (i : nat) (raw : Command.raw) :
  commands !! i = Some raw ->
  commandQueue (loadCommands commands e) !! i = Some (Command.of_raw raw i).
Proof.
  intros H. unfold loadCommands. simpl.
  rewrite list_lookup_imap, H. reflexivity.
Qed.

(** Activation of the [i]-th loaded command when it is a [move_to]. *)
Lemma activate_loaded_move_to (commands : list Command.raw) (e : engine)
    (i : nat) (raw : Command.raw) :
  commands !! i = Some raw ->
  Command.raw_action raw = "move_to"%string ->
  executeNextCommand
    (set_currentCommandIndex i (set_isPaused false (loadCommands commands e))) =
  set_animationSpeed
    (JS.div (JS.or (Command.raw_speed raw) (JS.Fin 50)) (JS.Fin 2500))
    (set_targetPosition
       (Vec.mk (Command.raw_x raw) (Command.raw_y raw) (Command.raw_z raw))
       (set_currentCommandIndex i (set_isPaused false (loadCommands commands e)))).
Proof.
  intros Hi Ha.
  apply (executeNextCommand_move_to _ (Command.of_raw raw i)).
  - reflexivity.
  - apply (loadCommands_lookup commands e i raw Hi).
  - exact Ha.
Qed.

End Defaults.

(** ** Scene projector *)

Section ProjectorFacts.

Import Projector.
Local Open Scope R_scope.

Lemma degrees_30 : degrees 30 = PI / 6.
Proof. unfold degrees. field. Qed.

Lemma point_eq (p q : point) :
  screenX p = screenX q -> screenY p = screenY q -> p = q.
Proof. destruct p, q. simpl. intros -> ->. reflexivity. Qed.

End ProjectorFacts.

(** C8: [project3D] is a function of the camera parameters and its three
    arguments alone, with
    [screenX = centerX + (x - y) * cos 30° * scale] and
    [screenY = centerY - (x + y) * sin 30° * scale - z * scale], where
    [cos 30° = sqrt 3 / 2] and [sin 30° = 1 / 2]; [project3D(0,0,0)] is the
    screen origin [(centerX, centerY)], which after [setupCanvas] on a canvas
    of [width] by [height] is [(width / 2, height - 80)]. *)
Theorem project3D_formula (cam : Projector.camera) (x y z : R) :
  (Projector.project3D cam x y z =
   Projector.mkPoint
     (Projector.centerX cam +
      (x - y) * cos (Projector.degrees 30) * Projector.scale cam)
     (Projector.centerY cam -
      (x + y) * sin (Projector.degrees 30) * Projector.scale cam -
      z * Projector.scale cam) /\
   Projector.project3D cam x y z =
   Projector.mkPoint
     (Projector.centerX cam + (x - y) * (sqrt 3 / 2) * Projector.scale cam)
     (Projector.centerY cam - (x + y) * (1 / 2) * Projector.scale cam -
      z * Projector.scale cam) /\
   Projector.project3D cam 0 0 0 =
   Projector.mkPoint (Projector.centerX cam) (Projector.centerY cam) /\
   forall width height : R,
     Projector.project3D (Projector.setupCanvas width height cam) 0 0 0 =
     Projector.mkPoint (width / 2) (height - 80))%R.
Proof.
  unfold Projector.project3D.
  rewrite degrees_30, cos_PI6, sin_PI6.
  repeat split.
  - apply point_eq; simpl; ring.
  - intros width height. apply point_eq; simpl; ring.
Qed.

(** ** Colour shading *)

Section ColorFacts.

Import Color.

Lemma in_all_ascii (c : ascii) : In c all_ascii.
Proof.
  unfold all_ascii. rewrite <- (ascii_nat_embedding c).
  apply in_map, in_seq. pose proof (nat_ascii_bounded c). lia.
Qed.

Lemma reads_all_pairs :
  forallb (fun c1 => forallb (reads_pair c1) all_ascii) all_ascii = true.
Proof. vm_compute. reflexivity. Qed.

(** Two hexadecimal digits parse to the byte they spell. *)
Lemma parseInt16_pair (c1 c2 : ascii) (v1 v2 : Z) :
  hex_digit c1 = Some v1 -> hex_digit c2 = Some v2 ->
  parseInt16 (String c1 (String c2 EmptyString)) = JS.Fin (inject_Z (16 * v1 + v2)).
Proof.
  intros H1 H2. pose proof reads_all_pairs as H.
  rewrite forallb_forall in H. specialize (H c1 (in_all_ascii c1)).
  rewrite forallb_forall in H. specialize (H c2 (in_all_ascii c2)).
  unfold reads_pair in H. rewrite H1, H2 in H.
  apply (bool_decide_unpack _). apply Is_true_eq_left. exact H.
Qed.

Lemma hex_digit_not_hash (c : ascii) (v : Z) :
  hex_digit c = Some v -> Ascii.eqb c "#" = false.
Proof.
  intros H. destruct (Ascii.eqb_spec c "#"%char) as [-> |]; [discriminate H | reflexivity].
Qed.

(** [lightenColor] on [#rrggbb]: every channel goes through [shade]. *)
Lemma lightenColor_hex (c1 c2 c3 c4 c5 c6 : ascii) (v1 v2 v3 v4 v5 v6 : Z)
    (amount : JS.value) :
  hex_digit c1 = Some v1 -> hex_digit c2 = Some v2 ->
  hex_digit c3 = Some v3 -> hex_digit c4 = Some v4 ->
  hex_digit c5 = Some v5 -> hex_digit c6 = Some v6 ->
  lightenColor
    (String "#" (String c1 (String c2 (String c3 (String c4 (String c5
       (String c6 EmptyString))))))) amount =
  ("rgb(" ++ JS.to_string (shade (JS.Fin (inject_Z (16 * v1 + v2))) amount) ++ ", "
   ++ JS.to_string (shade (JS.Fin (inject_Z (16 * v3 + v4))) amount) ++ ", "
   ++ JS.to_string (shade (JS.Fin (inject_Z (16 * v5 + v6))) amount) ++ ")")%string.
Proof.
  intros H1 H2 H3 H4 H5 H6. unfold lightenColor, shade.
  cbn [remove_hash Ascii.eqb Bool.eqb substring].
  rewrite (parseInt16_pair c1 c2 v1 v2 H1 H2).
  rewrite (parseInt16_pair c3 c4 v3 v4 H3 H4).
  rewrite (parseInt16_pair c5 c6 v5 v6 H5 H6).
  reflexivity.
Qed.

Local Open Scope Q_scope.


Lemma Qfloor_between (lo hi : Z) (x : Q) :
  inject_Z lo <= x -> x < inject_Z hi + 1 -> (lo <= Qfloor x <= hi)%Z.
Proof.
  intros Hlo Hhi. split.
  - rewrite <- (Qfloor_Z lo). apply Qfloor_resp_le, Hlo.
  - pose proof (Qfloor_le x) as Hle.
    assert (inject_Z (Qfloor x) < inject_Z (hi + 1)) as Hlt
      by (rewrite inject_Z_plus; change (inject_Z 1) with 1; lra).
    rewrite <- Zlt_Qlt in Hlt. lia.
Qed.

(** The channel transform on a number, case by case on the clamp. *)
Lemma shade_value (v a : Q) :
  exists m : Q,
    shade (JS.Fin v) (JS.Fin a) = JS.Fin (inject_Z (Qfloor (m + (1 # 2)))) /\
    ((m == v + a * 255 /\ m <= 255) \/ (m == 255 /\ 255 <= v + a * 255)).
Proof.
  unfold shade, JS.min, JS.add, JS.mul, JS.round.
  assert (Qred (v + Qred (a * 255)) == v + a * 255) as E
    by (rewrite !Qred_correct; reflexivity).
  destruct (Qlt_le_dec (Qred (v + Qred (a * 255))) 255) as [Hlt | Hge].
  - eexists. split; [reflexivity|]. left. split; [exact E | lra].
  - eexists. split; [reflexivity|]. right. split; [reflexivity | lra].
Qed.


Lemma hex_digit_range (c : ascii) (v : Z) :
  hex_digit c = Some v -> (0 <= v <= 15)%Z.
Proof.
  intros H. pose proof (in_all_ascii c) as Hin.
  assert (forallb (fun c => match hex_digit c with
                            | Some v => ((0 <=? v) && (v <=? 15))%Z
                            | None => true
                            end) all_ascii = true) as Hall
    by (vm_compute; reflexivity).
  rewrite forallb_forall in Hall. specialize (Hall c Hin).
  rewrite H in Hall. apply andb_true_iff in Hall as [H0 H15].
  apply Z.leb_le in H0, H15. lia.
Qed.



End ColorFacts.




(** ** Invariants of the queue and the cursor *)

Section QueueInvariant.

(** A property of the queue and the cursor that survives completing the
    command under the cursor, replacing the queue and rewinding the cursor
    holds in every state the engine can reach. *)
Variable Q : list Command.t -> nat -> Prop.
Hypothesis Q_complete :
  forall q i, Q q i -> (i < length q)%nat -> Q (alter Command.set_completed i q) (S i).
Hypothesis Q_load :
  forall commands, Q (imap (fun i c => Command.of_raw c i) commands) 0%nat.
Hypothesis Q_rewind : forall q i, Q q i -> Q q 0%nat.

Let holds (e : engine) : Prop := Q (commandQueue e) (currentCommandIndex e).

Lemma holds_completeCurrentCommand (e : engine) :
  holds e -> holds (completeCurrentCommand e).
Proof using Q_complete.
  unfold holds, completeCurrentCommand. intros H.
  destruct (Nat.ltb_spec (currentCommandIndex e) (length (commandQueue e))) as [Hlt | Hge].
  - apply Q_complete; assumption.
  - exact H.
Qed.

Lemma holds_executeNextCommand (e : engine) :
  holds e -> holds (executeNextCommand e).
Proof using Type.
  unfold holds. rewrite executeNextCommand_queue, executeNextCommand_cursor. tauto.
Qed.

Lemma holds_animate (e : engine) : holds e -> holds (animate e).
Proof using Q_complete.
  intros H. unfold animate. destruct (isAnimating e); [|exact H].
  case_match; [|exact H].
  apply (holds_completeCurrentCommand
           (set_currentPosition (targetPosition e) e)) in H.
  exact H.
Qed.

Lemma holds_step (ev : event) (e : engine) : holds e -> holds (step ev e).
Proof using Q_complete Q_load Q_rewind.
  intros H. destruct ev; cbn [step].
  - apply holds_animate, H.
  - destruct (timers e !! k) as [[d cb]|]; [|exact H].
    destruct cb; cbn [run_callback].
    + apply (holds_completeCurrentCommand (set_timers (delete k (timers e)) e)), H.
    + apply (holds_executeNextCommand (set_timers (delete k (timers e)) e)), H.
  - apply Q_load.
  - unfold startExecution. case_match; [exact H|].
    apply holds_executeNextCommand. apply (Q_rewind _ _ H).
  - exact H.
  - apply (holds_executeNextCommand (set_isPaused false e)), H.
  - exact H.
Qed.

Lemma holds_run (evs : list event) (e : engine) : holds e -> holds (run evs e).
Proof using Q_complete Q_load Q_rewind.
  revert e. induction evs as [|ev evs IH]; intros e H; [exact H|].
  apply IH, holds_step, H.
Qed.

End QueueInvariant.

Section QueueFacts.

Lemma lookup_alter_completed (q : list Command.t) (i j : nat) (c : Command.t) :
  alter Command.set_completed i q !! j = Some c ->
  exists c0 : Command.t,
    q !! j = Some c0 /\
    ((i = j /\ c = Command.set_completed c0) \/ (i <> j /\ c = c0)).
Proof.
  rewrite list_lookup_alter. destruct (decide (i = j)) as [-> | Hne].
  - destruct (q !! j) as [c0|]; simpl; [|discriminate].
    intros [= <-]. exists c0. split; [reflexivity | left; split; reflexivity].
  - intros H. exists c. split; [exact H | right; split; [exact Hne | reflexivity]].
Qed.

Lemma lookup_loaded (commands : list Command.raw) (j : nat) (c : Command.t) :
  imap (fun i r => Command.of_raw r i) commands !! j = Some c ->
  exists r : Command.raw, commands !! j = Some r /\ c = Command.of_raw r j.
Proof.
  rewrite list_lookup_imap. destruct (commands !! j) as [r|]; simpl; [|discriminate].
  intros [= <-]. exists r. split; reflexivity.
Qed.

End QueueFacts.

(** X1: in every state reachable from the constructor's state, the entry at
    position [i] of the queue has [index] equal to [i]. *)
Theorem queue_entries_keep_their_index (evs : list event) :
  queue_indexed (run evs initial).
Proof.
  unfold queue_indexed.
  apply (holds_run (fun q _ => forall i c, q !! i = Some c -> Command.index c = i)).
  - intros q i H _ j c Hj.
    apply lookup_alter_completed in Hj as (c0 & Hc0 & [[_ ->] | [_ ->]]);
      apply (H j c0 Hc0).
  - intros commands j c Hj.
    apply lookup_loaded in Hj as (r & _ & ->). reflexivity.
  - intros q i H. exact H.
  - intros i c H. discriminate H.
Qed.

(** X2: in every state reachable from the constructor's state, every entry
    before the cursor is marked completed. *)
Theorem commands_before_cursor_are_completed (evs : list event) :
  completed_below_cursor (run evs initial).
Proof.
  unfold completed_below_cursor.
  apply (holds_run (fun q n => forall i c, q !! i = Some c -> (i < n)%nat ->
                                           Command.completed c = true)).
  - intros q i H _ j c Hj Hlt.
    apply lookup_alter_completed in Hj as (c0 & Hc0 & [[_ ->] | [Hne ->]]).
    + reflexivity.
    + apply (H j c0 Hc0). lia.
  - intros commands j c _ Hlt. lia.
  - intros q i _ j c _ Hlt. lia.
  - intros i c H. discriminate H.
Qed.

(** ** Invariants that depend on what is loaded *)

Section StepInvariant.

Variable P : engine -> Prop.
Variable ok : event -> Prop.
Hypothesis P_step : forall ev e, ok ev -> P e -> P (step ev e).

Lemma run_preserves (evs : list event) (e : engine) :
  (forall ev, In ev evs -> ok ev) -> P e -> P (run evs e).
Proof using P_step.
  revert e. induction evs as [|ev evs IH]; intros e Hok H; [exact H|].
  apply IH.
  - intros ev' Hin. apply Hok. right. exact Hin.
  - apply P_step; [apply Hok; left; reflexivity | exact H].
Qed.

End StepInvariant.

Section LoadedActions.

Implicit Type e : engine.

Lemma completeCurrentCommand_queue e :
  commandQueue (completeCurrentCommand e) =
  if (currentCommandIndex e <? length (commandQueue e))%nat
  then alter Command.set_completed (currentCommandIndex e) (commandQueue e)
  else commandQueue e.
Proof. unfold completeCurrentCommand. case_match; reflexivity. Qed.

Lemma completeCurrentCommand_gripperOpen e :
  gripperOpen (completeCurrentCommand e) = gripperOpen e.
Proof. unfold completeCurrentCommand. case_match; reflexivity. Qed.

Lemma completeCurrentCommand_position e :
  position (completeCurrentCommand e) = position e.
Proof. unfold completeCurrentCommand. case_match; reflexivity. Qed.

Lemma queue_without_completeCurrentCommand (a : string) e :
  queue_without a e -> queue_without a (completeCurrentCommand e).
Proof.
  unfold queue_without. rewrite completeCurrentCommand_queue.
  intros H i c. case_match; [|apply H].
  intros Hi. apply lookup_alter_completed in Hi as (c0 & Hc0 & [[_ ->] | [_ ->]]);
    apply (H i c0 Hc0).
Qed.

Lemma queue_without_animate (a : string) e :
  queue_without a e -> queue_without a (animate e).
Proof.
  intros H. unfold animate. destruct (isAnimating e); [|exact H].
  case_match; [|exact H].
  apply (queue_without_completeCurrentCommand a
           (set_currentPosition (targetPosition e) e)), H.
Qed.

Lemma queue_without_loadCommands (a : string) (commands : list Command.raw) e :
  (forall c, In c commands -> Command.raw_action c <> a) ->
  queue_without a (loadCommands commands e).
Proof.
  intros H i c Hi. unfold loadCommands in Hi. simpl in Hi.
  apply lookup_loaded in Hi as (r & Hr & ->). simpl.
  apply H. rewrite <- list_elem_of_In. apply (list_elem_of_lookup_2 _ _ _ Hr).
Qed.

Lemma queue_without_step (a : string) (ev : event) e :
  loads_without a ev -> queue_without a e -> queue_without a (step ev e).
Proof.
  intros Hok H. destruct ev; cbn [step].
  - apply queue_without_animate, H.
  - destruct (timers e !! k) as [[d cb]|]; [|exact H].
    destruct cb; cbn [run_callback].
    + apply (queue_without_completeCurrentCommand a
               (set_timers (delete k (timers e)) e)), H.
    + unfold queue_without. rewrite executeNextCommand_queue. exact H.
  - apply queue_without_loadCommands, Hok.
  - unfold startExecution. case_match; [exact H|].
    unfold queue_without. rewrite executeNextCommand_queue. exact H.
  - exact H.
  - unfold resumeExecution, queue_without. rewrite executeNextCommand_queue. exact H.
  - exact H.
Qed.

(** Activation of a command that is not [close_gripper] leaves an open
    gripper open. *)
Lemma executeNextCommand_keeps_gripper_open e :
  queue_without "close_gripper" e -> gripperOpen e = true ->
  gripperOpen (executeNextCommand e) = true.
Proof.
  intros Hq Hg. unfold executeNextCommand, completeExecution.
  case_match; [case_match; exact Hg|].
  destruct (commandQueue e !! currentCommandIndex e) as [c|] eqn:Hc; [|exact Hg].
  specialize (Hq _ _ Hc).
  destruct (String.eqb_spec (Command.action c) "move_to"); [exact Hg|].
  destruct (String.eqb_spec (Command.action c) "close_gripper"); [contradiction|].
  destruct (String.eqb_spec (Command.action c) "open_gripper"); [reflexivity | exact Hg].
Qed.

Lemma animate_gripperOpen e : gripperOpen (animate e) = gripperOpen e.
Proof.
  unfold animate. destruct (isAnimating e); [|reflexivity].
  case_match; [|reflexivity].
  change (gripperOpen (set_position ?v ?x)) with (gripperOpen x).
  rewrite completeCurrentCommand_gripperOpen. reflexivity.
Qed.

Lemma gripper_stays_open_step (ev : event) e :
  loads_without "close_gripper" ev ->
  queue_without "close_gripper" e /\ gripperOpen e = true ->
  queue_without "close_gripper" (step ev e) /\ gripperOpen (step ev e) = true.
Proof.
  intros Hok [Hq Hg]. split; [apply queue_without_step; assumption|].
  destruct ev; cbn [step].
  - rewrite animate_gripperOpen. exact Hg.
  - destruct (timers e !! k) as [[d cb]|]; [|exact Hg].
    destruct cb; cbn [run_callback].
    + rewrite completeCurrentCommand_gripperOpen. exact Hg.
    + apply executeNextCommand_keeps_gripper_open; assumption.
  - exact Hg.
  - unfold startExecution. case_match; [exact Hg|].
    apply executeNextCommand_keeps_gripper_open; assumption.
  - exact Hg.
  - apply executeNextCommand_keeps_gripper_open; assumption.
  - reflexivity.
Qed.

(** Activation of a command that is not [move_to] leaves the target and
    the interpolation rate alone. *)
Lemma executeNextCommand_keeps_home e :
  queue_without "move_to" e -> at_home e -> at_home (executeNextCommand e).
Proof.
  intros Hq Hh. unfold executeNextCommand, completeExecution.
  case_match; [case_match; exact Hh|].
  destruct (commandQueue e !! currentCommandIndex e) as [c|] eqn:Hc; [|exact Hh].
  specialize (Hq _ _ Hc).
  destruct (String.eqb_spec (Command.action c) "move_to"); [contradiction|].
  repeat case_match; exact Hh.
Qed.

Lemma completeCurrentCommand_keeps_home e :
  at_home e -> at_home (completeCurrentCommand e).
Proof.
  unfold at_home.
  destruct (completeCurrentCommand_pose e) as (-> & -> & _ & ->).
  rewrite completeCurrentCommand_position. tauto.
Qed.

(** A tick of an arm resting at the origin leaves it there. *)
Lemma animate_keeps_home e : at_home e -> at_home (animate e).
Proof.
  intros (Hp & Hc & Ht & Hs). unfold animate.
  destruct (isAnimating e); [|unfold at_home; simpl; rewrite Hc, Ht, Hs; tauto].
  rewrite Hc, Ht, Hs.
  change (JS.sqrt_lt_2 _) with true. cbv iota.
  unfold at_home.
  change (currentPosition (set_position ?v ?x)) with (currentPosition x).
  change (targetPosition (set_position ?v ?x)) with (targetPosition x).
  change (animationSpeed (set_position ?v ?x)) with (animationSpeed x).
  change (position (set_position ?v ?x)) with v.
  destruct (completeCurrentCommand_pose
              (set_currentPosition
                 (targetPosition
                    (set_currentPosition
                       (Vec.mk
                          (JS.add (Vec.x Vec.origin)
                             (JS.mul (JS.sub (Vec.x Vec.origin) (Vec.x Vec.origin))
                                (JS.Fin (2 # 100))))
                          (JS.add (Vec.y Vec.origin)
                             (JS.mul (JS.sub (Vec.y Vec.origin) (Vec.y Vec.origin))
                                (JS.Fin (2 # 100))))
                          (JS.add (Vec.z Vec.origin)
                             (JS.mul (JS.sub (Vec.z Vec.origin) (Vec.z Vec.origin))
                                (JS.Fin (2 # 100))))) e))
                 (set_currentPosition
                    (Vec.mk
                       (JS.add (Vec.x Vec.origin)
                          (JS.mul (JS.sub (Vec.x Vec.origin) (Vec.x Vec.origin))
                             (JS.Fin (2 # 100))))
                       (JS.add (Vec.y Vec.origin)
                          (JS.mul (JS.sub (Vec.y Vec.origin) (Vec.y Vec.origin))
                             (JS.Fin (2 # 100))))
                       (JS.add (Vec.z Vec.origin)
                          (JS.mul (JS.sub (Vec.z Vec.origin) (Vec.z Vec.origin))
                             (JS.Fin (2 # 100))))) e))) as (-> & -> & _ & ->).
  simpl. rewrite Ht, Hs. tauto.
Qed.

End LoadedActions.

Section HomeInvariant.

Implicit Type e : engine.

Lemma home_step (ev : event) e :
  loads_without "move_to" ev ->
  queue_without "move_to" e /\ at_home e ->
  queue_without "move_to" (step ev e) /\ at_home (step ev e).
Proof.
  intros Hok [Hq Hh]. split; [apply queue_without_step; assumption|].
  destruct ev; cbn [step].
  - apply animate_keeps_home, Hh.
  - destruct (timers e !! k) as [[d cb]|]; [|exact Hh].
    destruct cb; cbn [run_callback].
    + apply (completeCurrentCommand_keeps_home (set_timers (delete k (timers e)) e)), Hh.
    + apply (executeNextCommand_keeps_home (set_timers (delete k (timers e)) e));
        assumption.
  - exact Hh.
  - unfold startExecution. case_match; [exact Hh|].
    apply executeNextCommand_keeps_home; assumption.
  - exact Hh.
  - apply (executeNextCommand_keeps_home (set_isPaused false e)); assumption.
  - destruct Hh as (Hp & _ & _ & Hs). unfold at_home. simpl. tauto.
Qed.

End HomeInvariant.

(** X3: when none of the command lists handed to [loadCommands] contains a
    [close_gripper] command, the gripper is open in every state the engine
    reaches, whatever frames, timers and public calls occur. *)
Theorem gripper_never_closes_without_close_command (evs : list event)
    (Hloads : forall ev, In ev evs -> loads_without "close_gripper" ev) :
  snap_gripperOpen (getState (run evs initial)) = true.
Proof.
  apply (run_preserves
           (fun e => queue_without "close_gripper" e /\ gripperOpen e = true)
           (loads_without "close_gripper")
           gripper_stays_open_step evs initial Hloads).
  split; [|reflexivity]. intros i c H. discriminate H.
Qed.

Lemma gripper_never_closes_without_close_command_witness :
  snap_gripperOpen
    (getState (run [LoadCommands [openGripper; moveTo 10 0 0 (JS.Fin 50)];
                    StartExecution; Timeout 0; Frame; PauseExecution] initial)) = true.
Proof.
  apply (gripper_never_closes_without_close_command
           [LoadCommands [openGripper; moveTo 10 0 0 (JS.Fin 50)];
            StartExecution; Timeout 0; Frame; PauseExecution]).
  intros ev [<- | [<- | [<- | [<- | [<- | []]]]]]; simpl; try exact I.
  intros c [<- | [<- | []]]; simpl; discriminate.
Defined.

(** X4: when none of the command lists handed to [loadCommands] contains a
    [move_to] command, the arm never leaves the origin: [currentPosition],
    [targetPosition] and the position reported by [getState] are
    [{0,0,0}] in every state the engine reaches. *)
Theorem arm_stays_home_without_move_command (evs : list event)
    (Hloads : forall ev, In ev evs -> loads_without "move_to" ev) :
  snap_position (getState (run evs initial)) = Vec.origin /\
  currentPosition (run evs initial) = Vec.origin /\
  targetPosition (run evs initial) = Vec.origin.
Proof.
  destruct (run_preserves
              (fun e => queue_without "move_to" e /\ at_home e)
              (loads_without "move_to")
              home_step evs initial Hloads) as (_ & Hp & Hc & Ht & _).
  - split; [|repeat split]. intros i c H. discriminate H.
  - repeat split; assumption.
Qed.

Lemma arm_stays_home_without_move_command_witness :
  snap_position
    (getState (run [LoadCommands [closeGripper; openGripper]; StartExecution;
                    Frame; Timeout 0; Frame] initial)) = Vec.origin /\
  currentPosition (run [LoadCommands [closeGripper; openGripper]; StartExecution;
                        Frame; Timeout 0; Frame] initial) = Vec.origin /\
  targetPosition (run [LoadCommands [closeGripper; openGripper]; StartExecution;
                       Frame; Timeout 0; Frame] initial) = Vec.origin.
Proof.
  apply (arm_stays_home_without_move_command
           [LoadCommands [closeGripper; openGripper]; StartExecution;
            Frame; Timeout 0; Frame]).
  intros ev [<- | [<- | [<- | [<- | [<- | []]]]]]; simpl; try exact I.
  intros c [<- | [<- | []]]; simpl; discriminate.
Defined.

(** ** More about ticks *)

Section Ticks.

Implicit Type e : engine.
Local Open Scope Q_scope.

(** [animate] in terms of the interpolated pose and the arrival test. *)
Lemma animate_eq e :
  animate e =
  if isAnimating e then
    if JS.sqrt_lt_2 (gap2 e) then
      set_position (targetPosition e)
        (completeCurrentCommand
           (set_currentPosition (targetPosition e)
              (set_currentPosition (interpolated e) e)))
    else set_position (interpolated e) (set_currentPosition (interpolated e) e)
  else set_position (currentPosition e) e.
Proof.
  unfold animate. fold (gap2 e). fold (interpolated e).
  destruct (isAnimating e); [|reflexivity].
  destruct (JS.sqrt_lt_2 (gap2 e)); [|reflexivity].
  f_equal. unfold completeCurrentCommand. case_match; reflexivity.
Qed.


Lemma completeCurrentCommand_isPaused' e :
  isPaused (completeCurrentCommand e) = isPaused e.
Proof. unfold completeCurrentCommand. case_match; reflexivity. Qed.

Lemma same_but_pose_refl e : same_but_pose e e.
Proof. repeat split. Qed.

Lemma same_but_pose_trans e1 e2 e3 :
  same_but_pose e1 e2 -> same_but_pose e2 e3 -> same_but_pose e1 e3.
Proof.
  unfold same_but_pose. intros (A1 & A2 & A3 & A4 & A5 & A6 & A7 & A8)
    (B1 & B2 & B3 & B4 & B5 & B6 & B7 & B8).
  repeat split; congruence.
Qed.

Lemma same_but_pose_moved (v w : Vec.t) e :
  same_but_pose e (set_position v (set_currentPosition w e)).
Proof. repeat split. Qed.

(** *** Ticks at the target *)




End Ticks.



Section TicksOnTheWay.

Implicit Type e : engine.
Local Open Scope Q_scope.

Lemma ticks_before_arrival_aux (rate : Q) (n : nat) e :
  moving rate e ->
  (forall k : nat, (k < n)%nat ->
     4 <= Qpow ((1 - rate) * (1 - rate)) k * remaining2 e) ->
  same_but_pose e (Nat.iter n animate e) /\
  remaining2 (Nat.iter n animate e) ==
    Qpow ((1 - rate) * (1 - rate)) n * remaining2 e.
Proof.
  intros Hm. induction n as [|n IH]; intros Hfar.
  - split; [apply same_but_pose_refl | simpl; ring].
  - destruct IH as [Hsame Hrem]; [intros k Hk; apply Hfar; lia|].
    rewrite Nat.iter_succ.
    set (en := Nat.iter n animate e) in *.
    pose proof (iter_animate_moving rate n e Hm) as Hmn. fold en in Hmn.
    destruct (animate_cases rate en Hmn) as [[Hlt _] | [_ ->]].
    { specialize (Hfar n (Nat.lt_succ_diag_r n)). lra. }
    split.
    + apply (same_but_pose_trans e en); [exact Hsame|].
      apply same_but_pose_moved.
    + unfold remaining2 at 1.
      change (currentPosition (set_position ?v (set_currentPosition ?w ?x))) with w.
      change (targetPosition (set_position ?v (set_currentPosition ?w ?x)))
        with (targetPosition x).
      rewrite (interpolated_dist2 rate en Hmn), Hrem. simpl. ring.
Qed.




(** *** Poses that are not numeric *)

Lemma step_coordinate_fin (c t s : JS.value) (q : Q) :
  JS.add c (JS.mul (JS.sub t c) s) = JS.Fin q ->
  (exists c0, c = JS.Fin c0) /\ (exists t0, t = JS.Fin t0).
Proof.
  destruct c as [| |c0], t as [| |t0], s as [| |s0]; simpl; try discriminate.
  intros _. split; eexists; reflexivity.
Qed.

Lemma interpolated_finite_inv e :
  Vec.finite (interpolated e) ->
  Vec.finite (targetPosition e) /\ Vec.finite (currentPosition e).
Proof.
  unfold interpolated.
  destruct (targetPosition e) as [tx ty tz], (currentPosition e) as [cx cy cz].
  cbn [Vec.x Vec.y Vec.z Vec.finite].
  destruct (JS.add cx _) as [| |qx] eqn:Hx; try contradiction.
  destruct (JS.add cy _) as [| |qy] eqn:Hy; try contradiction.
  destruct (JS.add cz _) as [| |qz] eqn:Hz; try contradiction.
  apply step_coordinate_fin in Hx as [[? ->] [? ->]].
  apply step_coordinate_fin in Hy as [[? ->] [? ->]].
  apply step_coordinate_fin in Hz as [[? ->] [? ->]].
  intros _. split; exact I.
Qed.

Lemma sub_fin (t c : JS.value) (q : Q) :
  JS.sub t c = JS.Fin q -> (exists c0, c = JS.Fin c0) /\ (exists t0, t = JS.Fin t0).
Proof.
  destruct c as [| |c0], t as [| |t0]; simpl; try discriminate.
  intros _. split; eexists; reflexivity.
Qed.

Lemma sumsq_fin (dx dy dz : JS.value) (q : Q) :
  sumsq dx dy dz = JS.Fin q ->
  (exists x, dx = JS.Fin x) /\ (exists y, dy = JS.Fin y) /\ (exists z, dz = JS.Fin z).
Proof.
  destruct dx as [| |x], dy as [| |y], dz as [| |z]; simpl; try discriminate.
  intros _. repeat split; eexists; reflexivity.
Qed.

(** The arrival test fails as soon as a coordinate of either pose is not a
    number. *)
Lemma arrival_test_not_finite e :
  ~ (Vec.finite (targetPosition e) /\ Vec.finite (currentPosition e)) ->
  JS.sqrt_lt_2 (gap2 e) = false.
Proof.
  intros Hnf. unfold gap2.
  destruct (sumsq _ _ _) as [| |q] eqn:Hs; try reflexivity.
  exfalso. apply Hnf.
  apply sumsq_fin in Hs as ([x Hx] & [y Hy] & [z Hz]).
  apply sub_fin in Hx as [[? Hcx] [? Htx]].
  apply sub_fin in Hy as [[? Hcy] [? Hty]].
  apply sub_fin in Hz as [[? Hcz] [? Htz]].
  destruct (targetPosition e) as [tx ty tz], (currentPosition e) as [cx cy cz].
  cbn [Vec.x Vec.y Vec.z] in *. subst. split; exact I.
Qed.

Lemma ticks_not_finite (n : nat) e :
  isAnimating e = true ->
  ~ (Vec.finite (targetPosition e) /\ Vec.finite (currentPosition e)) ->
  same_but_pose e (Nat.iter n animate e) /\
  ~ (Vec.finite (targetPosition (Nat.iter n animate e)) /\
     Vec.finite (currentPosition (Nat.iter n animate e))) /\
  ((1 <= n)%nat -> ~ Vec.finite (currentPosition (Nat.iter n animate e))).
Proof.
  intros Ha Hnf. induction n as [|n IH].
  - split; [apply same_but_pose_refl|]. split; [exact Hnf | intros H; lia].
  - destruct IH as (Hsame & Hnfn & _).
    rewrite Nat.iter_succ. set (en := Nat.iter n animate e) in *.
    assert (isAnimating en = true) as Han
      by (destruct Hsame as (_ & _ & -> & _); exact Ha).
    rewrite animate_eq, Han, (arrival_test_not_finite en Hnfn).
    assert (~ Vec.finite (interpolated en)) as Hi
      by (intros H; apply Hnfn, interpolated_finite_inv, H).
    split; [|split].
    + apply (same_but_pose_trans e en); [exact Hsame | apply same_but_pose_moved].
    + intros [_ H]. apply Hi, H.
    + intros _. exact Hi.
Qed.

End TicksOnTheWay.

(** X6: as long as the arm is 2 units or more away, ticks change nothing
    but the pose: if the squared distance times [(1 - rate)^(2k)] is at
    least 4 for every [k < n], then the first [n] ticks leave target,
    gripper, flags, rate, queue, cursor and timers as they are, and the
    squared distance after them is exactly [(1 - rate)^(2n)] times the
    initial one. *)
Theorem ticks_before_arrival (rate : Q) (n : nat) (e : engine)
    (Hmoving : moving rate e)
    (Hfar : forall k : nat, (k < n)%nat ->
              (4 <= Qpow ((1 - rate) * (1 - rate)) k * remaining2 e)%Q) :
  same_but_pose e (Nat.iter n animate e) /\
  (remaining2 (Nat.iter n animate e) ==
   Qpow ((1 - rate) * (1 - rate)) n * remaining2 e)%Q.
Proof. apply ticks_before_arrival_aux; assumption. Qed.

Lemma ticks_before_arrival_witness :
  same_but_pose demoStart (Nat.iter 2 animate demoStart) /\
  (remaining2 (Nat.iter 2 animate demoStart) ==
   Qpow ((1 - (1 # 50)) * (1 - (1 # 50))) 2 * remaining2 demoStart)%Q.
Proof.
  apply (ticks_before_arrival (1 # 50) 2 demoStart).
  - constructor; [reflexivity | exact I | exact I | reflexivity].
  - intros k Hk. destruct k as [|[|k]]; [vm_compute; discriminate .. | lia].
Defined.



(** X8: when a coordinate of the target or of the current position is not a
    number (a [move_to] without [x], say), ticks never complete the active
    command: whatever their number they leave target, gripper, flags, rate,
    queue, cursor and timers as they are, and from the first tick on
    [currentPosition] holds a [NaN]. *)
Theorem non_numeric_pose_blocks_the_queue (n : nat) (e : engine)
    (Hanimating : isAnimating e = true)
    (Hpose : ~ (Vec.finite (targetPosition e) /\ Vec.finite (currentPosition e))) :
  same_but_pose e (Nat.iter n animate e) /\
  ((1 <= n)%nat -> ~ Vec.finite (currentPosition (Nat.iter n animate e))).
Proof.
  destruct (ticks_not_finite n e Hanimating Hpose) as (H1 & _ & H3).
  split; assumption.
Qed.

Lemma non_numeric_pose_blocks_the_queue_witness :
  let e := startExecution
             (loadCommands
                [Command.mkRaw "move_to" JS.Undefined (JS.Fin 0) (JS.Fin 0)
                   JS.Undefined None; closeGripper] initial) in
  same_but_pose e (Nat.iter 500 animate e) /\
  ((1 <= 500)%nat -> ~ Vec.finite (currentPosition (Nat.iter 500 animate e))).
Proof.
  apply (non_numeric_pose_blocks_the_queue 500).
  - reflexivity.
  - intros [H _]. exact H.
Defined.

(** ** Stop, pause and resume against pending timers *)

Section Control.

Implicit Type e : engine.

Lemma executeNextCommand_gripper (open : bool) e (c : Command.t) :
  isPaused e = false ->
  commandQueue e !! currentCommandIndex e = Some c ->
  Command.action c = (if open then "open_gripper" else "close_gripper")%string ->
  executeNextCommand e =
  setTimeout CompleteCurrentCommand 1000 (set_gripperOpen open e).
Proof.
  intros Hp Hc Ha. unfold executeNextCommand. rewrite Hp, Hc, Ha. simpl orb.
  apply lookup_lt_Some in Hc.
  destruct (Nat.leb_spec (length (commandQueue e)) (currentCommandIndex e)); [lia|].
  destruct open; reflexivity.
Qed.

Lemma unpause_pause e : isPaused e = false -> set_isPaused false (set_isPaused true e) = e.
Proof. intros H. destruct e. simpl in H. subst. reflexivity. Qed.

End Control.

(** X9: [stopExecution] cancels no timer.  If an [executeNextCommand] timer
    is pending when the engine is stopped and the command under the cursor
    is [close_gripper], then that timer, firing after the stop, closes the
    gripper and schedules the command's completion although [isAnimating]
    is false. *)
Theorem stale_timer_acts_after_stop (e : engine) (k d : nat) (c : Command.t)
    (Htimer : timers e !! k = Some (d, ExecuteNextCommand))
    (Hactive : commandQueue e !! currentCommandIndex e = Some c)
    (Haction : Command.action c = "close_gripper"%string) :
  timers (stopExecution e) = timers e /\
  snap_gripperOpen (getState (stopExecution e)) = true /\
  snap_gripperOpen (getState (step (Timeout k) (stopExecution e))) = false /\
  snap_isAnimating (getState (step (Timeout k) (stopExecution e))) = false /\
  timers (step (Timeout k) (stopExecution e)) =
    (delete k (timers e) ++ [(1000%nat, CompleteCurrentCommand)])%list.
Proof.
  split; [reflexivity|]. split; [reflexivity|].
  cbn [step]. change (timers (stopExecution e)) with (timers e). rewrite Htimer.
  cbn [run_callback].
  rewrite (executeNextCommand_gripper false _ c); [repeat split | reflexivity | exact Hactive | exact Haction].
Qed.

Lemma stale_timer_acts_after_stop_witness :
  let e := run [LoadCommands [moveTo 1 0 0 (JS.Fin 50); closeGripper];
                StartExecution; Frame] initial in
  timers (stopExecution e) = timers e /\
  snap_gripperOpen (getState (stopExecution e)) = true /\
  snap_gripperOpen (getState (step (Timeout 0) (stopExecution e))) = false /\
  snap_isAnimating (getState (step (Timeout 0) (stopExecution e))) = false /\
  timers (step (Timeout 0) (stopExecution e)) =
    (delete 0%nat (timers e) ++ [(1000%nat, CompleteCurrentCommand)])%list.
Proof.
  apply (stale_timer_acts_after_stop
           (run [LoadCommands [moveTo 1 0 0 (JS.Fin 50); closeGripper];
                 StartExecution; Frame] initial)
           0 200 (Command.of_raw closeGripper 1)); reflexivity.
Defined.

(** X10: pausing an engine that is not paused and resuming it activates the
    command under the cursor once more.  When that command is a gripper
    command whose completion is already scheduled, a second completion
    timer of 1000 ms is registered; the controller's [togglePause], called
    twice, does the same. *)
Theorem pause_resume_activates_again (e : engine) (c : Command.t) (open : bool)
    (Hrunning : isPaused e = false)
    (Hactive : commandQueue e !! currentCommandIndex e = Some c)
    (Haction : Command.action c =
               (if open then "open_gripper" else "close_gripper")%string) :
  resumeExecution (pauseExecution e) = executeNextCommand e /\
  togglePause (togglePause e) = executeNextCommand e /\
  timers (resumeExecution (pauseExecution e)) =
    (timers e ++ [(1000%nat, CompleteCurrentCommand)])%list /\
  snap_gripperOpen (getState (resumeExecution (pauseExecution e))) = open.
Proof.
  assert (resumeExecution (pauseExecution e) = executeNextCommand e) as Hrp.
  { unfold resumeExecution, pauseExecution. rewrite unpause_pause by exact Hrunning.
    reflexivity. }
  split; [exact Hrp|]. split.
  - unfold togglePause at 2. cbn [getState snap_isPaused]. rewrite Hrunning.
    unfold togglePause. cbn [getState snap_isPaused pauseExecution set_isPaused isPaused].
    exact Hrp.
  - rewrite Hrp, (executeNextCommand_gripper open e c Hrunning Hactive Haction).
    split; reflexivity.
Qed.

Lemma pause_resume_activates_again_witness :
  let e := startExecution (loadCommands [closeGripper; openGripper] initial) in
  resumeExecution (pauseExecution e) = executeNextCommand e /\
  togglePause (togglePause e) = executeNextCommand e /\
  timers (resumeExecution (pauseExecution e)) =
    (timers e ++ [(1000%nat, CompleteCurrentCommand)])%list /\
  snap_gripperOpen (getState (resumeExecution (pauseExecution e))) = false.
Proof.
  apply (pause_resume_activates_again
           (startExecution (loadCommands [closeGripper; openGripper] initial))
           (Command.of_raw closeGripper 0) false); reflexivity.
Defined.

(** ** Command ingestion *)

Section Ingestion.

Lemma or_truthy (v d : JS.value) : JS.truthy d = true -> JS.truthy (JS.or v d) = true.
Proof. intros Hd. unfold JS.or. destruct (JS.truthy v) eqn:E; assumption. Qed.

Lemma or_of_truthy (v d : JS.value) : JS.truthy v = true -> JS.or v d = v.
Proof. intros H. unfold JS.or. rewrite H. reflexivity. Qed.

Lemma or_or_zero (v : JS.value) :
  JS.or (JS.or v (JS.Fin 0)) (JS.Fin 0) = JS.or v (JS.Fin 0).
Proof. apply or_idempotent. Qed.

End Ingestion.

(** X11: [loadRobotCommands] hands the visualizer a queue in which every
    entry has numeric [x], [y] and [z], a speed that is a number other than
    0, and a description that is not empty, with [index] its position and
    [completed] false; converting an already converted command changes
    nothing. *)
Theorem loadRobotCommands_normalises (commands : list Command.raw) (e : engine)
    (i : nat) (c : Command.t)
    (Hentry : commandQueue (loadRobotCommands commands e) !! i = Some c) :
  Vec.finite (Vec.mk (Command.x c) (Command.y c) (Command.z c)) /\
  JS.truthy (Command.speed c) = true /\
  (exists a d, Command.description c = Some (String a d)) /\
  Command.index c = i /\
  Command.completed c = false /\
  (forall r : Command.raw, robotCommand (robotCommand r) = robotCommand r) /\
  length (commandQueue (loadRobotCommands commands e)) = length commands /\
  currentCommandIndex (loadRobotCommands commands e) = 0%nat.
Proof.
  unfold loadRobotCommands, loadCommands in *. simpl in Hentry.
  apply lookup_loaded in Hentry as (r' & Hr' & ->).
  rewrite list_lookup_fmap in Hr'.
  destruct (commands !! i) as [r|]; [|discriminate]. injection Hr' as <-.
  split; [|split; [|split; [|split; [|split; [|split; [|split]]]]]].
  - simpl.
    destruct (or_finite (Command.raw_x r) 0) as [qx ->].
    destruct (or_finite (Command.raw_y r) 0) as [qy ->].
    destruct (or_finite (Command.raw_z r) 0) as [qz ->].
    exact I.
  - simpl. apply or_truthy. reflexivity.
  - simpl. destruct (Command.raw_description r) as [[|a d]|].
    + destruct (Command.raw_action r); simpl; eexists _, _; reflexivity.
    + eexists _, _; reflexivity.
    + destruct (Command.raw_action r); simpl; eexists _, _; reflexivity.
  - reflexivity.
  - reflexivity.
  - intros r0. unfold robotCommand. simpl.
    rewrite !or_idempotent. f_equal. f_equal.
    destruct (Command.raw_description r0) as [[|a d]|]; try reflexivity;
      destruct (Command.raw_action r0); reflexivity.
  - simpl. rewrite length_imap, length_map. reflexivity.
  - reflexivity.
Qed.

Lemma loadRobotCommands_normalises_witness :
  let c := Command.mk "move_to" (JS.Fin 0) (JS.Fin 5) (JS.Fin 0) (JS.Fin 50)
             (Some "move_to command"%string) 0 false in
  Vec.finite (Vec.mk (Command.x c) (Command.y c) (Command.z c)) /\
  JS.truthy (Command.speed c) = true /\
  (exists a d, Command.description c = Some (String a d)) /\
  Command.index c = 0%nat /\
  Command.completed c = false /\
  (forall r : Command.raw, robotCommand (robotCommand r) = robotCommand r) /\
  length (commandQueue
            (loadRobotCommands
               [Command.mkRaw "move_to" JS.Undefined (JS.Fin 5) JS.NaN JS.Undefined None]
               initial)) = 1%nat /\
  currentCommandIndex
    (loadRobotCommands
       [Command.mkRaw "move_to" JS.Undefined (JS.Fin 5) JS.NaN JS.Undefined None]
       initial) = 0%nat.
Proof.
  apply (loadRobotCommands_normalises
           [Command.mkRaw "move_to" JS.Undefined (JS.Fin 5) JS.NaN JS.Undefined None]
           initial 0). reflexivity.
Defined.

(** ** More about colour shading *)

Section ShadeFacts.

Import Color.
Local Open Scope Q_scope.

Lemma reads_all_digits : forallb reads_digit all_ascii = true.
Proof. vm_compute. reflexivity. Qed.

Lemma parseInt16_digit (c : ascii) (v : Z) :
  hex_digit c = Some v -> parseInt16 (String c EmptyString) = JS.Fin (inject_Z v).
Proof.
  intros H1. pose proof reads_all_digits as H.
  rewrite forallb_forall in H. specialize (H c (in_all_ascii c)).
  unfold reads_digit in H. rewrite H1 in H.
  apply (bool_decide_unpack _). apply Is_true_eq_left. exact H.
Qed.

Lemma shade_integer (v a : Q) :
  exists w : Z, shade (JS.Fin v) (JS.Fin a) = JS.Fin (inject_Z w).
Proof.
  destruct (shade_value v a) as (m & Hm & _). eexists. exact Hm.
Qed.

(** The value of [shade] as an integer. *)
Lemma shade_floor (v a : Q) :
  exists m : Q,
    shade (JS.Fin v) (JS.Fin a) = JS.Fin (inject_Z (Qfloor (m + (1 # 2)))) /\
    ((m == v + a * 255 /\ v + a * 255 <= 255) \/ (m == 255 /\ 255 <= v + a * 255)).
Proof.
  destruct (shade_value v a) as (m & Hm & [[H1 H2] | [H1 H2]]).
  - exists m. split; [exact Hm|]. left. split; [exact H1 | lra].
  - exists m. split; [exact Hm|]. right. split; assumption.
Qed.

Lemma Qfloor_255_half : Qfloor (255 + (1 # 2)) = 255%Z.
Proof. reflexivity. Qed.

Lemma remove_hash_free (s : string) : hash_free s -> remove_hash s = s.
Proof.
  induction s as [|c s IH]; simpl; [reflexivity|].
  intros [Hc Hs]. destruct (Ascii.eqb_spec c "#"%char); [contradiction|].
  rewrite IH by exact Hs. reflexivity.
Qed.

End ShadeFacts.

(** X12: no channel [lightenColor] prints exceeds 255, whatever the channel
    and the amount, and the channel is exactly 255 as soon as
    [channel + amount * 255] reaches 255; the transform grows with the
    channel and with the amount. *)
Theorem shade_is_capped_and_monotone (v a v' a' : Q) :
  exists w w' : Z,
    Color.shade (JS.Fin v) (JS.Fin a) = JS.Fin (inject_Z w) /\
    Color.shade (JS.Fin v') (JS.Fin a') = JS.Fin (inject_Z w') /\
    (w <= 255)%Z /\
    ((255 <= v + a * 255)%Q -> w = 255%Z) /\
    ((v <= v')%Q -> (a <= a')%Q -> (w <= w')%Z).
Proof.
  destruct (shade_floor v a) as (m & Hm & Hcase).
  destruct (shade_floor v' a') as (m' & Hm' & Hcase').
  exists (Qfloor (m + (1 # 2))), (Qfloor (m' + (1 # 2))).
  split; [exact Hm|]. split; [exact Hm'|].
  assert (m <= 255)%Q as Hcap by (destruct Hcase as [[-> ?] | [-> ?]]; lra).
  split; [|split].
  - change 255%Z with (Qfloor (255 + (1 # 2))). apply Qfloor_resp_le. lra.
  - intros Hsat. assert (m == 255)%Q as -> by (destruct Hcase as [[? ?] | [? ?]]; lra).
    reflexivity.
  - intros Hv Ha. apply Qfloor_resp_le.
    assert (m <= m')%Q; [|lra].
    assert (v + a * 255 <= v' + a' * 255)%Q as Hsum by lra.
    destruct Hcase as [[-> ?] | [-> ?]], Hcase' as [[-> ?] | [-> ?]]; lra.
Qed.

(** X13: with amount 0, [lightenColor] only changes the notation: for a
    colour [#rrggbb] it returns [rgb(R, G, B)] with the decimal values of
    the three hexadecimal bytes. *)
Theorem lightenColor_zero_converts_notation
    (c1 c2 c3 c4 c5 c6 : ascii) (r1 r2 g1 g2 b1 b2 : Z)
    (Hr1 : Color.hex_digit c1 = Some r1) (Hr2 : Color.hex_digit c2 = Some r2)
    (Hg1 : Color.hex_digit c3 = Some g1) (Hg2 : Color.hex_digit c4 = Some g2)
    (Hb1 : Color.hex_digit c5 = Some b1) (Hb2 : Color.hex_digit c6 = Some b2) :
  Color.lightenColor
    (String "#" (String c1 (String c2 (String c3 (String c4 (String c5
       (String c6 EmptyString))))))) (JS.Fin 0) =
  ("rgb(" ++ decimal (16 * r1 + r2) ++ ", " ++ decimal (16 * g1 + g2) ++ ", "
   ++ decimal (16 * b1 + b2) ++ ")")%string.
Proof.
  rewrite (lightenColor_hex c1 c2 c3 c4 c5 c6 r1 r2 g1 g2 b1 b2 _
             Hr1 Hr2 Hg1 Hg2 Hb1 Hb2).
  assert (forall v : Z, (0 <= v <= 255)%Z ->
            JS.to_string (Color.shade (JS.Fin (inject_Z v)) (JS.Fin 0)) = decimal v) as H.
  { intros v Hv. destruct (shade_floor (inject_Z v) 0) as (m & -> & Hcase).
    unfold JS.to_string, decimal. rewrite Qfloor_Z. do 2 f_equal.
    assert (inject_Z v <= 255)%Q as Hv255
      by (change 255%Q with (inject_Z 255); rewrite <- Zle_Qle; lia).
    assert (m == inject_Z v)%Q as -> by (destruct Hcase as [[? ?] | [? ?]]; lra).
    assert ((v <= Qfloor (inject_Z v + (1 # 2)) <= v)%Z); [|lia].
    apply Qfloor_between; lra. }
  pose proof (hex_digit_range c1 r1 Hr1). pose proof (hex_digit_range c2 r2 Hr2).
  pose proof (hex_digit_range c3 g1 Hg1). pose proof (hex_digit_range c4 g2 Hg2).
  pose proof (hex_digit_range c5 b1 Hb1). pose proof (hex_digit_range c6 b2 Hb2).
  rewrite !H by lia. reflexivity.
Qed.

Lemma lightenColor_zero_converts_notation_witness :
  Color.lightenColor "#ef4444" (JS.Fin 0) =
  ("rgb(" ++ decimal (16 * 14 + 15) ++ ", " ++ decimal (16 * 4 + 4) ++ ", "
   ++ decimal (16 * 4 + 4) ++ ")")%string.
Proof.
  apply (lightenColor_zero_converts_notation "e" "f" "4" "4" "4" "4" 14 15 4 4 4 4);
    reflexivity.
Defined.

(** X14: the leading [#] is optional: a colour text that contains no other
    [#] gives the same result with and without it. *)
Theorem lightenColor_hash_is_optional (s : string) (amount : JS.value)
    (Hfree : hash_free s) :
  Color.lightenColor (String "#" s) amount = Color.lightenColor s amount /\
  Color.darkenColor (String "#" s) amount = Color.darkenColor s amount.
Proof.
  unfold Color.darkenColor, Color.lightenColor.
  cbn [Color.remove_hash Ascii.eqb Bool.eqb].
  rewrite (remove_hash_free s Hfree). split; reflexivity.
Qed.

Lemma lightenColor_hash_is_optional_witness :
  Color.lightenColor "#3b82f6" (JS.Fin (3 # 10)) =
    Color.lightenColor "3b82f6" (JS.Fin (3 # 10)) /\
  Color.darkenColor "#3b82f6" (JS.Fin (3 # 10)) =
    Color.darkenColor "3b82f6" (JS.Fin (3 # 10)).
Proof.
  apply (lightenColor_hash_is_optional "3b82f6" (JS.Fin (3 # 10))).
  simpl. repeat split; discriminate.
Defined.

(** X15: a three-digit colour [#rgb] is not expanded: the first two digits
    are read as the red byte, the third alone as the green channel, and the
    blue channel comes out as [NaN]. *)
Theorem lightenColor_short_colour (c1 c2 c3 : ascii) (v1 v2 v3 : Z) (amount : JS.value)
    (H1 : Color.hex_digit c1 = Some v1)
    (H2 : Color.hex_digit c2 = Some v2)
    (H3 : Color.hex_digit c3 = Some v3) :
  Color.lightenColor (String "#" (String c1 (String c2 (String c3 EmptyString)))) amount =
  ("rgb(" ++ JS.to_string (Color.shade (JS.Fin (inject_Z (16 * v1 + v2))) amount)
   ++ ", " ++ JS.to_string (Color.shade (JS.Fin (inject_Z v3)) amount)
   ++ ", NaN)")%string.
Proof.
  unfold Color.lightenColor, Color.shade.
  cbn [Color.remove_hash Ascii.eqb Bool.eqb substring].
  rewrite (parseInt16_pair c1 c2 v1 v2 H1 H2), (parseInt16_digit c3 v3 H3).
  change (Color.parseInt16 EmptyString) with JS.NaN.
  reflexivity.
Qed.

Lemma lightenColor_short_colour_witness :
  Color.lightenColor "#fff" (JS.Fin (1 # 10)) =
  ("rgb(" ++ JS.to_string (Color.shade (JS.Fin (inject_Z (16 * 15 + 15))) (JS.Fin (1 # 10)))
   ++ ", " ++ JS.to_string (Color.shade (JS.Fin (inject_Z 15)) (JS.Fin (1 # 10)))
   ++ ", NaN)")%string.
Proof.
  apply (lightenColor_short_colour "f" "f" "f" 15 15 15); reflexivity.
Defined.

(** ** Toast notifications *)

Section NotifyFacts.

Import Notify.

Lemma shift_while_full_drop (l : list notification) :
  shift_while_full l = drop (length l - 4) l.
Proof.
  induction l as [|a l IH]; [reflexivity|].
  cbn [shift_while_full]. unfold maxNotifications.
  destruct (Nat.leb_spec 5 (length (a :: l))) as [Hfull | Hroom].
  - rewrite IH. simpl length in *.
    replace (S (length l) - 4)%nat with (S (length l - 4)) by lia.
    reflexivity.
  - simpl length in *. replace (S (length l) - 4)%nat with 0%nat by lia.
    reflexivity.
Qed.

Lemma findIndex_fresh (i : string) (l : list notification) :
  fresh i l -> findIndex i l = None.
Proof.
  induction l as [|n l IH]; intros H; [reflexivity|].
  simpl. destruct (String.eqb_spec (id n) i) as [E | _].
  - exfalso. apply (H n); [left; reflexivity | exact E].
  - rewrite IH; [reflexivity|]. intros m Hm. apply H. right. exact Hm.
Qed.

Lemma findIndex_first (i : string) (l1 l2 : list notification) (n : notification) :
  fresh i l1 -> id n = i -> findIndex i (l1 ++ n :: l2) = Some (length l1).
Proof.
  intros Hf Hn. induction l1 as [|m l1 IH]; simpl.
  - rewrite Hn, String.eqb_refl. reflexivity.
  - destruct (String.eqb_spec (id m) i) as [E | _].
    + exfalso. apply (Hf m); [left; reflexivity | exact E].
    + rewrite IH; [reflexivity|]. intros k Hk. apply Hf. right. exact Hk.
Qed.

Lemma delete_middle (l1 l2 : list notification) (n : notification) :
  delete (length l1) (l1 ++ n :: l2) = l1 ++ l2.
Proof. induction l1 as [|m l1 IH]; simpl; [reflexivity | rewrite IH; reflexivity]. Qed.

Lemma findIndex_lt (i : string) (l : list notification) (k : nat) :
  findIndex i l = Some k -> (k < length l)%nat.
Proof.
  revert k. induction l as [|n l IH]; intros k; simpl; [discriminate|].
  destruct (String.eqb (id n) i); [intros [= <-]; lia|].
  destruct (findIndex i l) as [j|]; simpl; [|discriminate].
  intros [= <-]. specialize (IH j eq_refl). lia.
Qed.

Lemma length_removeNotification (i : string) (l : list notification) :
  (length (removeNotification i l) <= length l)%nat.
Proof.
  unfold removeNotification. destruct (findIndex i l) as [k|] eqn:E; [|lia].
  rewrite length_delete; [lia|]. apply lookup_lt_is_Some_2, (findIndex_lt _ _ _ E).
Qed.

Lemma length_addNotification (n : notification) (l : list notification) :
  length (addNotification n l) = S (Nat.min (length l) 4).
Proof.
  unfold addNotification. rewrite length_app, shift_while_full_drop, length_drop.
  simpl. lia.
Qed.

Lemma removeNotification_first (i : string) (l1 l2 : list notification)
    (n : notification) :
  fresh i l1 -> id n = i -> removeNotification i (l1 ++ n :: l2) = l1 ++ l2.
Proof.
  intros Hbefore Hid. unfold removeNotification.
  rewrite (findIndex_first i l1 l2 n Hbefore Hid). apply delete_middle.
Qed.

Lemma removeNotification_absent (i : string) (l : list notification) :
  fresh i l -> removeNotification i l = l.
Proof.
  intros Hf. unfold removeNotification. rewrite findIndex_fresh; [reflexivity | exact Hf].
Qed.

End NotifyFacts.

(** X16: a notification manager never holds more than five notifications,
    whatever sequence of [show], [removeNotification] and [clear] calls it
    receives. *)
Theorem notifications_never_exceed_five (ops : list Notify.op) :
  (length (Notify.run ops []) <= Notify.maxNotifications)%nat.
Proof.
  unfold Notify.run, Notify.maxNotifications.
  assert (forall l, (length l <= 5)%nat ->
            (length (fold_left (fun l o => Notify.apply o l) ops l) <= 5)%nat) as H.
  { induction ops as [|o ops IH]; intros l Hl; [exact Hl|].
    simpl. apply IH. destruct o; simpl.
    - rewrite length_addNotification. lia.
    - pose proof (length_removeNotification i l). lia.
    - lia. }
  apply H. simpl. lia.
Qed.

(** X17: [addNotification] keeps the four newest notifications, in their
    order, drops the older ones and appends the new one at the end. *)
Theorem addNotification_evicts_oldest (n : Notify.notification)
    (l : list Notify.notification) :
  Notify.addNotification n l = drop (length l - 4) l ++ [n] /\
  length (Notify.addNotification n l) = S (Nat.min (length l) 4).
Proof.
  split; [|apply length_addNotification].
  unfold Notify.addNotification. rewrite shift_while_full_drop. reflexivity.
Qed.

(** X18: [removeNotification(id)] removes the first notification with that
    id and nothing else; when no notification has the id, the list is left
    as it is. *)
Theorem removeNotification_removes_first_match (i : string)
    (l1 l2 : list Notify.notification) (n : Notify.notification)
    (Hbefore : Notify.fresh i l1)
    (Hid : Notify.id n = i) :
  Notify.removeNotification i (l1 ++ n :: l2) = l1 ++ l2 /\
  (Notify.fresh i l2 -> Notify.removeNotification i (l1 ++ l2) = l1 ++ l2).
Proof.
  split.
  - apply removeNotification_first; assumption.
  - intros Hafter. apply removeNotification_absent.
    intros m Hm. apply in_app_or in Hm as [Hm | Hm]; [apply Hbefore | apply Hafter]; exact Hm.
Qed.

Lemma removeNotification_removes_first_match_witness :
  let a := Notify.mkNotification "a" "info" "A" "first" 5000 in
  let b := Notify.mkNotification "b" "error" "B" "second" 0 in
  let b' := Notify.mkNotification "b" "info" "B" "third" 5000 in
  Notify.removeNotification "b" ([a] ++ b :: [b']) = [a] ++ [b'] /\
  (Notify.fresh "b" [b'] -> Notify.removeNotification "b" ([a] ++ [b']) = [a] ++ [b']).
Proof.
  apply (removeNotification_removes_first_match "b"
           [Notify.mkNotification "a" "info" "A" "first" 5000]
           [Notify.mkNotification "b" "info" "B" "third" 5000]
           (Notify.mkNotification "b" "error" "B" "second" 0)).
  - intros m [<- | []]. discriminate.
  - reflexivity.
Defined.

(** X19: [show] returns the id of the notification it adds and, when the
    duration (5000 ms if none is given) is positive, registers a dismissal
    timer for that id and no timer otherwise. When the id is not in use,
    dismissing the notification afterwards gives back the notifications that
    were not evicted to make room: the whole previous list when it had at most
    four entries. *)
Theorem show_then_dismiss (i type title message : string) (duration : option Z)
    (l : list Notify.notification)
    (Hfresh : Notify.fresh i l) :
  let s := Notify.show i type title message duration l in
  let d := match duration with Some d => d | None => 5000%Z end in
  Notify.shown_id s = i /\
  Notify.shown_timer s = (if (0 <? d)%Z then Some (d, i) else None) /\
  Notify.removeNotification (Notify.shown_id s) (Notify.shown_list s) =
    drop (length l - 4) l /\
  ((length l <= 4)%nat ->
   Notify.removeNotification (Notify.shown_id s) (Notify.shown_list s) = l).
Proof.
  cbv zeta.
  assert (Notify.removeNotification i
            (Notify.shown_list (Notify.show i type title message duration l)) =
          drop (length l - 4) l) as H.
  { cbn [Notify.show Notify.shown_list]. unfold Notify.addNotification.
    rewrite shift_while_full_drop.
    rewrite removeNotification_first; [apply app_nil_r | | reflexivity].
    intros m Hm. apply Hfresh.
    rewrite <- list_elem_of_In in *. apply (subseteq_drop _ _ _ Hm). }
  split; [reflexivity|]. split; [reflexivity|]. split; [exact H|].
  intros Hlen. cbn [Notify.show Notify.shown_id Notify.createNotification Notify.id] in *.
  rewrite H. replace (length l - 4)%nat with 0%nat by lia. reflexivity.
Qed.

Lemma show_then_dismiss_witness :
  let l := [Notify.mkNotification "a" "info" "A" "first" 5000] in
  let s := Notify.show "n" "success" "N" "new" None l in
  Notify.shown_id s = "n"%string /\
  Notify.shown_timer s = Some (5000%Z, "n"%string) /\
  Notify.removeNotification (Notify.shown_id s) (Notify.shown_list s) =
    drop (length l - 4) l /\
  ((length l <= 4)%nat ->
   Notify.removeNotification (Notify.shown_id s) (Notify.shown_list s) = l).
Proof.
  apply (show_then_dismiss "n" "success" "N" "new" None
           [Notify.mkNotification "a" "info" "A" "first" 5000]).
  intros m [<- | []]. discriminate.
Defined.

(** ** Backend requests *)

Section RequestFacts.

Import API.

Context {A : Type}.
Variable c : client.
Variable host : nat -> outcome A.

Lemma request_loop_lastError (r a : nat) (last : option error) :
  request_loop c host (S r) a last = request_loop c host (S r) a None.
Proof. reflexivity. Qed.

Lemma request_loop_retried (k r a : nat) (last : option error) :
  (a + k <= retryAttempts c)%nat ->
  (forall j, (a <= j < a + k)%nat -> retried (host j)) ->
  request_loop c host (k + S r) a last =
    mkTrace (k + fetches (request_loop c host (S r) (a + k) None))
            (waits c a k ++ delays (request_loop c host (S r) (a + k) None))
            (outcome_of (request_loop c host (S r) (a + k) None)).
Proof.
  revert a last. induction k as [|k IH]; intros a last Hle Hretried.
  - rewrite Nat.add_0_r, Nat.add_0_l, (request_loop_lastError r a last).
    destruct (request_loop c host (S r) a None); reflexivity.
  - assert (retried (host a)) as Ha by (apply Hretried; lia).
    change (S k + S r)%nat with (S (k + S r)).
    cbn [request_loop]. unfold retried in Ha.
    destruct (attempt_once (host a)) as [data | e]; [contradiction|].
    destruct Ha as [Hname Hretry].
    destruct (String.eqb_spec (name e) "AbortError") as [E | _]; [contradiction|].
    destruct (Nat.ltb_spec a (retryAttempts c)) as [_ | Hge]; [|lia].
    rewrite Hretry. cbn [andb].
    rewrite (IH (S a) (Some e)); [| lia | intros j Hj; apply Hretried; lia].
    unfold after_retry. cbn [fetches delays outcome_of].
    replace (S a + k)%nat with (a + S k)%nat by lia.
    reflexivity.
Qed.

Lemma request_retried (k : nat) :
  (k < retryAttempts c)%nat ->
  (forall j, (1 <= j <= k)%nat -> retried (host j)) ->
  request c host =
    let t := request_loop c host (S (retryAttempts c - S k)) (S k) None in
    mkTrace (k + fetches t) (waits c 1 k ++ delays t) (outcome_of t).
Proof.
  intros Hk Hretried. unfold request.
  replace (retryAttempts c) with (k + S (retryAttempts c - S k))%nat at 1 by lia.
  rewrite request_loop_retried; [reflexivity | lia | intros j Hj; apply Hretried; lia].
Qed.

Lemma request_loop_shape (r a : nat) (last : option error) :
  (a + r = retryAttempts c)%nat ->
  let t := request_loop c host (S r) a last in
  (1 <= fetches t <= S r)%nat /\
  delays t = waits c a (fetches t - 1) /\
  outcome_of t <> ThrowUndefined.
Proof.
  revert a last. induction r as [|r IH]; intros a last Hsum; cbv zeta.
  - cbn [request_loop].
    destruct (attempt_once (host a)) as [data | e];
      [cbn; repeat split; try lia; discriminate|].
    destruct (String.eqb (name e) "AbortError");
      [cbn; repeat split; try lia; discriminate|].
    destruct (Nat.ltb_spec a (retryAttempts c)) as [Hlt | _]; [lia|].
    cbn; repeat split; try lia; discriminate.
  - change (request_loop c host (S (S r)) a last) with
      (match attempt_once (host a) with
       | inl data => mkTrace 1 [] (Return data)
       | inr e =>
           if String.eqb (name e) "AbortError" then
             mkTrace 1 [] (Throw (Error "Request timeout"))
           else if (a <? retryAttempts c)%nat && shouldRetry e then
             after_retry (retryDelay c * Z.of_nat a)
               (request_loop c host (S r) (S a) (Some e))
           else mkTrace 1 [] (Throw e)
       end).
    destruct (attempt_once (host a)) as [data | e];
      [cbn; repeat split; try lia; discriminate|].
    destruct (String.eqb (name e) "AbortError");
      [cbn; repeat split; try lia; discriminate|].
    destruct ((a <? retryAttempts c)%nat && shouldRetry e);
      [|cbn; repeat split; try lia; discriminate].
    destruct (IH (S a) (Some e)) as (Hf & Hd & Ho); [lia|].
    unfold after_retry. cbn [fetches delays outcome_of].
    split; [lia|]. split; [|exact Ho].
    rewrite Hd. unfold waits.
    replace (S (fetches (request_loop c host (S r) (S a) (Some e))) - 1)%nat
      with (S (fetches (request_loop c host (S r) (S a) (Some e)) - 1)) by lia.
    reflexivity.
Qed.

End RequestFacts.

Section RetryKeywords.

Import API.

Lemma includes_prefix (sub s : string) :
  String.prefix sub s = true -> includes sub s = true.
Proof. intros H. destruct s; simpl in *; rewrite H; reflexivity. Qed.

Lemma includes_tail (sub : string) (ch : ascii) (s : string) :
  includes sub s = true -> includes sub (String ch s) = true.
Proof. intros H. cbn [includes]. rewrite H. apply orb_true_r. Qed.

Lemma prefix_append (sub s : string) : String.prefix sub (sub ++ s) = true.
Proof.
  induction sub as [|ch sub IH]; simpl; [destruct s; reflexivity|].
  destruct (Ascii.ascii_dec ch ch); [exact IH | contradiction].
Qed.

Lemma includes_append (sub pre s : string) :
  includes sub (pre ++ sub ++ s) = true.
Proof.
  induction pre as [|ch pre IH].
  - change (includes sub (sub ++ s) = true). apply includes_prefix, prefix_append.
  - change (includes sub (String ch (pre ++ sub ++ s)) = true). apply includes_tail, IH.
Qed.

Lemma server_error_retried {A : Type} (status : Z) (statusText : string) :
  In status [500; 502; 503; 504]%Z ->
  retried (@NotOk A None status statusText).
Proof.
  intros Hin. unfold retried. cbn [attempt_once http_message Error name].
  split; [discriminate|].
  unfold shouldRetry, Error. cbn [message].
  destruct Hin as [<- | [<- | [<- | [<- | []]]]].
  - change (decimal 500) with "500"%string.
    rewrite (includes_append "500" "HTTP " (": " ++ statusText)).
    rewrite !orb_true_r. reflexivity.
  - change (decimal 502) with "502"%string.
    rewrite (includes_append "502" "HTTP " (": " ++ statusText)).
    rewrite !orb_true_r. reflexivity.
  - change (decimal 503) with "503"%string.
    rewrite (includes_append "503" "HTTP " (": " ++ statusText)).
    rewrite !orb_true_r. reflexivity.
  - change (decimal 504) with "504"%string.
    rewrite (includes_append "504" "HTTP " (": " ++ statusText)).
    rewrite !orb_true_r. reflexivity.
Qed.

End RetryKeywords.

(** X20: a call of [request] makes at least one and at most [retryAttempts]
    fetches, waits [retryDelay * k] before the retry that follows attempt
    [k] and nothing else, and ends by returning data or throwing an error
    object. *)
Theorem request_attempts_are_bounded {A : Type} (c : API.client)
    (host : nat -> API.outcome A)
    (Hattempts : (1 <= API.retryAttempts c)%nat) :
  let t := API.request c host in
  (1 <= API.fetches t <= API.retryAttempts c)%nat /\
  API.delays t =
    map (fun k => (API.retryDelay c * Z.of_nat k)%Z) (seq 1 (API.fetches t - 1)) /\
  API.outcome_of t <> API.ThrowUndefined.
Proof.
  cbv zeta. unfold API.request.
  destruct (API.retryAttempts c) as [|r] eqn:E; [lia|].
  destruct (request_loop_shape c host r 1 None) as (Hf & Hd & Ho); [lia|].
  split; [exact Hf|]. split; [exact Hd | exact Ho].
Qed.

Lemma request_attempts_are_bounded_witness :
  let host := fun k : nat =>
    if (k <? 3)%nat then API.NotOk None 503 "Service Unavailable" else API.Ok 7%Z in
  let t := API.request API.APIClient host in
  (1 <= API.fetches t <= 3)%nat /\
  API.delays t =
    map (fun k => (1000 * Z.of_nat k)%Z) (seq 1 (API.fetches t - 1)) /\
  API.outcome_of t <> API.ThrowUndefined.
Proof.
  apply (request_attempts_are_bounded API.APIClient
           (fun k : nat =>
              if (k <? 3)%nat then API.NotOk None 503 "Service Unavailable"
              else API.Ok 7%Z)).
  simpl. lia.
Defined.

(** X21: when the first [k] attempts fail with errors that are retried and
    attempt [k+1] is within the limit, the call ends at attempt [k+1] if it
    succeeds (its data is returned) or is aborted by the timeout (the error
    thrown is [Request timeout], not retried), after [k+1] fetches and the
    waits [retryDelay * 1 .. retryDelay * k]. *)
Theorem request_ends_on_success_or_timeout {A : Type} (c : API.client)
    (host : nat -> API.outcome A) (k : nat)
    (Hwithin : (k < API.retryAttempts c)%nat)
    (Hretried : forall j, (1 <= j <= k)%nat -> API.retried (host j)) :
  let waited := map (fun j => (API.retryDelay c * Z.of_nat j)%Z) (seq 1 k) in
  (forall data, host (S k) = API.Ok data ->
     API.request c host = API.mkTrace (S k) waited (API.Return data)) /\
  (forall e, host (S k) = API.Rejected e -> API.name e = "AbortError"%string ->
     API.request c host =
       API.mkTrace (S k) waited (API.Throw (API.Error "Request timeout"))).
Proof.
  cbv zeta. split.
  - intros data Hk. rewrite (request_retried c host k Hwithin Hretried).
    cbv zeta. cbn [API.request_loop]. rewrite Hk. cbn.
    rewrite Nat.add_1_r, app_nil_r. reflexivity.
  - intros e Hk Hname. rewrite (request_retried c host k Hwithin Hretried).
    cbv zeta. cbn [API.request_loop]. rewrite Hk. cbn [API.attempt_once].
    rewrite Hname. cbn.
    rewrite Nat.add_1_r, app_nil_r. reflexivity.
Qed.

Lemma request_ends_on_success_or_timeout_witness :
  let host := fun k : nat =>
    if (k <? 3)%nat then API.NotOk None 503 "Service Unavailable" else API.Ok 7%Z in
  let waited := map (fun j => (1000 * Z.of_nat j)%Z) (seq 1 2) in
  (forall data, host 3%nat = API.Ok data ->
     API.request API.APIClient host = API.mkTrace 3 waited (API.Return data)) /\
  (forall e, host 3%nat = API.Rejected e -> API.name e = "AbortError"%string ->
     API.request API.APIClient host =
       API.mkTrace 3 waited (API.Throw (API.Error "Request timeout"))).
Proof.
  apply (request_ends_on_success_or_timeout API.APIClient
           (fun k : nat =>
              if (k <? 3)%nat then API.NotOk None 503 "Service Unavailable"
              else API.Ok 7%Z) 2).
  - simpl. lia.
  - intros j Hj.
    assert (j = 1 \/ j = 2)%nat as [-> | ->] by lia;
      (split; [discriminate | reflexivity]).
Defined.

(** X22: for a response that is not ok and whose body has a non-empty
    [error] text, the error thrown carries that text and the retry decision
    is taken on that text alone, whatever the HTTP status: without one of the
    keywords the call ends after a single fetch, with one of them (and more
    than one attempt allowed) it fetches again. *)
Theorem error_body_decides_retry {A : Type} (c : API.client)
    (host : nat -> API.outcome A) (text statusText : string) (status : Z)
    (Hattempts : (1 <= API.retryAttempts c)%nat)
    (Hresponse : host 1%nat = API.NotOk (Some text) status statusText)
    (Htext : text <> ""%string) :
  (API.shouldRetry (API.Error text) = false ->
   API.request c host = API.mkTrace 1 [] (API.Throw (API.Error text))) /\
  (API.shouldRetry (API.Error text) = true -> (1 < API.retryAttempts c)%nat ->
   (2 <= API.fetches (API.request c host))%nat).
Proof.
  assert (API.attempt_once (host 1%nat) = inr (API.Error text)) as Hone.
  { rewrite Hresponse. cbn [API.attempt_once API.http_message].
    destruct (String.eqb_spec text ""); [contradiction | reflexivity]. }
  unfold API.request.
  destruct (API.retryAttempts c) as [|r] eqn:E; [lia|].
  split.
  - intros Hno. cbn [API.request_loop]. rewrite Hone. cbn [API.Error API.name].
    change (String.eqb "Error" "AbortError") with false. cbv iota.
    change (API.mkError "Error" text) with (API.Error text).
    rewrite Hno, andb_false_r. reflexivity.
  - intros Hyes Hmore. destruct r as [|r]; [lia|].
    change (API.request_loop c host (S (S r)) 1 None) with
      (match API.attempt_once (host 1%nat) with
       | inl data => API.mkTrace 1 [] (API.Return data)
       | inr e =>
           if String.eqb (API.name e) "AbortError" then
             API.mkTrace 1 [] (API.Throw (API.Error "Request timeout"))
           else if (1 <? API.retryAttempts c)%nat && API.shouldRetry e then
             API.after_retry (API.retryDelay c * Z.of_nat 1)
               (API.request_loop c host (S r) 2 (Some e))
           else API.mkTrace 1 [] (API.Throw e)
       end).
    rewrite Hone. cbn [API.Error API.name].
    change (String.eqb "Error" "AbortError") with false. cbv iota.
    change (API.mkError "Error" text) with (API.Error text).
    rewrite Hyes, E. cbn [Nat.ltb Nat.leb andb].
    destruct (request_loop_shape c host r 2 (Some (API.Error text))) as (Hf & _); [lia|].
    unfold API.after_retry. cbn [API.fetches]. lia.
Qed.

Lemma error_body_decides_retry_witness :
  let host := fun _ : nat =>
    @API.NotOk Z (Some "Service unavailable"%string) 503 "Service Unavailable" in
  (API.shouldRetry (API.Error "Service unavailable") = false ->
   API.request API.APIClient host =
     API.mkTrace 1 [] (API.Throw (API.Error "Service unavailable"))) /\
  (API.shouldRetry (API.Error "Service unavailable") = true ->
   (1 < API.retryAttempts API.APIClient)%nat ->
   (2 <= API.fetches (API.request API.APIClient host))%nat).
Proof.
  apply (error_body_decides_retry API.APIClient
           (fun _ : nat =>
              @API.NotOk Z (Some "Service unavailable"%string) 503 "Service Unavailable")
           "Service unavailable" "Service Unavailable" 503).
  - simpl. lia.
  - reflexivity.
  - discriminate.
Defined.

(** X23: when every attempt meets a response with status 500, 502, 503 or
    504 and no [error] text in its body, all [retryAttempts] fetches are
    made, with the waits in between, and the error thrown is the one of the
    last attempt. *)
Theorem server_errors_use_every_attempt {A : Type} (c : API.client)
    (host : nat -> API.outcome A) (status : nat -> Z) (statusText : nat -> string)
    (Hattempts : (1 <= API.retryAttempts c)%nat)
    (Hresponses : forall j, (1 <= j <= API.retryAttempts c)%nat ->
       host j = API.NotOk None (status j) (statusText j) /\
       In (status j) [500; 502; 503; 504]%Z) :
  let n := API.retryAttempts c in
  API.request c host =
    API.mkTrace n
      (map (fun j => (API.retryDelay c * Z.of_nat j)%Z) (seq 1 (n - 1)))
      (API.Throw (API.Error (API.http_message None (status n) (statusText n)))).
Proof.
  cbv zeta.
  destruct (API.retryAttempts c) as [|r] eqn:E; [lia|].
  rewrite (request_retried c host r).
  - cbv zeta. rewrite E.
    replace (S r - S r)%nat with 0%nat by lia.
    cbn [API.request_loop].
    destruct (Hresponses (S r)) as [Hlast _]; [lia|].
    rewrite Hlast. cbn [API.attempt_once API.Error API.name].
    change (String.eqb "Error" "AbortError") with false. cbv iota.
    rewrite E, Nat.ltb_irrefl. cbn [andb API.fetches API.delays API.outcome_of].
    rewrite Nat.add_1_r, app_nil_r.
    replace (S r - 1)%nat with r by lia. reflexivity.
  - lia.
  - intros j Hj. destruct (Hresponses j) as [Hj1 Hj2]; [lia|].
    rewrite Hj1. apply server_error_retried, Hj2.
Qed.

Lemma server_errors_use_every_attempt_witness :
  let host := fun _ : nat => @API.NotOk Z None 503 "Service Unavailable" in
  API.request API.APIClient host =
    API.mkTrace 3
      (map (fun j => (1000 * Z.of_nat j)%Z) (seq 1 (3 - 1)))
      (API.Throw (API.Error (API.http_message None 503 "Service Unavailable"))).
Proof.
  apply (server_errors_use_every_attempt API.APIClient
           (fun _ : nat => @API.NotOk Z None 503 "Service Unavailable")
           (fun _ => 503%Z) (fun _ => "Service Unavailable"%string)).
  - simpl. lia.
  - intros j _. split; [reflexivity | simpl; tauto].
Defined.

(** X24: [validateImage] resolves exactly for a present file whose type
    starts with [image/], whose size is at most 10485760 bytes, and which
    decodes to an image between 100 and 4096 pixels in both width and
    height, bounds included; the value it resolves with repeats the decoded
    dimensions and the file's size, type and name. *)
Theorem validateImage_accepts_exactly (f : option API.file) (d : API.decoding)
    (img : API.image) :
  API.validateImage f d = inl img <->
  exists file url w h,
    f = Some file /\ d = API.Decoded url w h /\
    String.prefix "image/" (API.file_type file) = true /\
    (API.file_size file <= 10485760)%Z /\
    (100 <= w <= 4096)%Z /\ (100 <= h <= 4096)%Z /\
    img = API.mkImage url w h (API.file_size file) (API.file_type file)
            (API.file_name file).
Proof.
  split.
  - unfold API.validateImage.
    destruct f as [file|]; [|discriminate].
    destruct (String.prefix "image/" (API.file_type file)) eqn:Htype; [|discriminate].
    cbn [negb].
    destruct (Z.ltb_spec (10 * 1024 * 1024) (API.file_size file)) as [|Hsize]; [discriminate|].
    destruct d as [| | url w h]; [discriminate | discriminate |].
    destruct (Z.ltb_spec w 100); [discriminate|].
    destruct (Z.ltb_spec h 100); [discriminate|].
    destruct (Z.ltb_spec 4096 w); [discriminate|].
    destruct (Z.ltb_spec 4096 h); [discriminate|].
    cbn [orb]. intros [= <-].
    exists file, url, w, h.
    split; [reflexivity|]. split; [reflexivity|]. split; [exact Htype|].
    split; [lia|]. split; [lia|]. split; [lia | reflexivity].
  - intros (file & url & w & h & -> & -> & Htype & Hsize & Hw & Hh & ->).
    unfold API.validateImage. rewrite Htype. cbn [negb].
    destruct (Z.ltb_spec (10 * 1024 * 1024) (API.file_size file)); [lia|].
    destruct (Z.ltb_spec w 100); [lia|].
    destruct (Z.ltb_spec h 100); [lia|].
    destruct (Z.ltb_spec 4096 w); [lia|].
    destruct (Z.ltb_spec 4096 h); [lia|].
    reflexivity.
Qed.

(** ** Projection, scene objects and the drawn arm *)

Section ProjectionFacts.

Import Projector.
Local Open Scope R_scope.

Lemma cos_PI6_pos : 0 < cos (PI / 6).
Proof. rewrite cos_PI6. apply Rdiv_lt_0_compat; [apply sqrt_lt_R0|]; lra. Qed.

Lemma project3D_eq (cam : camera) (x y z x' y' z' : R) :
  scale cam <> 0 ->
  project3D cam x y z = project3D cam x' y' z' ->
  x - y = x' - y' /\ (x + y) / 2 + z = (x' + y') / 2 + z'.
Proof.
  intros Hs H. unfold project3D in H. injection H as Hx Hy.
  rewrite sin_PI6 in Hy. pose proof cos_PI6_pos as Hc.
  split.
  - assert ((x - y) * (cos (PI / 6) * scale cam) =
            (x' - y') * (cos (PI / 6) * scale cam)) as E by lra.
    apply Rmult_eq_reg_r in E; [exact E|].
    apply Rmult_integral_contrapositive_currified; [lra | exact Hs].
  - assert (((x + y) / 2 + z) * scale cam = ((x' + y') / 2 + z') * scale cam) as E by lra.
    apply Rmult_eq_reg_r in E; [exact E | exact Hs].
Qed.

End ProjectionFacts.

(** X25: with a non-zero scale, two points of space have the same image
    under [project3D] exactly when they differ by a multiple of the
    direction [(1, 1, -1)]: the projection loses that one direction and
    nothing else. *)
Theorem project3D_same_image (cam : Projector.camera) (x y z x' y' z' : R)
    (Hscale : Projector.scale cam <> 0%R) :
  Projector.project3D cam x y z = Projector.project3D cam x' y' z' <->
  exists t : R, (x' = x + t /\ y' = y + t /\ z' = z - t)%R.
Proof.
  split.
  - intros H. destruct (project3D_eq cam x y z x' y' z' Hscale H) as [H1 H2].
    exists (x' - x)%R. split; [lra|]. split; lra.
  - intros (t & -> & -> & ->). unfold Projector.project3D.
    rewrite sin_PI6. f_equal; field.
Qed.

Lemma project3D_same_image_witness :
  (let cam := Projector.mkCamera (3 / 2) 400 420 in
   Projector.project3D cam 10 20 30 = Projector.project3D cam 15 25 25 <->
   exists t : R, 15 = 10 + t /\ 25 = 20 + t /\ 25 = 30 - t)%R.
Proof.
  apply (project3D_same_image (Projector.mkCamera (3 / 2) 400 420)
           10 20 30 15 25 25)%R.
  simpl. lra.
Defined.

Section SceneFacts.

Import Scene.
Local Open Scope R_scope.

Lemma project3D_no_height (cam : Projector.camera) (x y : num) :
  py (project3D cam x y NaN) = NaN.
Proof.
  unfold project3D. cbn [py].
  destruct (sub (Re (Projector.centerY cam))
              (mul (mul (add x y) (Re (sin (PI / 6)))) (Re (Projector.scale cam))));
    reflexivity.
Qed.

Lemma project3D_real (cam : Projector.camera) (x y z : R) :
  project3D cam (Re x) (Re y) (Re z) =
  mkPoint2 (Re (Projector.screenX (Projector.project3D cam x y z)))
           (Re (Projector.screenY (Projector.project3D cam x y z))).
Proof. reflexivity. Qed.

End SceneFacts.

(** X26: [drawObjects] passes the projected point of an object to
    [drawCube] and [drawCylinder], which read it as a position; it has no
    [z], so all eight vertices of every cube and the top of every cylinder
    of the scene get [NaN] as their vertical screen coordinate, wherever the
    object is. Called with a position that has its three coordinates, as for
    the base of the arm, [drawCylinder] computes the projection of the point
    [height] above it. *)
Theorem scene_cubes_and_cylinders_have_no_height (cam : Projector.camera)
    (x y z : R) :
  (Forall (fun v => Scene.py v = Scene.NaN)
          (Scene.drawCube_vertices cam (Scene.drawObjects_pos cam x y z) 20) /\
   Scene.py (Scene.drawCylinder_top cam (Scene.drawObjects_pos cam x y z) 20) =
     Scene.NaN /\
   Scene.drawCylinder_top cam (Scene.at_coords x y z) 20 =
     Scene.mkPoint2
       (Scene.Re (Projector.screenX (Projector.project3D cam x y (z + 20))))
       (Scene.Re (Projector.screenY (Projector.project3D cam x y (z + 20)))))%R.
Proof.
  split; [|split].
  - unfold Scene.drawCube_vertices, Scene.drawObjects_pos, Scene.as_position.
    cbn [Scene.pos_z Scene.to_number Scene.sub Scene.add Scene.lift2].
    repeat constructor; apply project3D_no_height.
  - unfold Scene.drawCylinder_top, Scene.drawObjects_pos, Scene.as_position.
    cbn [Scene.pos_z Scene.to_number Scene.add Scene.lift2].
    apply project3D_no_height.
  - reflexivity.
Qed.

Section ArmFacts.

Import Arm.
Local Open Scope R_scope.

Lemma atan2_stretch (k y x : R) : 0 < k -> atan2 (k * y) (k * x) = atan2 y x.
Proof.
  intros Hk. unfold atan2.
  assert (x <> 0 -> k * y / (k * x) = y / x) as Hq by (intros Hx; field; lra).
  destruct (Rlt_dec 0 (k * x)) as [H1 | H1], (Rlt_dec 0 x) as [H2 | H2];
    [rewrite Hq by lra; reflexivity | exfalso; nra | exfalso; nra |].
  destruct (Rlt_dec (k * x) 0) as [H3 | H3], (Rlt_dec x 0) as [H4 | H4];
    [| exfalso; nra | exfalso; nra |].
  - destruct (Rle_dec 0 (k * y)) as [H5 | H5], (Rle_dec 0 y) as [H6 | H6];
      [rewrite Hq by lra; reflexivity | exfalso; nra | exfalso; nra
      | rewrite Hq by lra; reflexivity].
  - destruct (Rlt_dec 0 (k * y)) as [H5 | H5], (Rlt_dec 0 y) as [H6 | H6];
      [reflexivity | exfalso; nra | exfalso; nra |].
    destruct (Rlt_dec (k * y) 0) as [H7 | H7], (Rlt_dec y 0) as [H8 | H8];
      [reflexivity | exfalso; nra | exfalso; nra | reflexivity].
Qed.

Lemma distance_stretch (k x y : R) :
  0 < k -> sqrt ((k * x) ^ 2 + (k * y) ^ 2) = k * sqrt (x ^ 2 + y ^ 2).
Proof.
  intros Hk.
  replace ((k * x) ^ 2 + (k * y) ^ 2) with (k ^ 2 * (x ^ 2 + y ^ 2)) by ring.
  rewrite sqrt_mult; [| nra | nra].
  rewrite sqrt_pow2 by lra. reflexivity.
Qed.

Lemma unit_dot (a b : R) : cos a * cos b + sin a * sin b <= 1.
Proof. rewrite <- cos_minus. apply COS_bound. Qed.

End ArmFacts.

(** X27: over the reals, the arm that [drawRobotArm] computes depends only
    on the direction of the current position: stretching the position by a
    positive factor gives the same angles and the same joints, so the drawn
    end effector does not follow the distance of the position. *)
Theorem drawn_arm_ignores_distance (k : R) (p : Arm.point3)
    (Hk : (0 < k)%R) :
  Arm.drawRobotArm (Arm.stretch k p) = Arm.drawRobotArm p.
Proof.
  unfold Arm.drawRobotArm, Arm.stretch. cbn [Arm.x3 Arm.y3 Arm.z3].
  rewrite (distance_stretch k _ _ Hk), !(atan2_stretch k _ _ Hk).
  reflexivity.
Qed.

Lemma drawn_arm_ignores_distance_witness :
  (Arm.drawRobotArm (Arm.stretch 2 (Arm.mkPoint3 100 50 30)) =
   Arm.drawRobotArm (Arm.mkPoint3 100 50 30))%R.
Proof.
  apply (drawn_arm_ignores_distance 2 (Arm.mkPoint3 100 50 30))%R. lra.
Defined.

(** X28: over the reals, whatever the current position, the first joint is
    drawn 80 units from the vertical axis of the base at height 20, and the
    end effector stays within 180 units of that axis and between the
    heights -80 and 120. *)
Theorem drawn_arm_reach (p : Arm.point3) :
  (let a := Arm.drawRobotArm p in
   Arm.x3 (Arm.joint1_3d a) ^ 2 + Arm.y3 (Arm.joint1_3d a) ^ 2 = 80 ^ 2 /\
   Arm.z3 (Arm.joint1_3d a) = 20 /\
   Arm.x3 (Arm.endEffector_3d a) ^ 2 + Arm.y3 (Arm.endEffector_3d a) ^ 2 <= 180 ^ 2 /\
   -80 <= Arm.z3 (Arm.endEffector_3d a) <= 120)%R.
Proof.
  cbv zeta. unfold Arm.drawRobotArm.
  cbn [Arm.joint1_3d Arm.joint2_3d Arm.endEffector_3d Arm.x3 Arm.y3 Arm.z3].
  unfold Arm.armLength1, Arm.armLength2, Arm.armLength3.
  set (a1 := Arm.atan2 (Arm.y3 p) (Arm.x3 p)).
  set (a2 := (Arm.atan2 (Arm.z3 p) (sqrt (Arm.x3 p ^ 2 + Arm.y3 p ^ 2)) * (5 / 10))%R).
  set (a3 := (a2 * (3 / 10))%R).
  pose proof (sin2_cos2 a1) as U1. pose proof (sin2_cos2 (a1 + a2)%R) as U2.
  pose proof (sin2_cos2 (a1 + a2 + a3)%R) as U3.
  unfold Rsqr in U1, U2, U3.
  pose proof (unit_dot a1 (a1 + a2)%R) as D12.
  pose proof (unit_dot a1 (a1 + a2 + a3)%R) as D13.
  pose proof (unit_dot (a1 + a2)%R (a1 + a2 + a3)%R) as D23.
  pose proof (SIN_bound a2) as [S2l S2u]. pose proof (SIN_bound a3) as [S3l S3u].
  split; [nra|]. split; [reflexivity|]. split; [nra | lra].
Qed.

(** ** Defaults for missing command fields, and what drawing raises *)

Section DrawFacts.

Import Scene Draw.

Lemma endEffector_number (cam : Projector.camera) (x y z : R) :
  exists a b : R, endEffector cam (Re x) (Re y) (Re z) = mkPoint2 (Re a) (Re b).
Proof. eexists. eexists. reflexivity. Qed.

(** On numbers the end effector is the projection of the one
    [Arm.drawRobotArm] computes. *)
Lemma endEffector_real (cam : Projector.camera) (x y z : R) :
  endEffector cam (Re x) (Re y) (Re z) =
  let p := Arm.endEffector_3d (Arm.drawRobotArm (Arm.mkPoint3 x y z)) in
  project3D cam (Re (Arm.x3 p)) (Re (Arm.y3 p)) (Re (Arm.z3 p)).
Proof. reflexivity. Qed.

Lemma endEffector_nan (cam : Projector.camera) (x y z : num) :
  is_nan x || is_nan y || is_nan z = true -> px (endEffector cam x y z) = NaN.
Proof.
  destruct x as [|x], y as [|y], z as [|z]; intros H; try reflexivity.
  discriminate H.
Qed.

Lemma drawObjects_never_throws (cam : Projector.camera) :
  drawObjects_throws cam objects = false.
Proof. reflexivity. Qed.

Lemma of_value_finite (p : Vec.t) :
  Vec.finite p <->
  is_nan (of_value (Vec.x p)) || is_nan (of_value (Vec.y p))
    || is_nan (of_value (Vec.z p)) = false.
Proof.
  destruct p as [[| |x] [| |y] [| |z]]; simpl; split; intros H;
    try exact I; try reflexivity; try contradiction; try discriminate.
Qed.

(** [draw()] raises exactly when a coordinate of the position it draws is
    not a number. *)
Lemma draw_throws_iff (cam : Projector.camera) (e : engine) :
  draw_throws cam e = true <-> ~ Vec.finite (currentPosition e).
Proof.
  unfold draw_throws. rewrite drawObjects_never_throws. cbn [orb].
  unfold drawRobotArm_throws. rewrite of_value_finite.
  destruct (is_nan (of_value (Vec.x (currentPosition e)))
            || is_nan (of_value (Vec.y (currentPosition e)))
            || is_nan (of_value (Vec.z (currentPosition e)))) eqn:E.
  - split; [intros _; discriminate|]. intros _.
    unfold createRadialGradient_throws, drawSphere_gradient.
    rewrite (endEffector_nan cam _ _ _ E). reflexivity.
  - split; [|intros H; contradiction H; reflexivity]. intros H. exfalso.
    destruct (of_value (Vec.x (currentPosition e))) as [|x]; [discriminate E|].
    destruct (of_value (Vec.y (currentPosition e))) as [|y]; [discriminate E|].
    destruct (of_value (Vec.z (currentPosition e))) as [|z]; [discriminate E|].
    destruct (endEffector_number cam x y z) as (a & b & Hab).
    rewrite Hab in H. discriminate H.
Qed.

End DrawFacts.

(** C7, as the code has it: when a [move_to] entry of the loaded queue is
    activated, the engine takes its [x], [y], [z] as they are and uses the
    rate [(speed || 50) / 2500], so a missing speed counts as 50; the
    defaults 0, 0, 0 for missing coordinates come from the controller's
    [loadRobotCommands], through which every activated [move_to] has a
    numeric target with 0 in place of each missing coordinate.  The engine
    does not guard what it draws: [draw()] raises exactly when a coordinate
    of [currentPosition] is not a number, and when a running engine
    activates a [move_to] that lacks a numeric coordinate, the next call of
    [animate()] makes the position non-numeric and raises. *)
Theorem move_to_defaults (commands : list Command.raw) (e : engine)
    (i : nat) (raw : Command.raw)
    (Hi : commands !! i = Some raw)
    (Haction : Command.raw_action raw = "move_to"%string) :
  let direct :=
    executeNextCommand
      (set_currentCommandIndex i (set_isPaused false (loadCommands commands e))) in
  let viaController :=
    executeNextCommand
      (set_currentCommandIndex i (set_isPaused false (loadRobotCommands commands e))) in
  targetPosition direct =
    Vec.mk (Command.raw_x raw) (Command.raw_y raw) (Command.raw_z raw) /\
  animationSpeed direct =
    JS.div (JS.or (Command.raw_speed raw) (JS.Fin 50)) (JS.Fin 2500) /\
  (JS.truthy (Command.raw_speed raw) = false -> animationSpeed direct = JS.Fin (1 # 50)) /\
  targetPosition viaController =
    Vec.mk (JS.or (Command.raw_x raw) (JS.Fin 0))
           (JS.or (Command.raw_y raw) (JS.Fin 0))
           (JS.or (Command.raw_z raw) (JS.Fin 0)) /\
  Vec.finite (targetPosition viaController) /\
  animationSpeed viaController =
    JS.div (JS.or (Command.raw_speed raw) (JS.Fin 50)) (JS.Fin 2500) /\
  (forall (cam : Projector.camera) (e' : engine),
     Draw.draw_throws cam e' = true <-> ~ Vec.finite (currentPosition e')) /\
  (isAnimating e = true ->
   ~ Vec.finite (Vec.mk (Command.raw_x raw) (Command.raw_y raw) (Command.raw_z raw)) ->
   ~ Vec.finite (currentPosition (animate direct)) /\
   forall cam : Projector.camera, Draw.animate_throws cam direct = true).
Proof.
  cbv zeta. unfold loadRobotCommands.
  rewrite (activate_loaded_move_to commands e i raw Hi Haction).
  rewrite (activate_loaded_move_to (map robotCommand commands) e i (robotCommand raw));
    [| rewrite list_lookup_fmap, Hi; reflexivity | exact Haction].
  cbn [targetPosition animationSpeed set_animationSpeed set_targetPosition
       robotCommand Command.raw_x Command.raw_y Command.raw_z Command.raw_speed].
  rewrite or_idempotent.
  split; [reflexivity|]. split; [reflexivity|].
  split; [intros Hs; unfold JS.or; rewrite Hs; reflexivity|].
  split; [reflexivity|].
  split.
  { destruct (or_finite (Command.raw_x raw) 0) as [qx ->].
    destruct (or_finite (Command.raw_y raw) 0) as [qy ->].
    destruct (or_finite (Command.raw_z raw) 0) as [qz ->].
    exact I. }
  split; [reflexivity|].
  split; [intros cam e'; apply draw_throws_iff|].
  intros Hanimating Hmissing.
  set (direct := set_animationSpeed _ _).
  assert (~ Vec.finite (currentPosition (animate direct))) as Hnan.
  { destruct (ticks_not_finite 1 direct) as (_ & _ & H).
    - exact Hanimating.
    - intros [Ht _]. apply Hmissing. exact Ht.
    - apply H. lia. }
  split; [exact Hnan|].
  intros cam. unfold Draw.animate_throws. apply draw_throws_iff. exact Hnan.
Qed.

Lemma move_to_defaults_witness :
  let commands :=
    [Command.mkRaw "move_to" JS.Undefined (JS.Fin 5) (JS.Fin 0) JS.Undefined None] in
  let e := set_isAnimating true initial in
  let direct :=
    executeNextCommand
      (set_currentCommandIndex 0 (set_isPaused false (loadCommands commands e))) in
  let viaController :=
    executeNextCommand
      (set_currentCommandIndex 0 (set_isPaused false (loadRobotCommands commands e))) in
  targetPosition direct = Vec.mk JS.Undefined (JS.Fin 5) (JS.Fin 0) /\
  animationSpeed direct =
    JS.div (JS.or JS.Undefined (JS.Fin 50)) (JS.Fin 2500) /\
  (JS.truthy JS.Undefined = false -> animationSpeed direct = JS.Fin (1 # 50)) /\
  targetPosition viaController =
    Vec.mk (JS.or JS.Undefined (JS.Fin 0))
           (JS.or (JS.Fin 5) (JS.Fin 0))
           (JS.or (JS.Fin 0) (JS.Fin 0)) /\
  Vec.finite (targetPosition viaController) /\
  animationSpeed viaController =
    JS.div (JS.or JS.Undefined (JS.Fin 50)) (JS.Fin 2500) /\
  (forall (cam : Projector.camera) (e' : engine),
     Draw.draw_throws cam e' = true <-> ~ Vec.finite (currentPosition e')) /\
  (isAnimating e = true ->
   ~ Vec.finite (Vec.mk JS.Undefined (JS.Fin 5) (JS.Fin 0)) ->
   ~ Vec.finite (currentPosition (animate direct)) /\
   forall cam : Projector.camera, Draw.animate_throws cam direct = true).
Proof.
  apply (move_to_defaults
           [Command.mkRaw "move_to" JS.Undefined (JS.Fin 5) (JS.Fin 0) JS.Undefined None]
           (set_isAnimating true initial) 0
           (Command.mkRaw "move_to" JS.Undefined (JS.Fin 5) (JS.Fin 0) JS.Undefined None));
    reflexivity.
Defined.

(** C7 fails as stated: a [move_to] without [x], loaded with [loadCommands]
    and started, leaves [targetPosition.x] undefined instead of 0 (the
    missing speed does give the rate 50/2500).  The engine draws without
    raising until the next call of [animate()], which turns
    [currentPosition.x] into [NaN] and raises in [draw()]; were it called
    again, it would change nothing: the command stays the active one for
    ever. *)
Lemma move_to_missing_x_is_not_defaulted :
  let e := startExecution
             (loadCommands
                [Command.mkRaw "move_to" JS.Undefined (JS.Fin 0) (JS.Fin 0)
                   JS.Undefined None] initial) in
  targetPosition e = Vec.mk JS.Undefined (JS.Fin 0) (JS.Fin 0) /\
  Vec.x (targetPosition e) <> JS.Fin 0 /\
  animationSpeed e = JS.Fin (1 # 50) /\
  currentPosition (animate e) = Vec.mk JS.NaN (JS.Fin 0) (JS.Fin 0) /\
  (forall cam : Projector.camera,
     Draw.draw_throws cam e = false /\ Draw.animate_throws cam e = true) /\
  currentCommandIndex (animate e) = 0%nat /\
  isAnimating (animate e) = true /\
  animate (animate e) = animate e.
Proof.
  cbv zeta. split; [reflexivity|]. split; [discriminate|].
  split; [reflexivity|]. split; [reflexivity|].
  split; [|repeat split].
  intros cam. split.
  - destruct (Draw.draw_throws cam _) eqn:E; [|reflexivity].
    apply draw_throws_iff in E. exfalso. apply E. exact I.
  - unfold Draw.animate_throws. apply draw_throws_iff. intros H. exact H.
Qed.
